(** * Darwin's Rockets: a shallow embedding of the evolutionary core

    The development follows the Python sources
    [darwins_rockets/population.py], [darwins_rockets/rocket.py] and
    [darwins_rockets/world.py].

    Modelling conventions.
    - A Python [float] is a real number ([R]); rounding, infinities and NaN
      are outside the model.  [float('inf')] in the statistics is the extra
      point of [xreal].
    - A Python [int] is an integer ([Z]).
    - A NumPy array of two floats is a pair of reals ([vec]).  Where the
      claim is about aliasing of arrays (module [DNAStore]) a genome is a
      list of references into a store of arrays.
    - The module-level generator of [random] is an explicit state [rng]
      threaded through every function that draws from it.
    - A Python exception is the [Raise] case of [result]. *)

From stdpp Require Import base option list gmap.
From Stdlib Require Import ZArith Reals Lra Lia.

Local Open Scope Z_scope.

(** ** Exceptions and the generator-passing monad *)

Inductive exn := ValueError | IndexError | ZeroDivisionError.

Inductive result (A : Type) :=
| Ok (a : A)
| Raise (e : exn).
Arguments Ok {A} a.
Arguments Raise {A} e.

(** The [random] module: an unbounded tape of raw integer draws and the
    position of the next draw. *)
Record rng := mk_rng { tape : nat -> Z; cursor : nat }.

Definition next_raw (g : rng) : Z * rng :=
  (tape g (cursor g), mk_rng (tape g) (S (cursor g))).

(** A computation that may draw random numbers and may raise. *)
Definition M (A : Type) : Type := rng -> result (A * rng).

Definition ret {A} (a : A) : M A := fun g => Ok (a, g).

Definition bind {A B} (m : M A) (k : A -> M B) : M B :=
  fun g => match m g with
           | Ok (a, g') => k a g'
           | Raise e => Raise e
           end.

Definition raise {A} (e : exn) : M A := fun _ => Raise e.

(** A step that draws nothing. *)
Definition lift {A} (r : result A) : M A :=
  fun g => match r with Ok a => Ok (a, g) | Raise e => Raise e end.

Notation "x <- m ;; k" := (bind m (fun x => k))
  (at level 100, m at next level, right associativity).

(** ** Real-number tests as booleans *)

Definition Rltb (x y : R) : bool := if Rlt_dec x y then true else false.
Definition Rleb (x y : R) : bool := if Rle_dec x y then true else false.
Definition Reqb (x y : R) : bool := if Req_dec_T x y then true else false.

(** ** The [random] functions used by the sources *)

Definition two53 : Z := 2 ^ 53.

(** [random.random()]: a float in [0, 1) built from 53 random bits. *)
Definition random_random : M R :=
  fun g => let (n, g') := next_raw g in
           Ok ((IZR (n mod two53) / IZR two53)%R, g').

(** [random.uniform(a, b)] is [a + (b - a) * random()]. *)
Definition random_uniform (a b : R) : M R :=
  u <- random_random ;; ret (a + (b - a) * u)%R.

(** [random.randint(a, b)]: an integer N with a <= N <= b; ValueError on an
    empty range. *)
Definition random_randint (a b : Z) : M Z :=
  fun g => if b <? a then Raise ValueError
           else let (n, g') := next_raw g in Ok (a + n mod (b - a + 1), g').

(** ** Two-dimensional vectors (NumPy arrays of shape (2,)) *)

Definition vec : Type := R * R.

Definition zeros : vec := (0%R, 0%R).
Definition vadd (u v : vec) : vec := (u.1 + v.1, u.2 + v.2)%R.
Definition vsub (u v : vec) : vec := (u.1 - v.1, u.2 - v.2)%R.
Definition vscale (u : vec) (k : R) : vec := (u.1 * k, u.2 * k)%R.
Definition vdiv (u : vec) (k : R) : vec := (u.1 / k, u.2 / k)%R.

(** [np.linalg.norm] on a 2-vector, and [math.hypot]. *)
Definition hypot (x y : R) : R := sqrt (x * x + y * y).
Definition norm (u : vec) : R := hypot u.1 u.2.

(** ** Python lists *)

Definition py_len {A} (l : list A) : Z := Z.of_nat (length l).

(** Python list indexing [l[i]]: negative indices count from the end, and
    an index out of range raises IndexError. *)
Definition py_index {A} (l : list A) (i : Z) : result A :=
  let n := py_len l in
  if (0 <=? i) && (i <? n) then
    match l !! Z.to_nat i with Some a => Ok a | None => Raise IndexError end
  else if (- n <=? i) && (i <? 0) then
    match l !! Z.to_nat (n + i) with Some a => Ok a | None => Raise IndexError end
  else Raise IndexError.

(** Python slices [l[:k]] and [l[k:]]: a negative bound counts from the end
    and every bound is clamped to the list. *)
Definition slice_to {A} (l : list A) (k : Z) : list A :=
  if k <? 0 then take (Z.to_nat (py_len l + k)) l else take (Z.to_nat k) l.

Definition slice_from {A} (l : list A) (k : Z) : list A :=
  if k <? 0 then drop (Z.to_nat (py_len l + k)) l else drop (Z.to_nat k) l.

(** A list comprehension over [range(n)] whose body draws random numbers. *)
Fixpoint repeatM {A} (n : nat) (m : M A) : M (list A) :=
  match n with
  | O => ret []
  | S n' => x <- m ;; xs <- repeatM n' m ;; ret (x :: xs)
  end.

(** A [for] loop that builds a list, one effectful step per element. *)
Fixpoint mapM {A B} (f : A -> M B) (l : list A) : M (list B) :=
  match l with
  | [] => ret []
  | a :: l' => b <- f a ;; bs <- mapM f l' ;; ret (b :: bs)
  end.

(** ** rocket.py *)

Module RocketConfig.
Record t := mk {
  DEFAULT_DNA_LENGTH : Z;
  RADIUS : R;
  MAX_TRAIL_LENGTH : Z;
  VELOCITY_DAMPING : R;
  MAX_VELOCITY : R;
  MIN_THRUST_MAGNITUDE : R;
  MAX_THRUST_MAGNITUDE : R;
  TARGET_RADIUS : R;
  FITNESS_TARGET_REWARD : R;
  FITNESS_BONUS_PER_STEP : R
}.

(** [RocketConfig()]: the dataclass defaults. *)
Definition default : t := {|
  DEFAULT_DNA_LENGTH := 100;
  RADIUS := 5;
  MAX_TRAIL_LENGTH := 50;
  VELOCITY_DAMPING := 98 / 100;
  MAX_VELOCITY := 10;
  MIN_THRUST_MAGNITUDE := 1 / 10;
  MAX_THRUST_MAGNITUDE := 5 / 10;
  TARGET_RADIUS := 20;
  FITNESS_TARGET_REWARD := 1000;
  FITNESS_BONUS_PER_STEP := 10
|}.
End RocketConfig.

Module Vector2D.
Definition random_unit_vector : M vec :=
  angle <- random_uniform 0 (2 * PI) ;;
  ret (cos angle, sin angle).

Definition random_thrust_vector (min_magnitude max_magnitude : R) : M vec :=
  direction <- random_unit_vector ;;
  magnitude <- random_uniform min_magnitude max_magnitude ;;
  ret (vscale direction magnitude).

Definition limit_magnitude (vector : vec) (max_magnitude : R) : vec :=
  let magnitude := norm vector in
  if Rltb max_magnitude magnitude
  then vscale (vdiv vector magnitude) max_magnitude
  else vector.

Definition safe_distance (pos1 pos2 : vec) : R := norm (vsub pos1 pos2).
End Vector2D.

(** [np.finfo(float).eps] *)
Definition float_eps : R := / 2 ^ 52.

Module Rocket.
Record t := mk {
  config : RocketConfig.t;
  pos : vec;
  vel : vec;
  acc : vec;
  dna_length : Z;
  dna : list vec;
  current_step : Z;
  fitness : R;
  has_reached_target : bool;
  target_reached_step : option Z;
  radius : R;
  trail : list vec;
  is_active : bool;
  has_collided : bool
}.

Definition set_dna (d : list vec) (r : t) : t :=
  mk (config r) (pos r) (vel r) (acc r) (dna_length r) d (current_step r)
     (fitness r) (has_reached_target r) (target_reached_step r) (radius r)
     (trail r) (is_active r) (has_collided r).

Definition set_current_step (s : Z) (r : t) : t :=
  mk (config r) (pos r) (vel r) (acc r) (dna_length r) (dna r) s
     (fitness r) (has_reached_target r) (target_reached_step r) (radius r)
     (trail r) (is_active r) (has_collided r).

Definition set_fitness (f : R) (r : t) : t :=
  mk (config r) (pos r) (vel r) (acc r) (dna_length r) (dna r)
     (current_step r) f (has_reached_target r) (target_reached_step r)
     (radius r) (trail r) (is_active r) (has_collided r).

Definition _generate_random_dna (cfg : RocketConfig.t) (dna_length : Z)
  : M (list vec) :=
  repeatM (Z.to_nat dna_length)
    (Vector2D.random_thrust_vector
       (RocketConfig.MIN_THRUST_MAGNITUDE cfg)
       (RocketConfig.MAX_THRUST_MAGNITUDE cfg)).

(** The object that [__init__] builds once the random DNA [d] is drawn. *)
Definition fresh (cfg : RocketConfig.t) (start_pos : vec) (dna_length : Z)
    (d : list vec) : t := {|
  config := cfg;
  pos := start_pos;
  vel := zeros;
  acc := zeros;
  dna_length := dna_length;
  dna := d;
  current_step := 0;
  fitness := 0;
  has_reached_target := false;
  target_reached_step := None;
  radius := RocketConfig.RADIUS cfg;
  trail := [];
  is_active := true;
  has_collided := false
|}.

(** [Rocket(start_pos, dna_length, config)]; [None] for [config] selects
    the default configuration. *)
Definition init (start_pos : vec) (dna_length : Z)
    (config : option RocketConfig.t) : M t :=
  let cfg := default RocketConfig.default config in
  d <- _generate_random_dna cfg dna_length ;;
  ret (fresh cfg start_pos dna_length d).

Definition _apply_thrust (r : t) : result t :=
  if current_step r <? dna_length r then
    match py_index (dna r) (current_step r) with
    | Ok a =>
        Ok (mk (config r) (pos r) (vel r) a (dna_length r) (dna r)
               (current_step r + 1) (fitness r) (has_reached_target r)
               (target_reached_step r) (radius r) (trail r) (is_active r)
               (has_collided r))
    | Raise e => Raise e
    end
  else
    Ok (mk (config r) (pos r) (vel r) zeros (dna_length r) (dna r)
           (current_step r) (fitness r) (has_reached_target r)
           (target_reached_step r) (radius r) (trail r) (is_active r)
           (has_collided r)).

Definition _update_physics (r : t) : t :=
  let v1 := vadd (vel r) (acc r) in
  let v2 := vscale v1 (RocketConfig.VELOCITY_DAMPING (config r)) in
  let v3 := Vector2D.limit_magnitude v2 (RocketConfig.MAX_VELOCITY (config r)) in
  mk (config r) (vadd (pos r) v3) v3 (acc r) (dna_length r) (dna r)
     (current_step r) (fitness r) (has_reached_target r)
     (target_reached_step r) (radius r) (trail r) (is_active r)
     (has_collided r).

Definition _update_trail (r : t) : t :=
  let tr := trail r ++ [pos r] in
  let tr' :=
    if RocketConfig.MAX_TRAIL_LENGTH (config r) <? py_len tr
    then tail tr else tr in
  mk (config r) (pos r) (vel r) (acc r) (dna_length r) (dna r)
     (current_step r) (fitness r) (has_reached_target r)
     (target_reached_step r) (radius r) tr' (is_active r) (has_collided r).

(** The source's body is [pass]; the world argument is not read. *)
Definition _check_world_interactions (r : t) : t := r.

(** [update(world)].  The world is passed on to
    [_check_world_interactions] only, which ignores it. *)
Definition update (r : t) : result t :=
  if negb (is_active r) then Ok r
  else
    match _apply_thrust r with
    | Ok r1 => Ok (_check_world_interactions (_update_trail (_update_physics r1)))
    | Raise e => Raise e
    end.

Definition _handle_target_reached (r : t) : t :=
  mk (config r) (pos r) (vel r) (acc r) (dna_length r) (dna r)
     (current_step r) (fitness r) true (Some (current_step r)) (radius r)
     (trail r) (is_active r) (has_collided r).

Definition _calculate_success_fitness (r : t) : R :=
  let base_reward := RocketConfig.FITNESS_TARGET_REWARD (config r) in
  match target_reached_step r with
  | Some s =>
      let steps_remaining := dna_length r - s in
      let efficiency_bonus :=
        (IZR steps_remaining * RocketConfig.FITNESS_BONUS_PER_STEP (config r))%R in
      (base_reward + efficiency_bonus)%R
  | None => base_reward
  end.

Definition _calculate_distance_fitness (distance : R) : R :=
  (1 / (distance + float_eps))%R.

Definition evaluate_fitness (r : t) (target_pos : vec) : t :=
  let distance_to_target := Vector2D.safe_distance (pos r) target_pos in
  let r1 :=
    if Rleb distance_to_target (RocketConfig.TARGET_RADIUS (config r))
       && negb (has_reached_target r)
    then _handle_target_reached r else r in
  if has_reached_target r1
  then set_fitness (_calculate_success_fitness r1) r1
  else set_fitness (_calculate_distance_fitness distance_to_target) r1.

(** The dictionary returned by [get_state]. *)
Record state := mk_state {
  st_pos : vec;
  st_vel : vec;
  st_acc : vec;
  st_fitness : R;
  st_trail : list vec;
  st_radius : R;
  st_is_active : bool;
  st_has_reached_target : bool;
  st_current_step : Z;
  st_dna_length : Z;
  st_fuel_remaining : Z
}.

Definition get_state (r : t) : state := {|
  st_pos := pos r;
  st_vel := vel r;
  st_acc := acc r;
  st_fitness := fitness r;
  st_trail := trail r;
  st_radius := radius r;
  st_is_active := is_active r;
  st_has_reached_target := has_reached_target r;
  st_current_step := current_step r;
  st_dna_length := dna_length r;
  st_fuel_remaining := Z.max 0 (dna_length r - current_step r)
|}.

Definition get_dna_copy (r : t) : list vec := dna r.

Definition clone_with_dna (r : t) (new_dna : list vec) : M t :=
  clone <- init (pos r) (py_len new_dna) (Some (config r)) ;;
  ret (set_dna new_dna clone).
End Rocket.

Module Target.
(** [ident] stands for the identity of the Python object: the world
    compares targets with [is] and removes them by identity. *)
Record t := mk { ident : nat; pos : vec; radius : R }.
End Target.

(** ** population.py *)

(** The constants [GENE_MIN_MAGNITUDE] and [GENE_MAX_MAGNITUDE] come from the
    module [config], which is not among the sources at hand: they are
    parameters of every function that reads them. *)
Module Config.
Record t := mk { GENE_MIN_MAGNITUDE : R; GENE_MAX_MAGNITUDE : R }.
End Config.

(** Python's [sum], [min] and [max] over a list of floats. *)
Definition py_sum (l : list R) : R := fold_left Rplus l 0%R.

Definition py_min (x : R) (xs : list R) : R :=
  fold_left (fun m y => if Rltb y m then y else m) xs x.

Definition py_max (x : R) (xs : list R) : R :=
  fold_left (fun m y => if Rltb m y then y else m) xs x.

Module DNA.
Record t := mk { genes : list vec }.

Definition random_gene (c : Config.t) : M vec :=
  angle <- random_uniform 0 (2 * PI) ;;
  magnitude <- random_uniform (Config.GENE_MIN_MAGNITUDE c)
                              (Config.GENE_MAX_MAGNITUDE c) ;;
  ret (magnitude * cos angle, magnitude * sin angle)%R.

Definition random (c : Config.t) (length : Z) : M t :=
  gs <- repeatM (Z.to_nat length) (random_gene c) ;;
  ret (mk gs).

Definition crossover (self other : t) : M t :=
  point <- random_randint 0 (py_len (genes self) - 1) ;;
  ret (mk (slice_to (genes self) point ++ slice_from (genes other) point)).

(** One iteration of the loop of [mutate]. *)
Definition mutate_gene (c : Config.t) (mutation_rate : R) (gene : vec) : M vec :=
  u <- random_random ;;
  if Rltb u mutation_rate then random_gene c else ret gene.

Definition mutate (c : Config.t) (self : t) (mutation_rate : R) : M t :=
  new_genes <- mapM (mutate_gene c mutation_rate) (genes self) ;;
  ret (mk new_genes).

Definition to_list (self : t) : list vec := genes self.
End DNA.

Module Population.
Record t := mk {
  start_positions : list vec;
  dna_length : Z;
  mutation_rate : R;
  dnas : list DNA.t
}.

Definition set_dnas (ds : list DNA.t) (p : t) : t :=
  mk (start_positions p) (dna_length p) (mutation_rate p) ds.

Definition init (c : Config.t) (start_positions : list vec)
    (dna_length : Z) (mutation_rate : R) : M t :=
  ds <- mapM (fun _ => DNA.random c dna_length) start_positions ;;
  ret (mk start_positions dna_length mutation_rate ds).

Definition get_fitness_sum (rockets : list Rocket.t) : R :=
  py_sum (map Rocket.fitness rockets).

Definition _get_normalized_fitnesses (rockets : list Rocket.t) : list R :=
  let fitnesses := map Rocket.fitness rockets in
  let min_fitness :=
    match fitnesses with [] => 0%R | x :: xs => py_min x xs end in
  let max_fitness :=
    match fitnesses with [] => 1%R | x :: xs => py_max x xs end in
  if Rltb min_fitness max_fitness
  then map (fun f => ((f - min_fitness) / (max_fitness - min_fitness))%R)
           fitnesses
  else replicate (length fitnesses) 1%R.

Definition normalize_fitness_for_selection (rockets : list Rocket.t)
  : list Rocket.t :=
  zip_with (fun rocket nrm => Rocket.set_fitness nrm rocket)
           rockets (_get_normalized_fitnesses rockets).

(** The [for] loop of [roulette_wheel_select]: [current] is the running
    sum before index [i] and [nf] the normalized fitnesses from index [i]
    on (one per rocket).  [None] when the loop ends without returning. *)
Fixpoint spin (nf : list R) (pick current : R) (i : Z) : option Z :=
  match nf with
  | [] => None
  | x :: rest =>
      let current' := (current + x)%R in
      if Rleb pick current' then Some i
      else spin rest pick current' (i + 1)
  end.

(** The body of [roulette_wheel_select] once the normalized fitnesses of a
    non-empty list of [n] rockets are known. *)
Definition select_from (n : Z) (normalized_fitnesses : list R) : M (option Z) :=
  let fitness_sum := py_sum normalized_fitnesses in
  if Reqb fitness_sum 0 then
    k <- random_randint 0 (n - 1) ;; ret (Some k)
  else
    pick <- random_uniform 0 fitness_sum ;;
    ret (Some (default (n - 1) (spin normalized_fitnesses pick 0%R 0))).

(** [None] is Python's [None]. *)
Definition roulette_wheel_select (rockets : list Rocket.t) : M (option Z) :=
  match rockets with
  | [] => ret None
  | _ :: _ => select_from (py_len rockets) (_get_normalized_fitnesses rockets)
  end.

(** One iteration of the main loop of [next_generation]. *)
Definition breed (c : Config.t) (self : t) (rockets : list Rocket.t) : M DNA.t :=
  idx1 <- roulette_wheel_select rockets ;;
  idx2 <- roulette_wheel_select rockets ;;
  match idx1, idx2 with
  | Some i1, Some i2 =>
      r1 <- lift (py_index rockets i1) ;;
      r2 <- lift (py_index rockets i2) ;;
      let dna1 := DNA.mk (Rocket.get_dna_copy r1) in
      let dna2 := DNA.mk (Rocket.get_dna_copy r2) in
      child <- DNA.crossover dna1 dna2 ;;
      DNA.mutate c child (mutation_rate self)
  | _, _ => DNA.random c (dna_length self)
  end.

Definition next_generation (c : Config.t) (self : t)
    (rockets : list Rocket.t) : M t :=
  match rockets with
  | [] =>
      new_dnas <- mapM (fun _ => DNA.random c (dna_length self))
                       (start_positions self) ;;
      ret (set_dnas new_dnas self)
  | _ :: _ =>
      new_dnas <- mapM (fun _ => breed c self rockets) (start_positions self) ;;
      ret (set_dnas new_dnas self)
  end.

Definition get_dnas (self : t) : list (list vec) := map DNA.to_list (dnas self).
End Population.

(** ** world.py *)

(** The entities of the world: the two subclasses of [Entity]. *)
Inductive entity :=
| ETarget (t : Target.t)
| ERocket (r : Rocket.t).

(** A float that may be [float('inf')]. *)
Inductive xreal :=
| Finite (x : R)
| PInf.

(** [x < b] for a float [x] and a possibly infinite [b]. *)
Definition xltb (x : R) (b : xreal) : bool :=
  match b with Finite y => Rltb x y | PInf => true end.

(** The dictionary [World.stats]. *)
Module Stats.
Record t := mk {
  total_rockets_reached_target : Z;
  best_distance_achieved : xreal;
  rockets_reached_current_gen : Z;
  best_fitness_current_gen : R;
  best_fitness_all_time : R;
  current_generation : Z;
  generation_complete : bool
}.
End Stats.

Module World.
Record t := mk {
  width : Z;
  height : Z;
  entities : list entity;
  target : option Target.t;
  population_size : Z;
  dna_length : Z;
  mutation_rate : R;
  start_positions : list vec;
  population : Population.t;
  current_generation : Z;
  generation_step : Z;
  max_steps_per_generation : Z;
  stats : Stats.t
}.

Definition set_entities (es : list entity) (w : t) : t :=
  mk (width w) (height w) es (target w) (population_size w) (dna_length w)
     (mutation_rate w) (start_positions w) (population w)
     (current_generation w) (generation_step w)
     (max_steps_per_generation w) (stats w).

Definition set_target_field (tg : option Target.t) (w : t) : t :=
  mk (width w) (height w) (entities w) tg (population_size w) (dna_length w)
     (mutation_rate w) (start_positions w) (population w)
     (current_generation w) (generation_step w)
     (max_steps_per_generation w) (stats w).

Definition set_population (p : Population.t) (w : t) : t :=
  mk (width w) (height w) (entities w) (target w) (population_size w)
     (dna_length w) (mutation_rate w) (start_positions w) p
     (current_generation w) (generation_step w)
     (max_steps_per_generation w) (stats w).

Definition set_current_generation (n : Z) (w : t) : t :=
  mk (width w) (height w) (entities w) (target w) (population_size w)
     (dna_length w) (mutation_rate w) (start_positions w) (population w)
     n (generation_step w) (max_steps_per_generation w) (stats w).

Definition set_generation_step (n : Z) (w : t) : t :=
  mk (width w) (height w) (entities w) (target w) (population_size w)
     (dna_length w) (mutation_rate w) (start_positions w) (population w)
     (current_generation w) n (max_steps_per_generation w) (stats w).

Definition set_stats (s : Stats.t) (w : t) : t :=
  mk (width w) (height w) (entities w) (target w) (population_size w)
     (dna_length w) (mutation_rate w) (start_positions w) (population w)
     (current_generation w) (generation_step w)
     (max_steps_per_generation w) s.

Definition is_rocket (e : entity) : bool :=
  match e with ERocket _ => true | ETarget _ => false end.

(** [[e for e in entities if isinstance(e, Rocket)]] *)
Fixpoint rockets_of (es : list entity) : list Rocket.t :=
  match es with
  | [] => []
  | ERocket r :: es' => r :: rockets_of es'
  | ETarget _ :: es' => rockets_of es'
  end.

Definition get_rockets (w : t) : list Rocket.t := rockets_of (entities w).

Definition get_entities (w : t) : list entity := entities w.

Definition get_stats (w : t) : Stats.t := stats w.

Definition is_generation_complete (w : t) : bool :=
  Stats.generation_complete (stats w).

Definition target_pos (w : t) : vec :=
  match target w with
  | Some tg => Target.pos tg
  | None => (0%R, 0%R)
  end.

(** [e is tg] for an entity [e]. *)
Definition is_target (tg : Target.t) (e : entity) : bool :=
  match e with
  | ETarget t' => Nat.eqb (Target.ident t') (Target.ident tg)
  | ERocket _ => false
  end.

(** [list.remove]: drops the first matching element. *)
Fixpoint remove_first (p : entity -> bool) (es : list entity) : list entity :=
  match es with
  | [] => []
  | e :: es' => if p e then es' else e :: remove_first p es'
  end.

Definition add_entity (w : t) (e : entity) : t :=
  let w1 := set_entities (entities w ++ [e]) w in
  match e with
  | ETarget tg => set_target_field (Some tg) w1
  | ERocket _ => w1
  end.

(** [remove_entity], for a target (the only use in the sources). *)
Definition remove_entity (w : t) (tg : Target.t) : t :=
  if existsb (is_target tg) (entities w) then
    let w1 := set_entities (remove_first (is_target tg) (entities w)) w in
    match target w with
    | Some cur =>
        if Nat.eqb (Target.ident cur) (Target.ident tg)
        then set_target_field None w1 else w1
    | None => w1
    end
  else w.

(** An identity that no target of the world has: a new object. *)
Fixpoint fresh_ident (es : list entity) : nat :=
  match es with
  | [] => O
  | ETarget tg :: es' => Nat.max (S (Target.ident tg)) (fresh_ident es')
  | ERocket _ :: es' => fresh_ident es'
  end.

Definition set_target (w : t) (x y : R) (radius : R) : t :=
  let new_id :=
    Nat.max (fresh_ident (entities w))
            (match target w with Some tg => S (Target.ident tg) | None => O end) in
  let w1 :=
    match target w with
    | Some tg => remove_entity w tg
    | None => w
    end in
  add_entity w1 (ETarget (Target.mk new_id (x, y) radius)).

(** One iteration of the loop of [_spawn_generation]. *)
Definition spawn_rocket (dna_length : Z) (sd : vec * list vec) : M entity :=
  rocket <- Rocket.init sd.1 dna_length None ;;
  ret (ERocket (Rocket.set_current_step 0 (Rocket.set_dna sd.2 rocket))).

Definition _spawn_generation (w : t) : M t :=
  let kept := List.filter (fun e => negb (is_rocket e)) (entities w) in
  let dna_sequences := Population.get_dnas (population w) in
  new_rockets <- mapM (spawn_rocket (dna_length w))
                      (zip (start_positions w) dna_sequences) ;;
  let g := current_generation w + 1 in
  let s := stats w in
  ret (mk (width w) (height w) (kept ++ new_rockets) (target w)
          (population_size w) (dna_length w) (mutation_rate w)
          (start_positions w) (population w) g 0
          (max_steps_per_generation w)
          (Stats.mk (Stats.total_rockets_reached_target s)
                    (Stats.best_distance_achieved s)
                    (Stats.rockets_reached_current_gen s)
                    (Stats.best_fitness_current_gen s)
                    (Stats.best_fitness_all_time s)
                    g false)).

(** A rocket that keeps the generation running. *)
Definition still_running (rocket : Rocket.t) : bool :=
  (Rocket.current_step rocket <? Rocket.dna_length rocket)
  && negb (Rocket.has_reached_target rocket).

Definition _should_end_generation (w : t) : bool :=
  let rockets := get_rockets w in
  match rockets with
  | [] => true
  | _ :: _ =>
      if max_steps_per_generation w <=? generation_step w then true
      else negb (existsb still_running rockets)
  end.

(** The running values of the loop of [_calculate_rocket_stats]. *)
Record tally := mk_tally {
  best_dist : xreal;
  rockets_reached : Z;
  best_fitness : R
}.

Definition out_of_bounds (w : t) (p : vec) : bool :=
  Rltb p.1 0 || Rltb (IZR (width w)) p.1
  || Rltb p.2 0 || Rltb (IZR (height w)) p.2.

(** One iteration of that loop. *)
Definition stats_rocket (w : t) (tpos : vec) (a : tally) (rocket : Rocket.t)
  : tally * Rocket.t :=
  let r1 := Rocket.evaluate_fitness rocket tpos in
  let dist := hypot ((Rocket.pos r1).1 - tpos.1) ((Rocket.pos r1).2 - tpos.2) in
  let bd := if xltb dist (best_dist a) then Finite dist else best_dist a in
  let rr := if Rocket.has_reached_target r1
            then rockets_reached a + 1 else rockets_reached a in
  let bf := if Rltb (best_fitness a) (Rocket.fitness r1)
            then Rocket.fitness r1 else best_fitness a in
  let r2 := if out_of_bounds w (Rocket.pos r1)
            then Rocket.set_fitness (Rocket.fitness r1 * (1 / 10))%R r1
            else r1 in
  (mk_tally bd rr bf, r2).

Fixpoint stats_loop (w : t) (tpos : vec) (a : tally) (es : list entity)
  : tally * list entity :=
  match es with
  | [] => (a, [])
  | ETarget tg :: es' =>
      let (a', out) := stats_loop w tpos a es' in (a', ETarget tg :: out)
  | ERocket r :: es' =>
      let (a1, r') := stats_rocket w tpos a r in
      let (a2, out) := stats_loop w tpos a1 es' in
      (a2, ERocket r' :: out)
  end.

Definition _calculate_rocket_stats (w : t) : t :=
  match target w, get_rockets w with
  | None, _ => w
  | Some _, [] => w
  | Some tg, _ :: _ =>
      let (a, es) :=
        stats_loop w (Target.pos tg) (mk_tally PInf 0 0%R) (entities w) in
      let s := stats w in
      let total :=
        if 0 <? rockets_reached a
        then Stats.total_rockets_reached_target s + rockets_reached a
        else Stats.total_rockets_reached_target s in
      set_stats
        (Stats.mk total (best_dist a) (rockets_reached a) (best_fitness a)
                  (Stats.best_fitness_all_time s)
                  (Stats.current_generation s)
                  (Stats.generation_complete s))
        (set_entities es w)
  end.

Definition map_rockets (f : Rocket.t -> Rocket.t) (es : list entity)
  : list entity :=
  map (fun e => match e with
                | ERocket r => ERocket (f r)
                | ETarget tg => ETarget tg
                end) es.

Definition _end_generation (c : Config.t) (w : t) : M t :=
  match get_rockets w with
  | [] => ret w
  | _ :: _ =>
      let es :=
        match target w with
        | Some tg =>
            map_rockets (fun r => Rocket.evaluate_fitness r (Target.pos tg))
                        (entities w)
        | None => entities w
        end in
      let rockets := rockets_of es in
      let s := stats w in
      let best :=
        fold_left (fun b r => if Rltb b (Rocket.fitness r)
                              then Rocket.fitness r else b)
                  rockets (Stats.best_fitness_all_time s) in
      p <- Population.next_generation c (population w) rockets ;;
      ret (mk (width w) (height w) es (target w) (population_size w)
              (dna_length w) (mutation_rate w) (start_positions w) p
              (current_generation w) (generation_step w)
              (max_steps_per_generation w)
              (Stats.mk (Stats.total_rockets_reached_target s)
                        (Stats.best_distance_achieved s)
                        (Stats.rockets_reached_current_gen s)
                        (Stats.best_fitness_current_gen s)
                        best
                        (Stats.current_generation s)
                        true))
  end.

Definition update_entity (e : entity) : result entity :=
  match e with
  | ETarget tg => Ok (ETarget tg)
  | ERocket r =>
      match Rocket.update r with
      | Ok r' => Ok (ERocket r')
      | Raise x => Raise x
      end
  end.

Fixpoint update_all (es : list entity) : result (list entity) :=
  match es with
  | [] => Ok []
  | e :: es' =>
      match update_entity e with
      | Ok e' =>
          match update_all es' with
          | Ok out => Ok (e' :: out)
          | Raise x => Raise x
          end
      | Raise x => Raise x
      end
  end.

(** The part of [step] before the end-of-generation test: every entity is
    updated, the step counter advances and the statistics are recomputed. *)
Definition advance (w : t) : result t :=
  match update_all (entities w) with
  | Ok es =>
      Ok (_calculate_rocket_stats
            (set_generation_step (generation_step w + 1) (set_entities es w)))
  | Raise x => Raise x
  end.

Definition step (c : Config.t) (w : t) : M t :=
  w1 <- lift (advance w) ;;
  if _should_end_generation w1 then
    w2 <- _end_generation c w1 ;;
    _spawn_generation w2
  else ret w1.

(** [World(width, height, population_size, dna_length, mutation_rate)] *)
Definition init (c : Config.t) (width height population_size dna_length : Z)
    (mutation_rate : R) : M t :=
  let start_positions :=
    map (fun i : nat =>
           (IZR (Z.quot ((Z.of_nat i + 1) * width) (population_size + 1)),
            IZR (height - 50)))
        (seq 0 (Z.to_nat population_size)) in
  p <- Population.init c start_positions dna_length mutation_rate ;;
  _spawn_generation
    (mk width height [] None population_size dna_length mutation_rate
        start_positions p 0 0 (dna_length + 50)
        (Stats.mk 0 PInf 0 0%R 0%R 0 false)).

Definition get_generation_progress (w : t) : R :=
  if max_steps_per_generation w <=? 0 then 1%R
  else Rmin 1 (IZR (generation_step w) / IZR (max_steps_per_generation w)).
End World.

(** ** Genomes as lists of references

    [DNA.mutate] once more, with the NumPy arrays in a store: a genome is a
    list of references, [gene.copy()] and [np.array(...)] allocate a new
    array, and writing into an array updates the store in place. *)
Module DNAStore.
Abbreviation ref := nat (only parsing).
Abbreviation store := (gmap nat vec) (only parsing).

(** The array behind a reference. *)
Definition read (h : store) (l : ref) : vec := default zeros (h !! l).

(** A new array holding [v]. *)
Definition alloc (h : store) (v : vec) : ref * store :=
  let l := fresh (dom h) in (l, <[l:=v]> h).

(** [a[...] = v]: an in-place write to the array [l]. *)
Definition write (h : store) (l : ref) (v : vec) : store := <[l:=v]> h.

(** The values of a genome. *)
Definition values (h : store) (gs : list ref) : list vec := map (read h) gs.

Fixpoint mutate (c : Config.t) (mutation_rate : R) (gs : list ref) (h : store)
  : M (list ref * store) :=
  match gs with
  | [] => ret ([], h)
  | gene :: rest =>
      u <- random_random ;;
      v <- (if Rltb u mutation_rate then DNA.random_gene c
            else ret (read h gene)) ;;
      let (l, h1) := alloc h v in
      out <- mutate c mutation_rate rest h1 ;;
      ret (l :: out.1, out.2)
  end.
End DNAStore.

(** ** Runs, instances and the notions the properties are stated with *)

(** Two parents of two genes each. *)
Definition parent_a : DNA.t := DNA.mk [(1, 0); (2, 0)]%R.
Definition parent_b : DNA.t := DNA.mk [(3, 0); (4, 0)]%R.

(** The running sum of the wheel after the entries [0 .. j]. *)
Definition prefix_sum (nf : list R) (j : Z) : R := py_sum (take (Z.to_nat (j + 1)) nf).

(** [i] is the first index whose running sum reaches [pick]. *)
Definition first_reaching (nf : list R) (pick : R) (i : Z) : Prop :=
  0 <= i < py_len nf
  /\ (pick <= prefix_sum nf i)%R
  /\ forall j, 0 <= j < i -> (prefix_sum nf j < pick)%R.

(** No running sum reaches [pick]. *)
Definition none_reaching (nf : list R) (pick : R) : Prop :=
  forall j, 0 <= j < py_len nf -> (prefix_sum nf j < pick)%R.

(** [n] calls of [update] in a row. *)
Fixpoint updates (n : nat) (r : Rocket.t) : result Rocket.t :=
  match n with
  | O => Ok r
  | S n' =>
      match Rocket.update r with
      | Ok r' => updates n' r'
      | Raise e => Raise e
      end
  end.

(** [World(100, 100, population_size=0)]: a world without rockets. *)
Definition empty_world : World.t :=
  World.mk 100 100 [] None 0 100 (1 / 10) []
           (Population.mk [] 100 (1 / 10) []) 1 0 150
           (Stats.mk 0 PInf 0 0 0 1 false).

(** A new rocket with the default configuration and two instructions of
    zero thrust. *)
Definition resting_rocket (p : vec) : Rocket.t :=
  Rocket.fresh RocketConfig.default p 2 [zeros; zeros].

(** Runs: the calls a driver makes on a world. *)
Inductive command :=
| Step
| SetTarget (x y radius : R).

(** The calls of [cmds] made on [w], in order. *)
Fixpoint exec (c : Config.t) (cmds : list command) (w : World.t) : M World.t :=
  match cmds with
  | [] => ret w
  | Step :: rest => w' <- World.step c w ;; exec c rest w'
  | SetTarget x y radius :: rest => exec c rest (World.set_target w x y radius)
  end.

(** A world is built and then driven by [cmds]. *)
Definition simulate (c : Config.t) (width height population_size dna_length : Z)
    (mutation_rate : R) (cmds : list command) : M World.t :=
  w <- World.init c width height population_size dna_length mutation_rate ;;
  exec c cmds w.

(** The state of a rocket as a generation starts. *)
Definition newborn (dna_length : Z) (start_pos : vec) (d : list vec)
    (r : Rocket.t) : Prop :=
  Rocket.config r = RocketConfig.default
  /\ Rocket.pos r = start_pos
  /\ Rocket.vel r = zeros
  /\ Rocket.dna r = d
  /\ Rocket.dna_length r = dna_length
  /\ Rocket.current_step r = 0
  /\ Rocket.has_reached_target r = false
  /\ Rocket.target_reached_step r = None
  /\ Rocket.is_active r = true.

(** The number of rockets carrying the reached-target flag. *)
Definition count_reached (rs : list Rocket.t) : Z :=
  Z.of_nat (length (List.filter Rocket.has_reached_target rs)).

(** The relation between a rocket before and after a statistics pass. *)
Definition evaluated (tgt : option Target.t) (r r' : Rocket.t) : Prop :=
  match tgt with
  | Some tg =>
      exists f, r' = Rocket.set_fitness f (Rocket.evaluate_fitness r (Target.pos tg))
  | None => r' = r
  end.

(** A rocket is finished when its step cursor has reached its genome
    length or it carries the reached-target flag. *)
Definition finished (r : Rocket.t) : Prop :=
  Rocket.dna_length r <= Rocket.current_step r
  \/ Rocket.has_reached_target r = true.

(** The condition under which a generation ends. *)
Definition generation_over (w : World.t) : Prop :=
  World.get_rockets w = []
  \/ World.dna_length w + 50 <= World.generation_step w
  \/ Forall finished (World.get_rockets w).

(** Every genome of the population and of the live rockets has
    [dna_length] instructions, and every step cursor lies within the
    genome. *)
Definition world_inv (w : World.t) : Prop :=
  0 <= World.dna_length w
  /\ Population.dna_length (World.population w) = World.dna_length w
  /\ Population.start_positions (World.population w) = World.start_positions w
  /\ length (Population.dnas (World.population w)) = length (World.start_positions w)
  /\ Forall (fun d => py_len (DNA.genes d) = World.dna_length w)
            (Population.dnas (World.population w))
  /\ Forall (fun r => py_len (Rocket.dna r) = World.dna_length w
                      /\ Rocket.dna_length r = World.dna_length w
                      /\ 0 <= Rocket.current_step r <= World.dna_length w)
            (World.get_rockets w).

(** Gene magnitudes between 0 and 1. *)
Definition config0 : Config.t := Config.mk 0 1.

(** A generator whose raw draws are all zero. *)
Definition rng0 : rng := mk_rng (fun _ => 0) O.

(** A store with one array. *)
Definition store0 : gmap nat vec := {[ O := (1, 2)%R ]}.

(** The genome made of that array. *)
Definition genome0 : list nat := [O].

(** The genes of a genome all have a magnitude in the configured range. *)
Definition genes_in_range (c : Config.t) (gs : list vec) : Prop :=
  Forall (fun v => (Config.GENE_MIN_MAGNITUDE c <= norm v
                    <= Config.GENE_MAX_MAGNITUDE c)%R) gs.

(** [[e for e in entities if isinstance(e, Target)]] *)
Fixpoint targets_of (es : list entity) : list Target.t :=
  match es with
  | [] => []
  | ETarget tg :: es' => tg :: targets_of es'
  | ERocket _ :: es' => targets_of es'
  end.

(** What holds of every world of a run besides [world_inv]: one live
    rocket per start position, each active, with the default configuration
    and with its step cursor equal to the step counter of the generation;
    the step counter is 0 or below the genome length; the step cap is the
    constructor's; and the only target among the entities is the world's
    target. *)
Definition run_inv (w : World.t) : Prop :=
  world_inv w
  /\ length (World.get_rockets w) = length (World.start_positions w)
  /\ World.max_steps_per_generation w = World.dna_length w + 50
  /\ (World.generation_step w = 0
      \/ 0 < World.generation_step w < World.dna_length w)
  /\ Forall (fun r => Rocket.is_active r = true
                      /\ Rocket.config r = RocketConfig.default
                      /\ Rocket.current_step r = World.generation_step w)
            (World.get_rockets w)
  /\ targets_of (World.entities w)
     = match World.target w with Some tg => [tg] | None => [] end.

(** A run used as an instance: the target is set and two steps follow. *)
Definition demo_cmds : list command := [SetTarget 100 50 20; Step; Step].

(** The entities with the fitness stored in every rocket replaced. *)
Definition refit (fit : Rocket.t -> R) (es : list entity) : list entity :=
  World.map_rockets (fun r => Rocket.set_fitness (fit r) r) es.

(** Two entities that differ at most in the fitness stored in a rocket. *)
Definition same_but_fitness (e e' : entity) : Prop :=
  match e, e' with
  | ETarget t, ETarget t' => t' = t
  | ERocket r, ERocket r' => exists x, r' = Rocket.set_fitness x r
  | _, _ => False
  end.

(** A world with a target at the origin and one resting rocket on it. *)
Definition one_rocket_world : World.t :=
  World.add_entity (World.set_target empty_world 0 0 20)
                   (ERocket (resting_rocket (0, 0)%R)).

(** The order of floats with [float('inf')] on top. *)
Definition xle (a b : xreal) : Prop :=
  match a, b with
  | Finite x, Finite y => (x <= y)%R
  | _, PInf => True
  | PInf, Finite _ => False
  end.

(** The number of [step()] calls of a run. *)
Definition count_steps (cmds : list command) : Z :=
  Z.of_nat (length (List.filter (fun c => match c with
                                          | Step => true
                                          | SetTarget _ _ _ => false
                                          end) cmds)).

(** Min-max scaling as the specification words it: every fitness is
    scaled between the least and the greatest fitness of the list, and
    when all fitnesses are equal every entry is 1.  The least and the
    greatest fitness are described by what they are, not by how the code
    computes them. *)
Definition minmax_normalized (fs nf : list R) : Prop :=
  length nf = length fs
  /\ forall lo hi,
       lo ∈ fs -> hi ∈ fs ->
       (forall f, f ∈ fs -> (lo <= f <= hi)%R) ->
       forall (i : nat) f,
         fs !! i = Some f ->
         nf !! i = Some (if Rltb lo hi then ((f - lo) / (hi - lo))%R else 1%R).

(** A generator whose raw draws are all one. *)
Definition rng1 : rng := mk_rng (fun _ => 1) O.

(** Two resting rockets of fitness 1 and 3. *)
Definition unequal_rockets : list Rocket.t :=
  [Rocket.set_fitness 1 (resting_rocket (0, 0)%R);
   Rocket.set_fitness 3 (resting_rocket (1, 0)%R)].

(** * Properties *)

(** ** Booleans over the reals *)

Lemma Rltb_true (x y : R) : Rltb x y = true <-> (x < y)%R.
Proof. unfold Rltb; destruct (Rlt_dec x y); split; intros; try done. Qed.

Lemma Rltb_false (x y : R) : Rltb x y = false <-> (y <= x)%R.
Proof.
  unfold Rltb; destruct (Rlt_dec x y); split; intros; try done; lra.
Qed.

Lemma Rleb_true (x y : R) : Rleb x y = true <-> (x <= y)%R.
Proof. unfold Rleb; destruct (Rle_dec x y); split; intros; try done. Qed.

Lemma Rleb_false (x y : R) : Rleb x y = false <-> (y < x)%R.
Proof.
  unfold Rleb; destruct (Rle_dec x y); split; intros; try done; lra.
Qed.

Lemma Reqb_true (x y : R) : Reqb x y = true <-> x = y.
Proof. unfold Reqb; destruct (Req_dec_T x y); split; intros; try done. Qed.

Lemma Reqb_false (x y : R) : Reqb x y = false <-> x <> y.
Proof. unfold Reqb; destruct (Req_dec_T x y); split; intros; try done. Qed.

(** ** The monad *)

Lemma bind_Ok {A B} (m : M A) (k : A -> M B) g b g' :
  bind m k g = Ok (b, g') <->
  exists a g1, m g = Ok (a, g1) /\ k a g1 = Ok (b, g').
Proof.
  unfold bind. split.
  - destruct (m g) as [[a g1]|e]; [eauto | discriminate].
  - intros (a & g1 & -> & H). exact H.
Qed.

Lemma ret_Ok {A} (a b : A) g g' : ret a g = Ok (b, g') <-> a = b /\ g = g'.
Proof. unfold ret. split; [intros [= -> ->] | intros [-> ->]]; done. Qed.

Lemma mapM_length {A B} (f : A -> M B) l g bs g' :
  mapM f l g = Ok (bs, g') -> length bs = length l.
Proof.
  revert g bs g'. induction l as [|a l IH]; intros g bs g'; simpl.
  - intros [<- _]%ret_Ok. done.
  - intros (b & g1 & _ & (bs' & g2 & Hl & [<- _]%ret_Ok)%bind_Ok)%bind_Ok.
    simpl. f_equal. eauto.
Qed.

Lemma mapM_Forall {A B} (P : B -> Prop) (f : A -> M B) l g bs g' :
  (forall a g1 b g2, a ∈ l -> f a g1 = Ok (b, g2) -> P b) ->
  mapM f l g = Ok (bs, g') -> Forall P bs.
Proof.
  revert g bs g'. induction l as [|a l IH]; intros g bs g' Hf; simpl.
  - intros [<- _]%ret_Ok. constructor.
  - intros (b & g1 & Hb & (bs' & g2 & Hl & [<- _]%ret_Ok)%bind_Ok)%bind_Ok.
    constructor.
    + eapply Hf; [left | exact Hb].
    + eapply IH; [| exact Hl]. intros; eapply Hf; [right |]; eauto.
Qed.

(** A loop whose body never raises never raises. *)
Lemma mapM_total {A B} (f : A -> M B) l g :
  (forall a g1, a ∈ l -> exists b g2, f a g1 = Ok (b, g2)) ->
  exists bs g', mapM f l g = Ok (bs, g').
Proof.
  revert g. induction l as [|a l IH]; intros g Hf; simpl.
  - unfold ret; eauto.
  - destruct (Hf a g) as (b & g1 & Hb); [left |].
    destruct (IH g1) as (bs & g2 & Hl); [intros; apply Hf; right; done |].
    exists (b :: bs), g2. unfold bind. rewrite Hb, Hl. done.
Qed.

Lemma repeatM_length {A} (m : M A) n g xs g' :
  repeatM n m g = Ok (xs, g') -> length xs = n.
Proof.
  revert g xs g'. induction n as [|n IH]; intros g xs g'; simpl.
  - intros [<- _]%ret_Ok. done.
  - intros (b & g1 & _ & (bs' & g2 & Hl & [<- _]%ret_Ok)%bind_Ok)%bind_Ok.
    simpl. f_equal. eauto.
Qed.

Lemma repeatM_total {A} (m : M A) n g :
  (forall g1, exists a g2, m g1 = Ok (a, g2)) ->
  exists xs g', repeatM n m g = Ok (xs, g').
Proof.
  intros Hm. revert g. induction n as [|n IH]; intros g; simpl.
  - unfold ret; eauto.
  - destruct (Hm g) as (a & g1 & Ha). destruct (IH g1) as (xs & g2 & Hx).
    exists (a :: xs), g2. unfold bind. rewrite Ha, Hx. done.
Qed.

(** ** The generator *)

Lemma random_random_total g :
  exists u g', random_random g = Ok (u, g') /\ (0 <= u < 1)%R.
Proof.
  unfold random_random, next_raw. eexists _, _. split; [reflexivity |].
  assert (H : 0 <= tape g (cursor g) mod two53 < two53)
    by (apply Z.mod_pos_bound; reflexivity).
  assert (H53 : (0 < IZR two53)%R) by (apply IZR_lt; reflexivity).
  destruct H as [H0 H1]. apply IZR_le in H0. apply IZR_lt in H1. split.
  - apply Rmult_le_pos; [done | left; apply Rinv_0_lt_compat; done].
  - apply Rmult_lt_reg_r with (IZR two53); [done |].
    unfold Rdiv. rewrite Rmult_assoc, Rinv_l by lra. lra.
Qed.

Lemma random_random_range g u g' :
  random_random g = Ok (u, g') -> (0 <= u < 1)%R.
Proof.
  destruct (random_random_total g) as (u0 & g0 & -> & H). intros [= <- _]. done.
Qed.

Lemma random_uniform_total a b g :
  exists x g', random_uniform a b g = Ok (x, g').
Proof.
  unfold random_uniform, bind.
  destruct (random_random_total g) as (u & g' & -> & _). unfold ret; eauto.
Qed.

Lemma random_randint_Ok a b g k g' :
  random_randint a b g = Ok (k, g') ->
  a <= k <= b /\ k = a + tape g (cursor g) mod (b - a + 1)
  /\ g' = mk_rng (tape g) (S (cursor g)).
Proof.
  unfold random_randint, next_raw. destruct (b <? a) eqn:E; [discriminate |].
  intros [= <- <-]. apply Z.ltb_ge in E.
  pose proof (Z.mod_pos_bound (tape g (cursor g)) (b - a + 1)).
  repeat split; lia.
Qed.

Lemma random_randint_total a b g :
  a <= b -> exists k g', random_randint a b g = Ok (k, g').
Proof.
  intros H. unfold random_randint, next_raw.
  destruct (b <? a) eqn:E; [apply Z.ltb_lt in E; lia | eauto].
Qed.

(** Every integer of the range is drawn by some generator state. *)
Lemma random_randint_attains a b k :
  a <= k <= b ->
  random_randint a b (mk_rng (fun _ => k - a) O)
  = Ok (k, mk_rng (fun _ => k - a) 1%nat).
Proof.
  intros H. unfold random_randint, next_raw. simpl.
  destruct (b <? a) eqn:E; [apply Z.ltb_lt in E; lia |].
  rewrite Z.mod_small by lia. do 2 f_equal. lia.
Qed.

(** ** Genetic operators *)

Lemma py_len_nonneg {A} (l : list A) : 0 <= py_len l.
Proof. unfold py_len. lia. Qed.

Lemma slice_to_nonneg {A} (l : list A) k :
  0 <= k -> slice_to l k = take (Z.to_nat k) l.
Proof.
  intros H. unfold slice_to. destruct (k <? 0) eqn:E; [| done].
  apply Z.ltb_lt in E. lia.
Qed.

Lemma slice_from_nonneg {A} (l : list A) k :
  0 <= k -> slice_from l k = drop (Z.to_nat k) l.
Proof.
  intros H. unfold slice_from. destruct (k <? 0) eqn:E; [| done].
  apply Z.ltb_lt in E. lia.
Qed.

Lemma random_gene_total c g : exists v g', DNA.random_gene c g = Ok (v, g').
Proof.
  unfold DNA.random_gene, bind.
  destruct (random_uniform_total 0 (2 * PI) g) as (x & g1 & ->).
  destruct (random_uniform_total (Config.GENE_MIN_MAGNITUDE c)
              (Config.GENE_MAX_MAGNITUDE c) g1) as (y & g2 & ->).
  unfold ret; eauto.
Qed.

Lemma DNA_random_Ok c n g d g' :
  DNA.random c n g = Ok (d, g') -> length (DNA.genes d) = Z.to_nat n.
Proof.
  unfold DNA.random.
  intros (gs & g1 & Hr & [<- _]%ret_Ok)%bind_Ok. simpl.
  eapply repeatM_length; eauto.
Qed.

Lemma DNA_random_total c n g : exists d g', DNA.random c n g = Ok (d, g').
Proof.
  unfold DNA.random, bind.
  destruct (repeatM_total (DNA.random_gene c) (Z.to_nat n) g) as (gs & g' & ->);
    [apply random_gene_total | unfold ret; eauto].
Qed.

(** The child of a crossover is the prefix of the first parent up to the
    drawn point followed by the suffix of the second parent from it. *)
Lemma crossover_Ok a b g child g' :
  DNA.crossover a b g = Ok (child, g') ->
  exists k,
    random_randint 0 (py_len (DNA.genes a) - 1) g = Ok (k, g')
    /\ 0 <= k <= py_len (DNA.genes a) - 1
    /\ child = DNA.mk (take (Z.to_nat k) (DNA.genes a)
                       ++ drop (Z.to_nat k) (DNA.genes b)).
Proof.
  unfold DNA.crossover.
  intros (k & g1 & Hk & [<- <-]%ret_Ok)%bind_Ok.
  exists k. destruct (random_randint_Ok _ _ _ _ _ Hk) as (Hr & _).
  split; [done |]. split; [lia |].
  rewrite slice_to_nonneg, slice_from_nonneg by lia. done.
Qed.

Lemma crossover_draw a b g k g' :
  random_randint 0 (py_len (DNA.genes a) - 1) g = Ok (k, g') ->
  DNA.crossover a b g
  = Ok (DNA.mk (take (Z.to_nat k) (DNA.genes a)
                ++ drop (Z.to_nat k) (DNA.genes b)), g').
Proof.
  intros Hk. unfold DNA.crossover, bind. rewrite Hk. unfold ret.
  destruct (random_randint_Ok _ _ _ _ _ Hk) as (Hr & _).
  rewrite slice_to_nonneg, slice_from_nonneg by lia. done.
Qed.

Lemma crossover_total a b g :
  (1 <= length (DNA.genes a))%nat ->
  exists child g', DNA.crossover a b g = Ok (child, g').
Proof.
  intros H.
  destruct (random_randint_total 0 (py_len (DNA.genes a) - 1) g) as (k & g' & Hk).
  { unfold py_len. lia. }
  eexists _, _. apply crossover_draw. exact Hk.
Qed.

Lemma split_length {A} (a b : list A) (k : nat) :
  length a = length b -> (k <= length a)%nat ->
  length (take k a ++ drop k b) = length a.
Proof.
  intros Hab Hk. rewrite length_app, length_take, length_drop. lia.
Qed.

Lemma crossover_length a b g child g' :
  length (DNA.genes a) = length (DNA.genes b) ->
  DNA.crossover a b g = Ok (child, g') ->
  length (DNA.genes child) = length (DNA.genes a).
Proof.
  intros Hab (k & _ & Hk & ->)%crossover_Ok. simpl.
  apply split_length; [done |]. unfold py_len in Hk. lia.
Qed.

Lemma mutate_gene_total c rate v g :
  exists v' g', DNA.mutate_gene c rate v g = Ok (v', g').
Proof.
  unfold DNA.mutate_gene, bind.
  destruct (random_random_total g) as (u & g1 & -> & _).
  destruct (Rltb u rate); [apply random_gene_total | unfold ret; eauto].
Qed.

Lemma mutate_length c a rate g m g' :
  DNA.mutate c a rate g = Ok (m, g') ->
  length (DNA.genes m) = length (DNA.genes a).
Proof.
  unfold DNA.mutate.
  intros (gs & g1 & Hr & [<- _]%ret_Ok)%bind_Ok. simpl.
  eapply mapM_length; eauto.
Qed.

Lemma mutate_total c a rate g : exists m g', DNA.mutate c a rate g = Ok (m, g').
Proof.
  unfold DNA.mutate, bind.
  destruct (mapM_total (DNA.mutate_gene c rate) (DNA.genes a) g) as (gs & g' & ->);
    [intros; apply mutate_gene_total | unfold ret; eauto].
Qed.

(** With a rate of zero (or less) no gene is redrawn. *)
Lemma mutate_gene_rate0 c rate v g v' g' :
  (rate <= 0)%R ->
  DNA.mutate_gene c rate v g = Ok (v', g') -> v' = v.
Proof.
  intros Hr. unfold DNA.mutate_gene.
  intros (u & g1 & Hu & H)%bind_Ok.
  apply random_random_range in Hu.
  assert (E : Rltb u rate = false) by (apply Rltb_false; lra).
  rewrite E in H. apply ret_Ok in H as [-> _]. done.
Qed.

(** *** Claim C7 *)

(** C7. For parents [a] and [b] of equal length and a split index [k] in
    [0, length - 1]: whenever [random.randint(0, length - 1)] draws [k],
    [crossover] returns the child [a[:k] ++ b[k:]]; some state of the
    generator draws [k]; the child's first [k] genes are those of [a] and
    its genes from position [k] on are those of [b]; and every child that
    [crossover] returns arises in this way from an index that [randint]
    drew in the range. *)
Theorem crossover_boundary (a b : DNA.t) (k : Z) :
  length (DNA.genes a) = length (DNA.genes b) ->
  0 <= k <= py_len (DNA.genes a) - 1 ->
  let n := Z.to_nat k in
  let child := DNA.mk (take n (DNA.genes a) ++ drop n (DNA.genes b)) in
  (forall g g',
      random_randint 0 (py_len (DNA.genes a) - 1) g = Ok (k, g') ->
      DNA.crossover a b g = Ok (child, g'))
  /\ (exists g g', random_randint 0 (py_len (DNA.genes a) - 1) g = Ok (k, g')
                   /\ DNA.crossover a b g = Ok (child, g'))
  /\ take n (DNA.genes child) = take n (DNA.genes a)
  /\ drop n (DNA.genes child) = drop n (DNA.genes b)
  /\ (forall i, (i < n)%nat -> DNA.genes child !! i = DNA.genes a !! i)
  /\ (forall i, (n <= i)%nat -> DNA.genes child !! i = DNA.genes b !! i)
  /\ length (DNA.genes child) = length (DNA.genes a)
  /\ (forall g c g',
         DNA.crossover a b g = Ok (c, g') ->
         exists k0,
           0 <= k0 <= py_len (DNA.genes a) - 1
           /\ random_randint 0 (py_len (DNA.genes a) - 1) g = Ok (k0, g')
           /\ c = DNA.mk (take (Z.to_nat k0) (DNA.genes a)
                          ++ drop (Z.to_nat k0) (DNA.genes b))).
Proof.
  intros Hab Hk n child.
  assert (Hn : (n < length (DNA.genes a))%nat) by (unfold py_len in Hk; lia).
  assert (Hlen : length (take n (DNA.genes a)) = n)
    by (rewrite length_take; lia).
  repeat split.
  - intros g g' Hd. apply crossover_draw. exact Hd.
  - eexists _, _. split.
    + apply random_randint_attains. exact Hk.
    + apply crossover_draw. apply random_randint_attains. exact Hk.
  - simpl. rewrite take_app_le by lia. rewrite take_take. f_equal. lia.
  - simpl. rewrite drop_app_ge by lia. rewrite Hlen, Nat.sub_diag. done.
  - intros i Hi. simpl. rewrite lookup_app_l by lia.
    apply lookup_take_lt. done.
  - intros i Hi. simpl. rewrite lookup_app_r by lia.
    rewrite Hlen, lookup_drop. f_equal. lia.
  - simpl. apply split_length; [done | lia].
  - intros g c g' (k0 & Hd & Hr & ->)%crossover_Ok. exists k0. done.
Qed.

(** The split index 1 on [parent_a] and [parent_b]. *)
Lemma crossover_boundary_witness :
  length (DNA.genes parent_a) = length (DNA.genes parent_b)
  /\ 0 <= 1 <= py_len (DNA.genes parent_a) - 1
  /\ exists g g',
       DNA.crossover parent_a parent_b g = Ok (DNA.mk [(1, 0); (4, 0)]%R, g').
Proof.
  assert (H1 : length (DNA.genes parent_a) = length (DNA.genes parent_b))
    by reflexivity.
  assert (H2 : 0 <= 1 <= py_len (DNA.genes parent_a) - 1)
    by (unfold py_len; simpl; lia).
  split; [exact H1 |]. split; [exact H2 |].
  destruct (crossover_boundary parent_a parent_b 1 H1 H2)
    as (_ & (g & g' & _ & H) & _).
  exists g, g'. exact H.
Defined.

(** ** Selection *)

Lemma fold_plus_acc (l : list R) (a : R) :
  fold_left Rplus l a = (a + py_sum l)%R.
Proof.
  unfold py_sum. revert a. induction l as [|x l IH]; intros a; simpl.
  - lra.
  - rewrite (IH (a + x)%R), (IH (0 + x)%R). lra.
Qed.

Lemma py_sum_cons (x : R) (l : list R) : py_sum (x :: l) = (x + py_sum l)%R.
Proof. unfold py_sum at 1. simpl. rewrite fold_plus_acc. lra. Qed.

Lemma py_sum_nil : py_sum [] = 0%R.
Proof. reflexivity. Qed.

Lemma py_sum_nonneg (l : list R) :
  Forall (fun x => (0 <= x)%R) l -> (0 <= py_sum l)%R.
Proof.
  induction 1 as [|x l Hx _ IH]; [rewrite py_sum_nil; lra |].
  rewrite py_sum_cons. lra.
Qed.

Lemma py_sum_ge_member (l : list R) (x : R) :
  Forall (fun y => (0 <= y)%R) l -> x ∈ l -> (x <= py_sum l)%R.
Proof.
  induction 1 as [|y l Hy Hl IH]; intros Hin.
  - inversion Hin.
  - rewrite py_sum_cons. apply elem_of_cons in Hin as [-> | Hin].
    + pose proof (py_sum_nonneg l Hl). lra.
    + specialize (IH Hin). lra.
Qed.

Lemma py_min_spec (x : R) (xs : list R) :
  py_min x xs ∈ x :: xs /\ Forall (fun y => (py_min x xs <= y)%R) (x :: xs).
Proof.
  unfold py_min. revert x. induction xs as [|y xs IH]; intros x; simpl.
  - split; [left | constructor; [lra | constructor]].
  - destruct (IH (if Rltb y x then y else x)) as [Hin Hall].
    set (m := fold_left _ xs _) in *.
    apply Forall_cons in Hall as [Hm Hall]. split.
    + apply elem_of_cons in Hin as [-> | Hin].
      * destruct (Rltb y x); [right; left | left].
      * right; right; done.
    + destruct (Rltb y x) eqn:E.
      * apply Rltb_true in E.
        constructor; [lra | constructor; [lra | done]].
      * apply Rltb_false in E.
        constructor; [lra | constructor; [lra | done]].
Qed.

Lemma py_max_spec (x : R) (xs : list R) :
  py_max x xs ∈ x :: xs /\ Forall (fun y => (y <= py_max x xs)%R) (x :: xs).
Proof.
  unfold py_max. revert x. induction xs as [|y xs IH]; intros x; simpl.
  - split; [left | constructor; [lra | constructor]].
  - destruct (IH (if Rltb x y then y else x)) as [Hin Hall].
    set (m := fold_left _ xs _) in *.
    apply Forall_cons in Hall as [Hm Hall]. split.
    + apply elem_of_cons in Hin as [-> | Hin].
      * destruct (Rltb x y); [right; left | left].
      * right; right; done.
    + destruct (Rltb x y) eqn:E.
      * apply Rltb_true in E.
        constructor; [lra | constructor; [lra | done]].
      * apply Rltb_false in E.
        constructor; [lra | constructor; [lra | done]].
Qed.

Lemma normalized_length rockets :
  length (Population._get_normalized_fitnesses rockets) = length rockets.
Proof.
  unfold Population._get_normalized_fitnesses.
  destruct (Rltb _ _); [rewrite !length_map | rewrite length_replicate, length_map];
    done.
Qed.

(** Every normalized fitness lies in [0, 1] and, for a non-empty list, one
    of them is 1. *)
Lemma normalized_range rockets :
  Forall (fun x => (0 <= x <= 1)%R) (Population._get_normalized_fitnesses rockets).
Proof.
  unfold Population._get_normalized_fitnesses.
  destruct (map Rocket.fitness rockets) as [|x xs] eqn:E.
  - assert (Rltb 0 1 = true) as -> by (apply Rltb_true; lra). constructor.
  - destruct (py_min_spec x xs) as [_ Hmin]. destruct (py_max_spec x xs) as [_ Hmax].
    destruct (Rltb (py_min x xs) (py_max x xs)) eqn:L.
    + apply Rltb_true in L. apply Forall_map.
      rewrite Forall_forall in Hmin, Hmax. apply Forall_forall. intros f Hf.
      specialize (Hmin f Hf). specialize (Hmax f Hf). simpl. split.
      * apply Rmult_le_pos; [lra | left; apply Rinv_0_lt_compat; lra].
      * apply Rmult_le_reg_r with (py_max x xs - py_min x xs)%R; [lra |].
        unfold Rdiv. rewrite Rmult_assoc, Rinv_l by lra. lra.
    + apply Forall_replicate. lra.
Qed.

Lemma normalized_has_one rockets :
  rockets <> [] -> 1%R ∈ Population._get_normalized_fitnesses rockets.
Proof.
  intros Hne. unfold Population._get_normalized_fitnesses.
  destruct (map Rocket.fitness rockets) as [|x xs] eqn:E.
  - destruct rockets; [done | discriminate].
  - destruct (py_max_spec x xs) as [Hin _].
    destruct (Rltb (py_min x xs) (py_max x xs)) eqn:L.
    + apply Rltb_true in L. apply list_elem_of_fmap.
      exists (py_max x xs). split; [| done].
      unfold Rdiv. rewrite Rinv_r by lra. done.
    + simpl. left.
Qed.

Lemma normalized_sum_ge_1 rockets :
  rockets <> [] -> (1 <= py_sum (Population._get_normalized_fitnesses rockets))%R.
Proof.
  intros Hne. apply py_sum_ge_member; [| apply normalized_has_one; done].
  eapply Forall_impl; [apply normalized_range |]. simpl. intros; lra.
Qed.

Lemma spin_spec nf pick cur i0 :
  match Population.spin nf pick cur i0 with
  | Some i =>
      exists j : nat,
        i = i0 + Z.of_nat j /\ (j < length nf)%nat
        /\ (pick <= cur + py_sum (take (S j) nf))%R
        /\ forall j' : nat, (j' < j)%nat -> (cur + py_sum (take (S j') nf) < pick)%R
  | None =>
      forall j : nat, (j < length nf)%nat -> (cur + py_sum (take (S j) nf) < pick)%R
  end.
Proof.
  revert cur i0. induction nf as [|x nf IH]; intros cur i0; simpl.
  - intros j Hj. lia.
  - destruct (Rleb pick (cur + x)) eqn:E.
    + apply Rleb_true in E. exists O. repeat split.
      * lia.
      * lia.
      * rewrite take_0, py_sum_cons, py_sum_nil. lra.
      * intros j' Hj'. lia.
    + apply Rleb_false in E. specialize (IH (cur + x)%R (i0 + 1)).
      destruct (Population.spin nf pick (cur + x) (i0 + 1)) as [i|].
      * destruct IH as (j & -> & Hj & Hge & Hlt). exists (S j). repeat split.
        -- lia.
        -- lia.
        -- rewrite py_sum_cons. lra.
        -- intros [|j'] Hj'.
           ++ rewrite take_0, py_sum_cons, py_sum_nil. lra.
           ++ rewrite py_sum_cons. assert (Hj'' : (j' < j)%nat) by lia.
              specialize (Hlt j' Hj''). lra.
      * intros [|j] Hj.
        -- rewrite take_0, py_sum_cons, py_sum_nil. lra.
        -- rewrite py_sum_cons. assert (Hj' : (j < length nf)%nat) by lia.
           specialize (IH j Hj'). lra.
Qed.

(** The loop of the wheel returns the first index whose running sum
    reaches the pick, and falls through when there is none. *)
Lemma spin_first nf pick :
  match Population.spin nf pick 0%R 0 with
  | Some i => first_reaching nf pick i
  | None => none_reaching nf pick
  end.
Proof.
  pose proof (spin_spec nf pick 0%R 0) as H.
  destruct (Population.spin nf pick 0%R 0) as [i|].
  - destruct H as (j & -> & Hj & Hge & Hlt). unfold first_reaching, prefix_sum, py_len.
    repeat split.
    + lia.
    + lia.
    + replace (Z.to_nat (0 + Z.of_nat j + 1)) with (S j) by lia. lra.
    + intros j' Hj'. replace (Z.to_nat (j' + 1)) with (S (Z.to_nat j')) by lia.
      assert (Hlt' : (Z.to_nat j' < j)%nat) by lia.
      specialize (Hlt _ Hlt'). lra.
  - intros j Hj. unfold prefix_sum, py_len in *.
    replace (Z.to_nat (j + 1)) with (S (Z.to_nat j)) by lia.
    assert (Hj' : (Z.to_nat j < length nf)%nat) by lia.
    specialize (H _ Hj'). lra.
Qed.

(** The body of the selection on an arbitrary list of normalized
    fitnesses: also on one whose sum is zero. *)
Lemma select_from_spec (n : Z) (nf : list R) (g : rng) :
  1 <= n ->
  (py_sum nf = 0%R ->
   exists k g',
     random_randint 0 (n - 1) g = Ok (k, g') /\ 0 <= k <= n - 1
     /\ Population.select_from n nf g = Ok (Some k, g'))
  /\ (py_sum nf <> 0%R ->
      exists u g',
        random_random g = Ok (u, g') /\ (0 <= u < 1)%R
        /\ let pick := (0 + (py_sum nf - 0) * u)%R in
           exists i,
             Population.select_from n nf g = Ok (Some i, g')
             /\ (first_reaching nf pick i
                 \/ (none_reaching nf pick /\ i = n - 1))).
Proof.
  intros Hn. unfold Population.select_from. split.
  - intros HS. assert (Reqb (py_sum nf) 0 = true) as -> by (apply Reqb_true; done).
    destruct (random_randint_total 0 (n - 1) g) as (k & g' & Hk); [lia |].
    exists k, g'. destruct (random_randint_Ok _ _ _ _ _ Hk) as (Hr & _).
    repeat split; try lia; try done. unfold bind. rewrite Hk. done.
  - intros HS. assert (Reqb (py_sum nf) 0 = false) as -> by (apply Reqb_false; done).
    destruct (random_random_total g) as (u & g' & Hu & Hrange).
    exists u, g'. split; [done |]. split; [done |].
    unfold random_uniform, bind. rewrite Hu. unfold ret. simpl.
    set (pick := (0 + (py_sum nf - 0) * u)%R).
    pose proof (spin_first nf pick) as Hspin.
    destruct (Population.spin nf pick 0%R 0) as [i|].
    + exists i. split; [done | left; done].
    + exists (n - 1). split; [done | right; done].
Qed.

(** *** Claim C4 *)

Lemma extremes_unique (x : R) (xs : list R) (lo hi : R) :
  lo ∈ x :: xs -> hi ∈ x :: xs ->
  (forall f, f ∈ x :: xs -> (lo <= f <= hi)%R) ->
  py_min x xs = lo /\ py_max x xs = hi.
Proof.
  intros Hlo Hhi Hall.
  destruct (py_min_spec x xs) as [Hmin_in Hmin].
  destruct (py_max_spec x xs) as [Hmax_in Hmax].
  rewrite Forall_forall in Hmin, Hmax.
  pose proof (Hall _ Hmin_in) as A1. pose proof (Hall _ Hmax_in) as A2.
  pose proof (Hmin _ Hlo) as A3. pose proof (Hmax _ Hhi) as A4.
  simpl in A3, A4. split; lra.
Qed.

(** The weights of the wheel are the min-max scaled fitnesses. *)
Lemma normalized_minmax rockets :
  minmax_normalized (map Rocket.fitness rockets)
                    (Population._get_normalized_fitnesses rockets).
Proof.
  split; [rewrite normalized_length, length_map; reflexivity |].
  intros lo hi Hlo Hhi Hall i f Hi.
  unfold Population._get_normalized_fitnesses.
  destruct (map Rocket.fitness rockets) as [|x xs] eqn:E; [inversion Hlo |].
  destruct (extremes_unique x xs lo hi Hlo Hhi Hall) as [-> ->].
  destruct (Rltb lo hi).
  - rewrite list_lookup_fmap, Hi. reflexivity.
  - apply lookup_replicate. split; [reflexivity |].
    apply lookup_lt_Some in Hi. exact Hi.
Qed.

Lemma select_from_attains (m : Z) (ws : list R) (k : Z) :
  py_sum ws = 0%R -> 0 <= k <= m - 1 ->
  exists g1 g1', Population.select_from m ws g1 = Ok (Some k, g1').
Proof.
  intros HS Hk. unfold Population.select_from.
  assert (Reqb (py_sum ws) 0 = true) as -> by (apply Reqb_true; exact HS).
  exists (mk_rng (fun _ => k - 0) O), (mk_rng (fun _ => k - 0) 1%nat).
  unfold bind. rewrite (random_randint_attains 0 (m - 1) k Hk). reflexivity.
Qed.

(** C4. [roulette_wheel_select] on every list of rockets: an empty list
    gives [None]; when the sum S of the normalized fitnesses is zero the
    result is the index that [random.randint(0, len - 1)] draws; otherwise,
    with [pick = random.uniform(0, S)] (which lies in [0, S]), the result is
    the first index whose running sum of normalized fitnesses is at least
    [pick], and the last index when no running sum reaches [pick].  The
    normalized fitnesses are the min-max scaled fitnesses of the rockets:
    [(f - lo) / (hi - lo)] for the least fitness [lo] and the greatest
    [hi], and 1 for every rocket when all fitnesses are equal.  The
    selection on a non-empty list is the body [select_from] run on these
    weights; for every list of weights that body takes the zero-sum branch
    exactly as stated, where every index of the range is the result for
    some state of the generator, and the wheel branch with its fallback
    exactly as stated. *)
Theorem roulette_wheel_select_spec (rockets : list Rocket.t) (g : rng) :
  let nf := Population._get_normalized_fitnesses rockets in
  let S := py_sum nf in
  let n := py_len rockets in
  (rockets = [] -> Population.roulette_wheel_select rockets g = Ok (None, g))
  /\ (rockets <> [] -> S = 0%R ->
      exists k g',
        random_randint 0 (n - 1) g = Ok (k, g') /\ 0 <= k <= n - 1
        /\ Population.roulette_wheel_select rockets g = Ok (Some k, g'))
  /\ (rockets <> [] -> S <> 0%R ->
      exists pick g',
        random_uniform 0 S g = Ok (pick, g') /\ (0 <= pick <= S)%R
        /\ exists i,
             Population.roulette_wheel_select rockets g = Ok (Some i, g')
             /\ 0 <= i <= n - 1
             /\ (first_reaching nf pick i
                 \/ (none_reaching nf pick /\ i = n - 1)))
  /\ minmax_normalized (map Rocket.fitness rockets) nf
  /\ (rockets <> [] ->
      Population.roulette_wheel_select rockets g = Population.select_from n nf g)
  /\ (forall (m : Z) (ws : list R) (g0 : rng),
         1 <= m ->
         (py_sum ws = 0%R ->
          (exists k g',
              random_randint 0 (m - 1) g0 = Ok (k, g') /\ 0 <= k <= m - 1
              /\ Population.select_from m ws g0 = Ok (Some k, g'))
          /\ (forall k, 0 <= k <= m - 1 ->
                exists g1 g1', Population.select_from m ws g1 = Ok (Some k, g1')))
         /\ (py_sum ws <> 0%R ->
             exists u g',
               random_random g0 = Ok (u, g') /\ (0 <= u < 1)%R
               /\ random_uniform 0 (py_sum ws) g0
                  = Ok ((0 + (py_sum ws - 0) * u)%R, g')
               /\ exists i,
                    Population.select_from m ws g0 = Ok (Some i, g')
                    /\ (first_reaching ws (0 + (py_sum ws - 0) * u) i
                        \/ (none_reaching ws (0 + (py_sum ws - 0) * u)
                            /\ i = m - 1)))).
Proof.
  intros nf S n. split; [intros ->; done |].
  assert (Hsel : rockets <> [] ->
                 Population.roulette_wheel_select rockets g
                 = Population.select_from n nf g).
  { destruct rockets; [done | reflexivity]. }
  assert (Hn : rockets <> [] -> 1 <= n).
  { destruct rockets; [done |]. intros _. unfold n, py_len. simpl. lia. }
  split; [| split; [| split; [| split]]].
  - intros Hne HS. rewrite (Hsel Hne).
    destruct (select_from_spec n nf g (Hn Hne)) as [H0 _]. apply H0. exact HS.
  - intros Hne HS. rewrite (Hsel Hne).
    destruct (select_from_spec n nf g (Hn Hne)) as [_ H1].
    destruct (H1 HS) as (u & g' & Hu & Hrange & i & Hi & Hfirst).
    exists (0 + (S - 0) * u)%R, g'.
    pose proof (normalized_sum_ge_1 rockets Hne) as HS1. fold nf S in HS1.
    split; [unfold random_uniform, bind; rewrite Hu; done |].
    split; [nra |].
    exists i. split; [exact Hi |]. split; [| exact Hfirst].
    assert (Hlen : py_len nf = n).
    { unfold py_len, nf. rewrite normalized_length. done. }
    destruct Hfirst as [(Hr & _) | (_ & ->)]; [lia |]. specialize (Hn Hne). lia.
  - apply normalized_minmax.
  - exact Hsel.
  - intros m ws g0 Hm. destruct (select_from_spec m ws g0 Hm) as [H0 H1]. split.
    + intros HS. split; [apply H0, HS | intros k Hk].
      apply select_from_attains; [exact HS | exact Hk].
    + intros HS. destruct (H1 HS) as (u & g' & Hu & Hrange & i & Hi & Hfirst).
      exists u, g'. split; [exact Hu |]. split; [exact Hrange |].
      split; [unfold random_uniform, bind; rewrite Hu; reflexivity |].
      exists i. split; [exact Hi | exact Hfirst].
Qed.

(** The wheel on two weights of sum zero, where the index is the one
    [randint] draws, and on a single negative weight, where no running sum
    reaches the draw and the last index is the result. *)
Lemma roulette_wheel_select_spec_witness :
  (exists k g',
      Population.select_from 2 [0; 0]%R rng0 = Ok (Some k, g') /\ 0 <= k <= 1)
  /\ (exists u g',
         random_random rng0 = Ok (u, g')
         /\ Population.select_from 1 [(-1)%R] rng0 = Ok (Some 0, g')
         /\ none_reaching [(-1)%R] (0 + (py_sum [(-1)%R] - 0) * u)).
Proof.
  destruct (roulette_wheel_select_spec [] rng0) as (_ & _ & _ & _ & _ & Hbody).
  assert (S0 : py_sum [0; 0]%R = 0%R) by (rewrite !py_sum_cons, py_sum_nil; lra).
  assert (S1 : py_sum [(-1)%R] = (-1)%R) by (rewrite py_sum_cons, py_sum_nil; lra).
  assert (H2 : 1 <= 2) by lia. assert (H1 : 1 <= 1) by lia.
  split.
  - destruct (Hbody 2 [0; 0]%R rng0 H2) as [H0 _].
    destruct (H0 S0) as ((k & g' & _ & Hk & Hsel) & _).
    exists k, g'. split; [exact Hsel | lia].
  - destruct (Hbody 1 [(-1)%R] rng0 H1) as [_ Hw].
    destruct Hw as (u & g' & Hu & Hrange & _ & i & Hsel & Hcase);
      [rewrite S1; lra |].
    exists u, g'. split; [exact Hu |].
    destruct Hcase as [(Hi & Hreach & _) | (Hnone & ->)].
    + exfalso. unfold py_len in Hi. simpl in Hi.
      assert (i = 0) as -> by lia.
      unfold prefix_sum in Hreach. simpl in Hreach.
      rewrite S1 in Hreach. lra.
    + split; [exact Hsel | exact Hnone].
Defined.

(** *** Claim C9 *)

(** C9. For a non-empty list of rockets the normalized fitnesses contain
    1, so their sum is at least 1, the test [fitness_sum == 0] of
    [roulette_wheel_select] is false, and the selection is the one of the
    wheel: the uniform fallback is never taken. *)
Theorem normalized_sum_positive (rockets : list Rocket.t) :
  rockets <> [] ->
  let nf := Population._get_normalized_fitnesses rockets in
  1%R ∈ nf
  /\ (1 <= py_sum nf)%R
  /\ Reqb (py_sum nf) 0 = false
  /\ forall g,
       Population.roulette_wheel_select rockets g
       = (pick <- random_uniform 0 (py_sum nf) ;;
          ret (Some (default (py_len rockets - 1)
                             (Population.spin nf pick 0%R 0)))) g.
Proof.
  intros Hne nf.
  pose proof (normalized_sum_ge_1 rockets Hne) as HS. fold nf in HS.
  assert (E : Reqb (py_sum nf) 0 = false) by (apply Reqb_false; lra).
  split; [apply normalized_has_one; done |]. split; [done |]. split; [done |].
  intros g. destruct rockets as [|r rs]; [done |].
  unfold Population.roulette_wheel_select, Population.select_from.
  fold nf. rewrite E. reflexivity.
Qed.

(** ** Rockets *)

Lemma py_index_Ok {A} (l : list A) (i : Z) :
  0 <= i < py_len l -> exists a, py_index l i = Ok a /\ a ∈ l.
Proof.
  intros Hi. unfold py_index.
  assert ((0 <=? i) && (i <? py_len l) = true) as ->.
  { apply andb_true_iff. split; [apply Z.leb_le | apply Z.ltb_lt]; lia. }
  destruct (l !! Z.to_nat i) as [a|] eqn:E.
  - exists a. split; [done |]. eapply list_elem_of_lookup_2; eauto.
  - apply lookup_ge_None in E. unfold py_len in Hi. lia.
Qed.

(** What one call of [update] does to the fields the claims are about. *)
Lemma update_fields r r' :
  Rocket.update r = Ok r' ->
  Rocket.config r' = Rocket.config r
  /\ Rocket.dna r' = Rocket.dna r
  /\ Rocket.dna_length r' = Rocket.dna_length r
  /\ Rocket.is_active r' = Rocket.is_active r
  /\ Rocket.has_reached_target r' = Rocket.has_reached_target r
  /\ Rocket.target_reached_step r' = Rocket.target_reached_step r
  /\ Rocket.fitness r' = Rocket.fitness r
  /\ Rocket.current_step r'
     = if Rocket.is_active r && (Rocket.current_step r <? Rocket.dna_length r)
       then Rocket.current_step r + 1 else Rocket.current_step r.
Proof.
  unfold Rocket.update. destruct (Rocket.is_active r) eqn:Ea; simpl.
  - unfold Rocket._apply_thrust.
    destruct (Rocket.current_step r <? Rocket.dna_length r) eqn:Ec.
    + destruct (py_index (Rocket.dna r) (Rocket.current_step r)); [| discriminate].
      intros [= <-]. simpl. repeat split; done.
    + intros [= <-]. simpl. repeat split; done.
  - intros [= <-]. repeat split; done.
Qed.

Lemma update_total r :
  (Rocket.current_step r < Rocket.dna_length r ->
   0 <= Rocket.current_step r < py_len (Rocket.dna r)) ->
  exists r', Rocket.update r = Ok r'.
Proof.
  intros H. unfold Rocket.update. destruct (negb (Rocket.is_active r)); [eauto |].
  unfold Rocket._apply_thrust.
  destruct (Rocket.current_step r <? Rocket.dna_length r) eqn:Ec; [| eauto].
  apply Z.ltb_lt in Ec.
  destruct (py_index_Ok (Rocket.dna r) (Rocket.current_step r) (H Ec))
    as (a & -> & _). eauto.
Qed.

Lemma updates_fields n r r' :
  Rocket.current_step r <= Rocket.dna_length r ->
  updates n r = Ok r' ->
  Rocket.dna r' = Rocket.dna r
  /\ Rocket.dna_length r' = Rocket.dna_length r
  /\ Rocket.is_active r' = Rocket.is_active r
  /\ Rocket.current_step r'
     = if Rocket.is_active r
       then Z.min (Rocket.current_step r + Z.of_nat n) (Rocket.dna_length r)
       else Rocket.current_step r.
Proof.
  revert r. induction n as [|n IH]; intros r Hle; simpl.
  - intros [= <-]. repeat split; try done. destruct (Rocket.is_active r); lia.
  - destruct (Rocket.update r) as [r1|] eqn:Hu; [| discriminate].
    intros Hn. apply update_fields in Hu as (_ & Hd & HL & Ha & _ & _ & _ & Hc).
    assert (Hle1 : Rocket.current_step r1 <= Rocket.dna_length r1).
    { rewrite Hc, HL. destruct (Rocket.is_active r); simpl; [| lia].
      destruct (Rocket.current_step r <? Rocket.dna_length r) eqn:E; [| lia].
      apply Z.ltb_lt in E. lia. }
    destruct (IH r1 Hle1 Hn) as (Hd' & HL' & Ha' & Hc').
    rewrite Hd', HL', Ha', Hc', Hd, HL, Ha, Hc. repeat split; try done.
    destruct (Rocket.is_active r); simpl; [| done].
    destruct (Rocket.current_step r <? Rocket.dna_length r) eqn:E.
    + apply Z.ltb_lt in E. lia.
    + apply Z.ltb_ge in E. lia.
Qed.

Lemma updates_total n r :
  0 <= Rocket.current_step r <= Rocket.dna_length r ->
  py_len (Rocket.dna r) = Rocket.dna_length r ->
  exists r', updates n r = Ok r'.
Proof.
  revert r. induction n as [|n IH]; intros r Hc Hl; simpl; [eauto |].
  destruct (update_total r) as (r1 & Hu); [lia |]. rewrite Hu.
  apply update_fields in Hu as (_ & Hd & HL & Ha & _ & _ & _ & Hs).
  apply IH.
  - rewrite Hs, HL. destruct (Rocket.is_active r); simpl; [| lia].
    destruct (Rocket.current_step r <? Rocket.dna_length r) eqn:E; [| lia].
    apply Z.ltb_lt in E. lia.
  - rewrite Hd, HL. done.
Qed.

(** *** Claim C10 *)

(** C10. For a rocket whose step cursor is at most [dna_length] (a new
    rocket of non-negative [dna_length] has cursor 0): one [update] moves
    the cursor by one exactly when the rocket is active and the cursor is
    strictly below [dna_length], and leaves it alone otherwise; after any
    number [n] of [update] calls the cursor is at most [dna_length], for an
    active rocket it is [min (cursor + n) dna_length], so it stops exactly at
    [dna_length]; [dna_length - current_step] is never negative and is the
    [fuel_remaining] that [get_state] reports, the clamp changing nothing.
    When the genome holds [dna_length] instructions and the cursor is not
    negative the calls raise nothing. *)
Theorem cursor_bounded (r : Rocket.t) (n : nat) :
  Rocket.current_step r <= Rocket.dna_length r ->
  (forall r1,
      Rocket.update r = Ok r1 ->
      Rocket.current_step r1
      = if Rocket.is_active r && (Rocket.current_step r <? Rocket.dna_length r)
        then Rocket.current_step r + 1 else Rocket.current_step r)
  /\ (forall r',
         updates n r = Ok r' ->
         Rocket.dna_length r' = Rocket.dna_length r
         /\ Rocket.current_step r' <= Rocket.dna_length r'
         /\ Rocket.current_step r'
            = (if Rocket.is_active r
               then Z.min (Rocket.current_step r + Z.of_nat n) (Rocket.dna_length r)
               else Rocket.current_step r)
         /\ 0 <= Rocket.dna_length r' - Rocket.current_step r'
         /\ Rocket.st_fuel_remaining (Rocket.get_state r')
            = Rocket.dna_length r' - Rocket.current_step r'
         /\ Z.max 0 (Rocket.dna_length r' - Rocket.current_step r')
            = Rocket.dna_length r' - Rocket.current_step r')
  /\ (0 <= Rocket.current_step r ->
      py_len (Rocket.dna r) = Rocket.dna_length r ->
      exists r', updates n r = Ok r').
Proof.
  intros Hle. split; [| split].
  - intros r1 Hu. apply update_fields in Hu. tauto.
  - intros r' Hn. destruct (updates_fields n r r' Hle Hn) as (_ & HL & _ & Hc).
    assert (Hb : Rocket.current_step r' <= Rocket.dna_length r').
    { rewrite Hc, HL. destruct (Rocket.is_active r); lia. }
    repeat split; try done; simpl; lia.
  - intros H0 Hl. apply updates_total; [lia | done].
Qed.

(** ** Distances *)

Lemma hypot_nonneg x y : (0 <= hypot x y)%R.
Proof. unfold hypot. apply sqrt_pos. Qed.

Lemma hypot_sqr x y : (hypot x y * hypot x y = x * x + y * y)%R.
Proof. unfold hypot. apply sqrt_sqrt. nra. Qed.

Lemma hypot_axis x : hypot x 0 = Rabs x.
Proof.
  unfold hypot. replace (x * x + 0 * 0)%R with (Rsqr x) by (unfold Rsqr; lra).
  apply sqrt_Rsqr_abs.
Qed.

Lemma hypot_0 : hypot 0 0 = 0%R.
Proof. rewrite hypot_axis. apply Rabs_R0. Qed.

(** A bound on the square bounds the distance. *)
Lemma hypot_le x y d : (0 <= d)%R -> (x * x + y * y <= d * d)%R -> (hypot x y <= d)%R.
Proof.
  intros Hd H. pose proof (hypot_nonneg x y). pose proof (hypot_sqr x y). nra.
Qed.

Lemma hypot_gt x y d : (0 <= d)%R -> (d * d < x * x + y * y)%R -> (d < hypot x y)%R.
Proof.
  intros Hd H. pose proof (hypot_nonneg x y). pose proof (hypot_sqr x y). nra.
Qed.

Lemma float_eps_pos : (0 < float_eps)%R.
Proof. unfold float_eps. apply Rinv_0_lt_compat. apply pow_lt. lra. Qed.

(** ** Fitness evaluation *)

(** The three ways [evaluate_fitness] can go. *)
Lemma evaluate_fitness_cases r tp :
  let d := Vector2D.safe_distance (Rocket.pos r) tp in
  let r' := Rocket.evaluate_fitness r tp in
  (Rocket.has_reached_target r = true ->
   r' = Rocket.set_fitness (Rocket._calculate_success_fitness r) r)
  /\ (Rocket.has_reached_target r = false ->
      (d <= RocketConfig.TARGET_RADIUS (Rocket.config r))%R ->
      r' = Rocket.set_fitness
             (Rocket._calculate_success_fitness (Rocket._handle_target_reached r))
             (Rocket._handle_target_reached r))
  /\ (Rocket.has_reached_target r = false ->
      (RocketConfig.TARGET_RADIUS (Rocket.config r) < d)%R ->
      r' = Rocket.set_fitness (Rocket._calculate_distance_fitness d) r).
Proof.
  intros d r'. unfold r', Rocket.evaluate_fitness. fold d. repeat split.
  - intros Hf. rewrite Hf. simpl. rewrite andb_false_r, Hf. done.
  - intros Hf Hd. apply Rleb_true in Hd. rewrite Hd, Hf. done.
  - intros Hf Hd. apply Rleb_false in Hd. rewrite Hd, Hf. simpl. rewrite Hf. done.
Qed.

(** Fields that [evaluate_fitness] never writes. *)
Lemma evaluate_fitness_keeps r tp :
  let r' := Rocket.evaluate_fitness r tp in
  Rocket.config r' = Rocket.config r
  /\ Rocket.pos r' = Rocket.pos r
  /\ Rocket.vel r' = Rocket.vel r
  /\ Rocket.dna r' = Rocket.dna r
  /\ Rocket.dna_length r' = Rocket.dna_length r
  /\ Rocket.current_step r' = Rocket.current_step r
  /\ Rocket.is_active r' = Rocket.is_active r.
Proof.
  simpl. unfold Rocket.evaluate_fitness.
  destruct (Rleb _ _ && negb _); simpl;
    destruct (Rocket.has_reached_target r); simpl; repeat split; done.
Qed.

(** The flag and the arrival step after an evaluation. *)
Lemma evaluate_fitness_flag r tp :
  let d := Vector2D.safe_distance (Rocket.pos r) tp in
  let r' := Rocket.evaluate_fitness r tp in
  Rocket.has_reached_target r'
  = Rocket.has_reached_target r
    || Rleb d (RocketConfig.TARGET_RADIUS (Rocket.config r))
  /\ Rocket.target_reached_step r'
     = if negb (Rocket.has_reached_target r)
          && Rleb d (RocketConfig.TARGET_RADIUS (Rocket.config r))
       then Some (Rocket.current_step r)
       else Rocket.target_reached_step r.
Proof.
  simpl. unfold Rocket.evaluate_fitness.
  destruct (Rleb _ _); destruct (Rocket.has_reached_target r) eqn:E; simpl;
    rewrite ?E; simpl; split; done.
Qed.

Lemma evaluations_keep_flag tps r :
  Rocket.has_reached_target r = true ->
  let r' := fold_left Rocket.evaluate_fitness tps r in
  Rocket.has_reached_target r' = true
  /\ Rocket.target_reached_step r' = Rocket.target_reached_step r.
Proof.
  revert r. induction tps as [|tp tps IH]; intros r Hr; simpl; [done |].
  destruct (evaluate_fitness_flag r tp) as [Hf Hs]. simpl in Hf, Hs.
  rewrite Hr in Hf, Hs. simpl in Hf, Hs.
  destruct (IH _ Hf) as [Hf' Hs']. simpl in Hf', Hs'. rewrite Hf', Hs', Hs. done.
Qed.

Lemma stats_loop_target_pos w w' tp a es :
  World.width w = World.width w' -> World.height w = World.height w' ->
  World.stats_loop w tp a es = World.stats_loop w' tp a es.
Proof.
  intros Hw Hh. revert a. induction es as [|[tg|r] es IH]; intros a; simpl.
  - done.
  - rewrite IH. done.
  - unfold World.stats_rocket, World.out_of_bounds. rewrite Hw, Hh.
    rewrite IH. done.
Qed.

(** *** Claim C2 *)

(** C2, as the code has it.  A fitness evaluation newly marks an agent as
    having reached the target exactly when its Euclidean distance to the
    target position is at most the [TARGET_RADIUS] of the agent's own
    configuration (20 by default) and the agent was not marked before; the
    arrival step recorded is then the step cursor.  A marked agent stays
    marked and keeps its arrival step through any later evaluations.  The
    radius stored in the world's target is not consulted: the statistics
    pass leaves the same rockets for every radius of the target. *)
Theorem reached_by_config_radius (r : Rocket.t) (target_pos : vec) :
  let d := Vector2D.safe_distance (Rocket.pos r) target_pos in
  let r' := Rocket.evaluate_fitness r target_pos in
  ((Rocket.has_reached_target r = false /\ Rocket.has_reached_target r' = true)
   <-> ((d <= RocketConfig.TARGET_RADIUS (Rocket.config r))%R
        /\ Rocket.has_reached_target r = false))
  /\ (Rocket.has_reached_target r = false ->
      (d <= RocketConfig.TARGET_RADIUS (Rocket.config r))%R ->
      Rocket.target_reached_step r' = Some (Rocket.current_step r))
  /\ (Rocket.has_reached_target r = false ->
      (RocketConfig.TARGET_RADIUS (Rocket.config r) < d)%R ->
      Rocket.has_reached_target r' = false
      /\ Rocket.target_reached_step r' = Rocket.target_reached_step r)
  /\ (Rocket.has_reached_target r = true ->
      forall later : list vec,
        let r'' := fold_left Rocket.evaluate_fitness later r' in
        Rocket.has_reached_target r'' = true
        /\ Rocket.target_reached_step r'' = Rocket.target_reached_step r)
  /\ (forall (w : World.t) (tg : Target.t) (radius : R),
         World.get_rockets
           (World._calculate_rocket_stats (World.set_target_field (Some tg) w))
         = World.get_rockets
             (World._calculate_rocket_stats
                (World.set_target_field
                   (Some (Target.mk (Target.ident tg) (Target.pos tg) radius)) w))).
Proof.
  intros d r'. destruct (evaluate_fitness_flag r target_pos) as [Hf Hs].
  simpl in Hf, Hs. fold d r' in Hf, Hs.
  split; [| split; [| split; [| split]]].
  - rewrite Hf. split.
    + intros [H0 H1]. rewrite H0 in H1. simpl in H1. apply Rleb_true in H1. done.
    + intros [H0 H1]. apply Rleb_true in H0. rewrite H0, H1. done.
  - intros H0 H1. apply Rleb_true in H1. rewrite Hs, H0, H1. done.
  - intros H0 H1. apply Rleb_false in H1. rewrite Hf, Hs, H0, H1. done.
  - intros H0 later.
    assert (H1 : Rocket.has_reached_target r' = true) by (rewrite Hf, H0; done).
    destruct (evaluations_keep_flag later r' H1) as [Ha Hb].
    simpl in *. rewrite Ha, Hb, Hs, H0. done.
  - intros w tg radius. unfold World._calculate_rocket_stats, World.get_rockets.
    simpl. destruct (World.rockets_of (World.entities w)) eqn:E; simpl.
    + rewrite E. done.
    + rewrite (stats_loop_target_pos
                 (World.set_target_field (Some tg) w)
                 (World.set_target_field
                    (Some (Target.mk (Target.ident tg) (Target.pos tg) radius)) w))
        by done.
      destruct (World.stats_loop _ _ _ _). done.
Qed.

Lemma distance_on_axis (x : R) :
  (0 <= x)%R -> Vector2D.safe_distance (x, 0%R) (0%R, 0%R) = x.
Proof.
  intros Hx. unfold Vector2D.safe_distance, norm, vsub. simpl.
  replace (x - 0)%R with x by lra. replace (0 - 0)%R with 0%R by lra.
  rewrite hypot_axis. apply Rabs_pos_eq. done.
Qed.

(** C2, the claim as stated fails: the world's target has radius 50, an
    unmarked rocket lies at distance 30 from it, and the evaluation against
    that target does not mark the rocket. *)
Lemma target_radius_not_consulted :
  exists tg : Target.t,
    World.target (World.set_target empty_world 0 0 50) = Some tg
    /\ Target.radius tg = 50%R
    /\ Vector2D.safe_distance (Rocket.pos (resting_rocket (30, 0)%R)) (Target.pos tg)
       = 30%R
    /\ (30 <= Target.radius tg)%R
    /\ Rocket.has_reached_target (resting_rocket (30, 0)%R) = false
    /\ Rocket.has_reached_target
         (Rocket.evaluate_fitness (resting_rocket (30, 0)%R) (Target.pos tg))
       = false.
Proof.
  exists (Target.mk 0 (0, 0)%R 50).
  assert (Hd : Vector2D.safe_distance (30, 0)%R (0, 0)%R = 30%R)
    by (apply distance_on_axis; lra).
  split; [reflexivity |]. split; [reflexivity |]. split; [exact Hd |].
  split; [simpl; lra |]. split; [reflexivity |].
  destruct (evaluate_fitness_flag (resting_rocket (30, 0)%R) (0, 0)%R) as [Hf _].
  simpl in Hf. simpl. rewrite Hf, Hd.
  apply Rleb_false. lra.
Qed.

(** *** Claim C5 *)

(** C5. Two agents with the default constants, whose arrival step (the
    step cursor for an agent not yet marked) does not exceed the genome
    length, are evaluated against the same target position: when the first
    ends up marked as having reached the target and the second does not,
    the fitness of the first is strictly greater. *)
Theorem reached_dominates (r1 r2 : Rocket.t) (target_pos : vec) :
  Rocket.config r1 = RocketConfig.default ->
  Rocket.config r2 = RocketConfig.default ->
  Rocket.current_step r1 <= Rocket.dna_length r1 ->
  (forall s, Rocket.target_reached_step r1 = Some s -> s <= Rocket.dna_length r1) ->
  Rocket.has_reached_target (Rocket.evaluate_fitness r1 target_pos) = true ->
  Rocket.has_reached_target (Rocket.evaluate_fitness r2 target_pos) = false ->
  (Rocket.fitness (Rocket.evaluate_fitness r2 target_pos)
   < Rocket.fitness (Rocket.evaluate_fitness r1 target_pos))%R.
Proof.
  intros Hc1 Hc2 Hcs Hts H1 H2.
  assert (Hlow : (Rocket.fitness (Rocket.evaluate_fitness r2 target_pos) < 1 / 20)%R).
  { destruct (evaluate_fitness_cases r2 target_pos) as (Ha & Hb & Hc).
    destruct (evaluate_fitness_flag r2 target_pos) as [Hf _]. simpl in *.
    rewrite H2 in Hf. symmetry in Hf. apply orb_false_iff in Hf as [Hf Hr].
    apply Rleb_false in Hr. rewrite (Hc Hf Hr). simpl.
    unfold Rocket._calculate_distance_fitness.
    rewrite Hc2 in Hr. simpl in Hr. pose proof float_eps_pos.
    unfold Rdiv. rewrite !Rmult_1_l. apply Rinv_lt_contravar; nra. }
  assert (Hhigh : (1000 <= Rocket.fitness (Rocket.evaluate_fitness r1 target_pos))%R).
  { assert (Hbonus : forall r,
               Rocket.config r = RocketConfig.default ->
               (forall s, Rocket.target_reached_step r = Some s ->
                          s <= Rocket.dna_length r) ->
               (1000 <= Rocket._calculate_success_fitness r)%R).
    { intros r Hc Hs. unfold Rocket._calculate_success_fitness. rewrite Hc. simpl.
      destruct (Rocket.target_reached_step r) as [s|]; [| lra].
      specialize (Hs s eq_refl).
      assert (0 <= IZR (Rocket.dna_length r - s))%R by (apply IZR_le; lia). nra. }
    destruct (evaluate_fitness_cases r1 target_pos) as (Ha & Hb & Hc).
    simpl in *.
    destruct (Rocket.has_reached_target r1) eqn:E.
    - rewrite (Ha eq_refl). simpl. apply Hbonus; done.
    - destruct (Rle_lt_dec (Vector2D.safe_distance (Rocket.pos r1) target_pos)
                  (RocketConfig.TARGET_RADIUS (Rocket.config r1))) as [Hd|Hd].
      + rewrite (Hb eq_refl Hd). simpl. apply Hbonus; [done |].
        simpl. intros s [= <-]. done.
      + rewrite (Hc eq_refl Hd) in H1. simpl in H1. congruence. }
  lra.
Qed.

(** A rocket at distance 10 from the target against one at distance 30. *)
Lemma reached_dominates_witness :
  (Rocket.fitness (Rocket.evaluate_fitness (resting_rocket (30, 0)%R) (0, 0)%R)
   < Rocket.fitness (Rocket.evaluate_fitness (resting_rocket (10, 0)%R) (0, 0)%R))%R.
Proof.
  assert (Hnear : Vector2D.safe_distance (10, 0)%R (0, 0)%R = 10%R)
    by (apply distance_on_axis; lra).
  assert (Hfar : Vector2D.safe_distance (30, 0)%R (0, 0)%R = 30%R)
    by (apply distance_on_axis; lra).
  apply (reached_dominates (resting_rocket (10, 0)%R) (resting_rocket (30, 0)%R)).
  - reflexivity.
  - reflexivity.
  - simpl. lia.
  - simpl. intros s Hs. discriminate Hs.
  - destruct (evaluate_fitness_flag (resting_rocket (10, 0)%R) (0, 0)%R) as [Hf _].
    simpl in Hf. simpl. rewrite Hf, Hnear. apply Rleb_true. lra.
  - destruct (evaluate_fitness_flag (resting_rocket (30, 0)%R) (0, 0)%R) as [Hf _].
    simpl in Hf. simpl. rewrite Hf, Hfar. apply Rleb_false. lra.
Defined.

(** ** Mutation and aliasing *)

Lemma read_alloc_old (h : DNAStore.store) v l :
  l ∈ dom h -> DNAStore.read (DNAStore.alloc h v).2 l = DNAStore.read h l.
Proof.
  intros Hl. unfold DNAStore.read, DNAStore.alloc. simpl.
  rewrite lookup_insert_ne; [done |].
  intros <-. apply (is_fresh (dom h)). done.
Qed.

Lemma read_alloc_new (h : DNAStore.store) v :
  DNAStore.read (DNAStore.alloc h v).2 (DNAStore.alloc h v).1 = v.
Proof.
  unfold DNAStore.read, DNAStore.alloc. simpl. rewrite lookup_insert_eq. done.
Qed.

Lemma values_ext (h h' : DNAStore.store) gs :
  Forall (fun l => DNAStore.read h' l = DNAStore.read h l) gs ->
  DNAStore.values h' gs = DNAStore.values h gs.
Proof.
  unfold DNAStore.values. induction 1 as [|l gs Hl _ IH]; simpl; [done |].
  rewrite Hl, IH. done.
Qed.

(** [mutate] on the store: the arrays that existed are left as they were,
    the genes of the result are arrays that did not exist before, and their
    values are those that [DNA.mutate] computes from the values of the input
    with the same draws. *)
Lemma mutate_store_spec c rate gs (h : DNAStore.store) g out g' :
  Forall (fun l => l ∈ dom h) gs ->
  DNAStore.mutate c rate gs h g = Ok (out, g') ->
  (forall l, l ∈ dom h -> DNAStore.read out.2 l = DNAStore.read h l)
  /\ dom h ⊆ dom (out.2)
  /\ Forall (fun l => (l ∉ dom h) /\ l ∈ dom (out.2)) (out.1)
  /\ mapM (DNA.mutate_gene c rate) (DNAStore.values h gs) g
     = Ok (DNAStore.values out.2 out.1, g').
Proof.
  revert h g out g'. induction gs as [|gene rest IH]; intros h g out g' Hwf; simpl.
  - intros [<- <-]%ret_Ok. simpl. repeat split; done.
  - apply Forall_cons in Hwf as [Hgene Hrest].
    intros (u & g1 & Hu & (v & g2 & Hv & H)%bind_Ok)%bind_Ok.
    apply bind_Ok in H as (out' & g3 & Hrec & [<- <-]%ret_Ok). simpl.
    remember (fresh (dom h)) as l eqn:Hl.
    remember (<[l:=v]> h) as h1 eqn:Hh1.
    assert (Hfresh : l ∉ dom h) by (rewrite Hl; apply is_fresh).
    assert (Hsub : dom h ⊆ dom h1)
      by (rewrite Hh1, dom_insert_L; apply union_subseteq_r).
    assert (Hold : forall x, x ∈ dom h -> DNAStore.read h1 x = DNAStore.read h x).
    { intros x Hx. unfold DNAStore.read. rewrite Hh1, lookup_insert_ne; [done |].
      intros <-. done. }
    assert (Hnew : DNAStore.read h1 l = v).
    { unfold DNAStore.read. rewrite Hh1, lookup_insert_eq. done. }
    assert (Hl1 : l ∈ dom h1).
    { rewrite Hh1, dom_insert_L. apply elem_of_union_l, elem_of_singleton.
      reflexivity. }
    destruct (IH h1 g2 out' g3) as (Hkeep & Hdom & Hout & Hval); [| exact Hrec |].
    { eapply Forall_impl; [exact Hrest |]. simpl. intros x Hx. apply Hsub, Hx. }
    repeat split.
    + intros x Hx. rewrite Hkeep by (apply Hsub, Hx). apply Hold. done.
    + etrans; [exact Hsub | exact Hdom].
    + constructor; [split; [done | apply Hdom, Hl1] |].
      eapply Forall_impl; [exact Hout |]. simpl. intros x [Hx1 Hx2].
      split; [intros Hc; apply Hx1, Hsub, Hc | done].
    + unfold bind. unfold DNA.mutate_gene at 1. unfold bind. rewrite Hu.
      assert (Hv' : (if Rltb u rate then DNA.random_gene c
                     else ret (DNAStore.read h gene)) g1 = Ok (v, g2)) by exact Hv.
      rewrite Hv'.
      assert (Hvals : DNAStore.values h1 rest = DNAStore.values h rest).
      { apply values_ext. eapply Forall_impl; [exact Hrest |]. simpl. apply Hold. }
      rewrite <- Hvals, Hval. unfold ret. simpl.
      rewrite (Hkeep l Hl1), Hnew. done.
Qed.

Lemma mutate_store_total c rate gs (h : DNAStore.store) g :
  exists out g', DNAStore.mutate c rate gs h g = Ok (out, g').
Proof.
  revert h g. induction gs as [|gene rest IH]; intros h g; simpl.
  - unfold ret; eauto.
  - unfold bind. destruct (random_random_total g) as (u & g1 & -> & _).
    assert (Hv : exists v g2,
               (if Rltb u rate then DNA.random_gene c
                else ret (DNAStore.read h gene)) g1 = Ok (v, g2)).
    { destruct (Rltb u rate); [apply random_gene_total | unfold ret; eauto]. }
    destruct Hv as (v & g2 & ->). simpl.
    destruct (IH (<[fresh (dom h):=v]> h) g2) as (out & g3 & ->).
    unfold ret; eauto.
Qed.

Lemma mapM_mutate_rate0 c rate vs g vs' g' :
  (rate <= 0)%R ->
  mapM (DNA.mutate_gene c rate) vs g = Ok (vs', g') -> vs' = vs.
Proof.
  intros Hr. revert g vs' g'. induction vs as [|v vs IH]; intros g vs' g'; simpl.
  - intros [<- _]%ret_Ok. done.
  - intros (b & g1 & Hb & (bs & g2 & Hl & [<- _]%ret_Ok)%bind_Ok)%bind_Ok.
    apply (mutate_gene_rate0 c rate v g b g1 Hr) in Hb as ->.
    f_equal. eauto.
Qed.

(** *** Claim C8 *)

(** C8. For every genome whose arrays are in the store, [mutate] with
    mutation rate 0 returns a genome whose every gene has the value of the
    corresponding input gene; no gene of the result is an array of the
    input; and writing any value into a gene of the result leaves the
    values of the input genome as they were.  On values, [DNA.mutate] with
    rate 0 returns the genes of its input. *)
Theorem mutate_rate0_independent (c : Config.t) (gs : list DNAStore.ref)
    (h : DNAStore.store) (g : rng) :
  Forall (fun l => l ∈ dom h) gs ->
  exists gs' h' g',
    DNAStore.mutate c 0 gs h g = Ok ((gs', h'), g')
    /\ DNAStore.values h' gs' = DNAStore.values h gs
    /\ DNAStore.values h' gs = DNAStore.values h gs
    /\ (forall l, l ∈ gs' -> l ∉ gs)
    /\ (forall l v, l ∈ gs' ->
          DNAStore.values (DNAStore.write h' l v) gs = DNAStore.values h gs)
    /\ DNA.mutate c (DNA.mk (DNAStore.values h gs)) 0 g
       = Ok (DNA.mk (DNAStore.values h gs), g').
Proof.
  intros Hwf.
  destruct (mutate_store_total c 0 gs h g) as ([gs' h'] & g' & Hm).
  destruct (mutate_store_spec c 0 gs h g _ g' Hwf Hm) as (Hkeep & Hdom & Hnew & Hval).
  simpl in *.
  assert (Hsame : DNAStore.values h' gs' = DNAStore.values h gs).
  { eapply mapM_mutate_rate0; [| exact Hval]. lra. }
  assert (Hdisj : forall l, l ∈ gs' -> l ∉ gs).
  { intros l Hl Hin. rewrite Forall_forall in Hnew, Hwf.
    destruct (Hnew l Hl) as [Hn _]. apply Hn, Hwf. done. }
  exists gs', h', g'. repeat split.
  - exact Hm.
  - exact Hsame.
  - apply values_ext. eapply Forall_impl; [exact Hwf |]. simpl. apply Hkeep.
  - exact Hdisj.
  - intros l v Hl. apply values_ext. apply Forall_forall. intros x Hx.
    unfold DNAStore.read, DNAStore.write. rewrite lookup_insert_ne.
    + apply Hkeep. rewrite Forall_forall in Hwf. apply Hwf. done.
    + intros <-. apply (Hdisj l Hl). done.
  - unfold DNA.mutate, bind. simpl. rewrite Hval, Hsame. done.
Qed.

(** ** The world: structure of one step *)

Lemma lift_Ok {A} (r : result A) g a g' :
  lift r g = Ok (a, g') <-> r = Ok a /\ g = g'.
Proof.
  unfold lift. destruct r; split.
  - intros [= -> ->]. done.
  - intros [[= ->] ->]. done.
  - discriminate.
  - intros [[=] _].
Qed.

Lemma mapM_Forall2 {A B} (f : A -> M B) l g bs g' :
  mapM f l g = Ok (bs, g') ->
  Forall2 (fun a b => exists g1 g2, f a g1 = Ok (b, g2)) l bs.
Proof.
  revert g bs g'. induction l as [|a l IH]; intros g bs g'; simpl.
  - intros [<- _]%ret_Ok. constructor.
  - intros (b & g1 & Hb & (bs' & g2 & Hl & [<- _]%ret_Ok)%bind_Ok)%bind_Ok.
    constructor; eauto.
Qed.

Lemma rockets_of_app es1 es2 :
  World.rockets_of (es1 ++ es2) = World.rockets_of es1 ++ World.rockets_of es2.
Proof.
  induction es1 as [|[tg|r] es1 IH]; simpl; [done | done |]. rewrite IH. done.
Qed.

Lemma rockets_of_kept es :
  World.rockets_of (List.filter (fun e => negb (World.is_rocket e)) es) = [].
Proof. induction es as [|[tg|r] es IH]; simpl; done. Qed.

(** The rockets of a list of entities that are all rockets. *)
Lemma rockets_of_spawned (P : Rocket.t -> Prop) es :
  Forall (fun e => exists r, e = ERocket r /\ P r) es ->
  Forall P (World.rockets_of es) /\ length (World.rockets_of es) = length es.
Proof.
  induction 1 as [|e es (r & -> & Hr) _ [IH1 IH2]]; simpl; [done |].
  split; [constructor; done | f_equal; done].
Qed.

Lemma random_thrust_vector_total a b g :
  exists v g', Vector2D.random_thrust_vector a b g = Ok (v, g').
Proof.
  unfold Vector2D.random_thrust_vector, Vector2D.random_unit_vector, bind.
  destruct (random_uniform_total 0 (2 * PI) g) as (x & g1 & ->). unfold ret.
  destruct (random_uniform_total a b g1) as (y & g2 & ->). eauto.
Qed.

Lemma Rocket_init_total p L cfg g : exists r g', Rocket.init p L cfg g = Ok (r, g').
Proof.
  unfold Rocket.init, Rocket._generate_random_dna, bind.
  destruct (repeatM_total
              (Vector2D.random_thrust_vector
                 (RocketConfig.MIN_THRUST_MAGNITUDE (default RocketConfig.default cfg))
                 (RocketConfig.MAX_THRUST_MAGNITUDE (default RocketConfig.default cfg)))
              (Z.to_nat L) g) as (d & g' & ->);
    [intros; apply random_thrust_vector_total | unfold ret; eauto].
Qed.

Lemma spawn_rocket_Ok L sd g e g' :
  World.spawn_rocket L sd g = Ok (e, g') ->
  exists r, e = ERocket r /\ newborn L sd.1 sd.2 r.
Proof.
  unfold World.spawn_rocket, Rocket.init.
  intros (r & g1 & (d & g2 & _ & [<- _]%ret_Ok)%bind_Ok & [<- _]%ret_Ok)%bind_Ok.
  eexists. split; [reflexivity |]. repeat split; reflexivity.
Qed.

Lemma spawn_rocket_total L sd g : exists e g', World.spawn_rocket L sd g = Ok (e, g').
Proof.
  unfold World.spawn_rocket, bind.
  destruct (Rocket_init_total sd.1 L None g) as (r & g' & ->). unfold ret; eauto.
Qed.

Lemma mapM_Forall2_spec {A B} (Q : A -> B -> Prop) (f : A -> M B) l g bs g' :
  (forall a g1 b g2, f a g1 = Ok (b, g2) -> Q a b) ->
  mapM f l g = Ok (bs, g') -> Forall2 Q l bs.
Proof.
  intros HQ Hm. apply mapM_Forall2 in Hm.
  eapply Forall2_impl; [exact Hm |]. simpl. intros a b (g1 & g2 & H). eauto.
Qed.

Lemma rockets_of_Forall2 {A} (Q : A -> Rocket.t -> Prop) l es :
  Forall2 (fun a e => exists r, e = ERocket r /\ Q a r) l es ->
  Forall2 Q l (World.rockets_of es).
Proof.
  induction 1 as [|a e l es (r & -> & Hr) _ IH]; simpl; constructor; done.
Qed.

(** What [_spawn_generation] leaves: the entities that are not rockets,
    then one newborn rocket per start position and genome. *)
Lemma spawn_generation_Ok w g w' g' :
  World._spawn_generation w g = Ok (w', g') ->
  Forall2 (fun sd r => newborn (World.dna_length w) sd.1 sd.2 r)
          (zip (World.start_positions w) (Population.get_dnas (World.population w)))
          (World.get_rockets w')
  /\ World.target w' = World.target w
  /\ World.population w' = World.population w
  /\ World.dna_length w' = World.dna_length w
  /\ World.start_positions w' = World.start_positions w
  /\ World.width w' = World.width w
  /\ World.height w' = World.height w
  /\ World.max_steps_per_generation w' = World.max_steps_per_generation w
  /\ World.current_generation w' = World.current_generation w + 1
  /\ World.generation_step w' = 0
  /\ Stats.total_rockets_reached_target (World.stats w')
     = Stats.total_rockets_reached_target (World.stats w).
Proof.
  unfold World._spawn_generation.
  intros (rs & g1 & Hrs & [<- _]%ret_Ok)%bind_Ok. simpl.
  repeat split; try done.
  unfold World.get_rockets. simpl. rewrite rockets_of_app, rockets_of_kept. simpl.
  apply rockets_of_Forall2.
  eapply mapM_Forall2_spec; [| exact Hrs]. simpl.
  intros sd g2 e g3 He. eapply spawn_rocket_Ok. exact He.
Qed.

Lemma spawn_generation_total w g :
  exists w' g', World._spawn_generation w g = Ok (w', g').
Proof.
  unfold World._spawn_generation, bind.
  destruct (mapM_total (World.spawn_rocket (World.dna_length w))
              (zip (World.start_positions w)
                   (Population.get_dnas (World.population w))) g)
    as (rs & g' & ->); [intros; apply spawn_rocket_total | unfold ret; eauto].
Qed.

Lemma update_all_Ok es es' :
  World.update_all es = Ok es' ->
  Forall2 (fun r r' => Rocket.update r = Ok r')
          (World.rockets_of es) (World.rockets_of es').
Proof.
  revert es'. induction es as [|e es IH]; intros es'; simpl.
  - intros [= <-]. constructor.
  - destruct (World.update_entity e) as [e'|] eqn:He; [| discriminate].
    destruct (World.update_all es) as [out|] eqn:Hout; [| discriminate].
    intros [= <-]. specialize (IH out eq_refl).
    destruct e as [tg|r]; simpl in He.
    + injection He as <-. simpl. done.
    + destruct (Rocket.update r) as [r'|] eqn:Hr; [| discriminate].
      injection He as <-. simpl. constructor; done.
Qed.

Lemma update_all_total es :
  Forall (fun r => exists r', Rocket.update r = Ok r') (World.rockets_of es) ->
  exists es', World.update_all es = Ok es'.
Proof.
  induction es as [|[tg|r] es IH]; simpl; intros H.
  - eauto.
  - destruct (IH H) as (es' & ->). eauto.
  - apply Forall_cons in H as [(r' & ->) H].
    destruct (IH H) as (es' & ->). eauto.
Qed.

Lemma set_fitness_same r : Rocket.set_fitness (Rocket.fitness r) r = r.
Proof. destruct r. reflexivity. Qed.

(** One pass of the statistics loop evaluates every rocket against the
    target position, possibly scales its fitness, and adds one to the count
    for every rocket that carries the flag after its evaluation. *)
Lemma stats_loop_spec w tp a es :
  let out := World.stats_loop w tp a es in
  Forall2 (fun r r' => exists f,
               r' = Rocket.set_fitness f (Rocket.evaluate_fitness r tp))
          (World.rockets_of es) (World.rockets_of out.2)
  /\ World.rockets_reached out.1
     = World.rockets_reached a + count_reached (World.rockets_of out.2).
Proof.
  revert a. induction es as [|[tg|r] es IH]; intros a; simpl.
  - split; [constructor |]. unfold count_reached. simpl. lia.
  - specialize (IH a). destruct (World.stats_loop w tp a es) as [a' out]. simpl in *.
    done.
  - set (a1 := World.mk_tally _ _ _).
    specialize (IH a1). destruct (World.stats_loop w tp a1 es) as [a2 out].
    simpl in *. destruct IH as [IH1 IH2]. split.
    + constructor; [| done].
      destruct (World.out_of_bounds w _); eexists; [reflexivity |].
      symmetry. apply set_fitness_same.
    + rewrite IH2. unfold a1. simpl. unfold count_reached. simpl.
      assert (Hflag : Rocket.has_reached_target
                        (if World.out_of_bounds w (Rocket.pos (Rocket.evaluate_fitness r tp))
                         then Rocket.set_fitness
                                (Rocket.fitness (Rocket.evaluate_fitness r tp) * (1 / 10))
                                (Rocket.evaluate_fitness r tp)
                         else Rocket.evaluate_fitness r tp)
                      = Rocket.has_reached_target (Rocket.evaluate_fitness r tp)).
      { destruct (World.out_of_bounds w _); done. }
      rewrite Hflag.
      destruct (Rocket.has_reached_target (Rocket.evaluate_fitness r tp)); simpl; lia.
Qed.

Lemma count_reached_nonneg rs : 0 <= count_reached rs.
Proof. unfold count_reached. lia. Qed.

Lemma calculate_rocket_stats_spec w :
  let w' := World._calculate_rocket_stats w in
  World.target w' = World.target w
  /\ World.population w' = World.population w
  /\ World.dna_length w' = World.dna_length w
  /\ World.start_positions w' = World.start_positions w
  /\ World.width w' = World.width w
  /\ World.height w' = World.height w
  /\ World.max_steps_per_generation w' = World.max_steps_per_generation w
  /\ World.current_generation w' = World.current_generation w
  /\ World.generation_step w' = World.generation_step w
  /\ Forall2 (evaluated (World.target w)) (World.get_rockets w) (World.get_rockets w')
  /\ Stats.total_rockets_reached_target (World.stats w')
     = Stats.total_rockets_reached_target (World.stats w)
       + match World.target w with
         | Some _ => count_reached (World.get_rockets w')
         | None => 0
         end.
Proof.
  simpl. unfold World._calculate_rocket_stats, World.get_rockets.
  destruct (World.target w) as [tg|] eqn:Et.
  - destruct (World.rockets_of (World.entities w)) as [|r rs] eqn:Er.
    + rewrite Et, Er. repeat split; try done; try constructor.
      unfold count_reached. simpl. lia.
    + pose proof (stats_loop_spec w (Target.pos tg) (World.mk_tally PInf 0 0)
                    (World.entities w)) as [H1 H2].
      destruct (World.stats_loop w (Target.pos tg) (World.mk_tally PInf 0 0)
                  (World.entities w)) as [a es].
      simpl in *. rewrite Er in H1. repeat split; try done.
      rewrite H2. pose proof (count_reached_nonneg (World.rockets_of es)).
      destruct (0 <? 0 + count_reached (World.rockets_of es)) eqn:E; [lia |].
      apply Z.ltb_ge in E. lia.
  - rewrite Et. repeat split; try done; [| lia].
    apply Forall2_same_length_lookup. split; [done |]. intros i x y Hx Hy.
    congruence.
Qed.

(** The part of a step before the end-of-generation test. *)
Lemma advance_Ok w w1 :
  World.advance w = Ok w1 ->
  World.target w1 = World.target w
  /\ World.population w1 = World.population w
  /\ World.dna_length w1 = World.dna_length w
  /\ World.start_positions w1 = World.start_positions w
  /\ World.width w1 = World.width w
  /\ World.height w1 = World.height w
  /\ World.max_steps_per_generation w1 = World.max_steps_per_generation w
  /\ World.current_generation w1 = World.current_generation w
  /\ World.generation_step w1 = World.generation_step w + 1
  /\ Forall2 (fun r r1 => exists ru, Rocket.update r = Ok ru
                                     /\ evaluated (World.target w) ru r1)
             (World.get_rockets w) (World.get_rockets w1)
  /\ Stats.total_rockets_reached_target (World.stats w1)
     = Stats.total_rockets_reached_target (World.stats w)
       + match World.target w with
         | Some _ => count_reached (World.get_rockets w1)
         | None => 0
         end.
Proof.
  unfold World.advance.
  destruct (World.update_all (World.entities w)) as [es|] eqn:Hu; [| discriminate].
  intros [= <-]. apply update_all_Ok in Hu.
  set (w0 := World.set_generation_step _ _).
  pose proof (calculate_rocket_stats_spec w0) as H. simpl in H.
  destruct H as (H1 & H2 & H3 & H4 & H5 & H6 & H7 & H8 & H9 & H10 & H11).
  repeat split; try done.
  change (World.get_rockets w0) with (World.rockets_of es) in H10.
  change (World.target w0) with (World.target w) in H10.
  unfold World.get_rockets at 1.
  clear -Hu H10. revert H10. generalize (World.get_rockets (World._calculate_rocket_stats w0)).
  induction Hu as [|r ru rs rus Hr _ IH]; intros l H; inversion H; subst.
  - constructor.
  - constructor; [eauto | apply IH; done].
Qed.

(** ** The end of a generation *)

Lemma still_running_finished r : World.still_running r = false <-> finished r.
Proof.
  unfold World.still_running, finished. rewrite andb_false_iff, Z.ltb_ge.
  destruct (Rocket.has_reached_target r); simpl; intuition congruence.
Qed.

Lemma existsb_still_running rs :
  existsb World.still_running rs = false <-> Forall finished rs.
Proof.
  induction rs as [|r rs IH]; simpl.
  - split; [constructor | done].
  - rewrite orb_false_iff, Forall_cons, IH, still_running_finished. done.
Qed.

Lemma should_end_iff w :
  World.max_steps_per_generation w = World.dna_length w + 50 ->
  World._should_end_generation w = true <-> generation_over w.
Proof.
  intros Hmax. unfold World._should_end_generation, generation_over.
  destruct (World.get_rockets w) as [|r rs] eqn:E.
  - split; [left; done | done].
  - rewrite Hmax.
    destruct (World.dna_length w + 50 <=? World.generation_step w) eqn:Es.
    + apply Z.leb_le in Es. split; [right; left; done | done].
    + apply Z.leb_gt in Es. rewrite negb_true_iff, existsb_still_running.
      split; [right; right; done |]. intros [H | [H | H]]; [done | lia | done].
Qed.

Lemma end_generation_Ok c w g w' g' :
  World._end_generation c w g = Ok (w', g') ->
  World.target w' = World.target w
  /\ World.dna_length w' = World.dna_length w
  /\ World.start_positions w' = World.start_positions w
  /\ World.width w' = World.width w
  /\ World.height w' = World.height w
  /\ World.max_steps_per_generation w' = World.max_steps_per_generation w
  /\ World.current_generation w' = World.current_generation w
  /\ World.generation_step w' = World.generation_step w
  /\ Stats.total_rockets_reached_target (World.stats w')
     = Stats.total_rockets_reached_target (World.stats w)
  /\ (World.get_rockets w = [] -> w' = w /\ g' = g)
  /\ (World.get_rockets w <> [] ->
      exists rockets,
        Forall2 (evaluated (World.target w)) (World.get_rockets w) rockets
        /\ rockets <> []
        /\ Population.next_generation c (World.population w) rockets g
           = Ok (World.population w', g')).
Proof.
  unfold World._end_generation.
  destruct (World.get_rockets w) as [|r rs] eqn:E.
  - intros [<- <-]%ret_Ok. repeat split; done.
  - intros (p & g1 & Hp & [<- <-]%ret_Ok)%bind_Ok. simpl.
    repeat split; try done. intros _.
    eexists. split; [| split; [| exact Hp]].
    + unfold World.get_rockets in E. unfold evaluated.
      destruct (World.target w) as [tg|].
      * rewrite <- E. clear. induction (World.entities w) as [|[t|r] es IH]; simpl.
        -- constructor.
        -- done.
        -- constructor; [| done]. eexists. symmetry. apply set_fitness_same.
      * rewrite E. apply Forall2_same_length_lookup. split; [done |].
        intros i x y Hx Hy. congruence.
    + unfold World.get_rockets in E. destruct (World.target w) as [tg|].
      * intros Hnil.
        assert (Hlen : length (World.rockets_of
                                 (World.map_rockets
                                    (fun r0 => Rocket.evaluate_fitness r0 (Target.pos tg))
                                    (World.entities w)))
                       = length (World.rockets_of (World.entities w))).
        { clear. induction (World.entities w) as [|[t|r] es IH]; simpl; lia. }
        rewrite Hnil, E in Hlen. discriminate.
      * rewrite E. done.
Qed.

(** *** Claim C3 *)

(** C3. In a world whose step cap is [dna_length + 50] (as the constructor
    sets it), let [w1] be the world after the per-step updates of [step]
    (entities updated, step counter advanced, statistics recomputed).  The
    end-of-generation test holds exactly when no rocket exists, or the step
    counter is at least [dna_length + 50], or every rocket is finished (its
    step cursor has reached its genome length or it carries the
    reached-target flag).  When it holds, [step] runs the end-of-generation
    evaluation and then the respawn; otherwise [step] stops at [w1].  In a
    step that returns, the generation index moves on exactly in the first
    case. *)
Theorem step_ends_generation_iff (c : Config.t) (w w1 : World.t) (g : rng) :
  World.max_steps_per_generation w = World.dna_length w + 50 ->
  World.advance w = Ok w1 ->
  (World._should_end_generation w1 = true <-> generation_over w1)
  /\ (generation_over w1 ->
      World.step c w g
      = (w2 <- World._end_generation c w1 ;; World._spawn_generation w2) g)
  /\ (~ generation_over w1 -> World.step c w g = Ok (w1, g))
  /\ (forall w' g',
         World.step c w g = Ok (w', g') ->
         (generation_over w1 <->
          World.current_generation w' = World.current_generation w + 1)
         /\ (~ generation_over w1 <-> (w' = w1 /\ g' = g))).
Proof.
  intros Hmax Hadv.
  pose proof (advance_Ok w w1 Hadv)
    as (_ & _ & HL & _ & _ & _ & Hm & Hgen & _).
  assert (Hiff : World._should_end_generation w1 = true <-> generation_over w1).
  { apply should_end_iff. rewrite Hm, HL. exact Hmax. }
  assert (Hstep : World.step c w g
                  = if World._should_end_generation w1
                    then (w2 <- World._end_generation c w1 ;;
                          World._spawn_generation w2) g
                    else Ok (w1, g)).
  { unfold World.step, bind at 1. unfold lift. rewrite Hadv.
    destruct (World._should_end_generation w1); done. }
  split; [exact Hiff |]. split; [| split].
  - intros Hover. apply Hiff in Hover. rewrite Hstep, Hover. done.
  - intros Hnot. rewrite Hstep.
    destruct (World._should_end_generation w1) eqn:E; [| done].
    exfalso. apply Hnot, Hiff. done.
  - intros w' g' Hs. rewrite Hstep in Hs.
    destruct (World._should_end_generation w1) eqn:E.
    + assert (Hover : generation_over w1) by (apply Hiff; done).
      apply bind_Ok in Hs as (w2 & g2 & He & Hsp).
      apply end_generation_Ok in He as (_ & _ & _ & _ & _ & _ & He & _).
      apply spawn_generation_Ok in Hsp
        as (_ & _ & _ & _ & _ & _ & _ & _ & Hsp & _).
      assert (Hnext : World.current_generation w'
                      = World.current_generation w + 1) by lia.
      split; [split; done |]. split; [done |].
      intros [-> _]. lia.
    + assert (Hnot : ~ generation_over w1).
      { intros Hover. apply Hiff in Hover. congruence. }
      injection Hs as <- <-. split; [| split; done].
      split; [done |]. intros Hnext. lia.
Qed.

(** ** Reproduction *)

Lemma select_from_total n nf g :
  1 <= n -> exists o g', Population.select_from n nf g = Ok (o, g').
Proof.
  intros Hn. destruct (select_from_spec n nf g Hn) as [H0 H1].
  destruct (Req_dec_T (py_sum nf) 0) as [E|E].
  - destruct (H0 E) as (k & g' & _ & _ & H). eauto.
  - destruct (H1 E) as (u & g' & _ & _ & i & H & _). eauto.
Qed.

Lemma select_from_range n nf g o g' :
  1 <= n -> py_len nf = n ->
  Population.select_from n nf g = Ok (o, g') ->
  exists i, o = Some i /\ 0 <= i < n.
Proof.
  intros Hn Hlen Hs. destruct (select_from_spec n nf g Hn) as [H0 H1].
  destruct (Req_dec_T (py_sum nf) 0) as [E|E].
  - destruct (H0 E) as (k & g1 & _ & Hk & H). rewrite H in Hs.
    injection Hs as <- <-. exists k. split; [done | lia].
  - destruct (H1 E) as (u & g1 & _ & _ & i & H & Hi). rewrite H in Hs.
    injection Hs as <- <-. exists i. split; [done |].
    destruct Hi as [(Hr & _) | (_ & ->)]; lia.
Qed.

Lemma roulette_range rockets g o g' :
  rockets <> [] ->
  Population.roulette_wheel_select rockets g = Ok (o, g') ->
  exists i, o = Some i /\ 0 <= i < py_len rockets.
Proof.
  intros Hne. destruct rockets as [|r rs]; [done |].
  unfold Population.roulette_wheel_select. apply select_from_range.
  - unfold py_len. simpl. lia.
  - unfold py_len. rewrite normalized_length. done.
Qed.

Lemma roulette_total rockets g :
  exists o g', Population.roulette_wheel_select rockets g = Ok (o, g').
Proof.
  destruct rockets as [|r rs]; simpl; [unfold ret; eauto |].
  apply select_from_total. unfold py_len. simpl. lia.
Qed.

(** The child bred from rockets whose genomes all have [L] instructions
    has [L] instructions. *)
Lemma breed_length c p rockets g d g' :
  0 <= Population.dna_length p ->
  Forall (fun r => py_len (Rocket.dna r) = Population.dna_length p) rockets ->
  Population.breed c p rockets g = Ok (d, g') ->
  py_len (DNA.genes d) = Population.dna_length p.
Proof.
  intros HL Hall. unfold Population.breed.
  intros (o1 & g1 & _ & (o2 & g2 & _ & H)%bind_Ok)%bind_Ok.
  assert (Hrand : forall g3,
             DNA.random c (Population.dna_length p) g3 = Ok (d, g') ->
             py_len (DNA.genes d) = Population.dna_length p).
  { intros g3 Hr. apply DNA_random_Ok in Hr. unfold py_len. lia. }
  destruct o1 as [i1|]; [| eauto]. destruct o2 as [i2|]; [| eauto].
  apply bind_Ok in H as (r1 & g3 & [Hr1 _]%lift_Ok & H).
  apply bind_Ok in H as (r2 & g4 & [Hr2 _]%lift_Ok & H).
  apply bind_Ok in H as (child & g5 & Hc & Hm).
  assert (Hin : forall i r, py_index rockets i = Ok r -> r ∈ rockets).
  { intros i r. unfold py_index.
    destruct ((0 <=? i) && (i <? py_len rockets)).
    - destruct (rockets !! Z.to_nat i) eqn:E; [| discriminate].
      intros [= <-]. eapply list_elem_of_lookup_2; eauto.
    - destruct ((- py_len rockets <=? i) && (i <? 0)); [| discriminate].
      destruct (rockets !! Z.to_nat (py_len rockets + i)) eqn:E; [| discriminate].
      intros [= <-]. eapply list_elem_of_lookup_2; eauto. }
  rewrite Forall_forall in Hall.
  pose proof (Hall r1 (Hin _ _ Hr1)) as L1. pose proof (Hall r2 (Hin _ _ Hr2)) as L2.
  apply mutate_length in Hm. apply crossover_length in Hc.
  - unfold py_len in *. simpl in *. unfold Rocket.get_dna_copy in *. lia.
  - unfold py_len in *. simpl. unfold Rocket.get_dna_copy. lia.
Qed.

Lemma breed_total c p rockets g :
  1 <= Population.dna_length p ->
  Forall (fun r => py_len (Rocket.dna r) = Population.dna_length p) rockets ->
  exists d g', Population.breed c p rockets g = Ok (d, g').
Proof.
  intros HL Hall. unfold Population.breed, bind.
  destruct (roulette_total rockets g) as (o1 & g1 & H1). rewrite H1.
  destruct (roulette_total rockets g1) as (o2 & g2 & H2). rewrite H2.
  destruct rockets as [|r0 rs].
  { simpl in H1, H2. apply ret_Ok in H1 as [<- _]. apply DNA_random_total. }
  apply roulette_range in H1 as (i1 & -> & Hi1); [| done].
  apply roulette_range in H2 as (i2 & -> & Hi2); [| done].
  destruct (py_index_Ok (r0 :: rs) i1 Hi1) as (r1 & -> & Hin1).
  destruct (py_index_Ok (r0 :: rs) i2 Hi2) as (r2 & -> & Hin2). simpl.
  rewrite Forall_forall in Hall. pose proof (Hall r1 Hin1) as L1.
  destruct (crossover_total (DNA.mk (Rocket.get_dna_copy r1))
              (DNA.mk (Rocket.get_dna_copy r2)) g2) as (child & g3 & ->).
  { simpl. unfold Rocket.get_dna_copy, py_len in *. lia. }
  apply mutate_total.
Qed.

Lemma next_generation_Ok c p rockets g p' g' :
  0 <= Population.dna_length p ->
  Forall (fun r => py_len (Rocket.dna r) = Population.dna_length p) rockets ->
  Population.next_generation c p rockets g = Ok (p', g') ->
  Population.dna_length p' = Population.dna_length p
  /\ Population.start_positions p' = Population.start_positions p
  /\ Population.mutation_rate p' = Population.mutation_rate p
  /\ length (Population.dnas p') = length (Population.start_positions p)
  /\ Forall (fun d => py_len (DNA.genes d) = Population.dna_length p)
            (Population.dnas p').
Proof.
  intros HL Hall. unfold Population.next_generation.
  destruct rockets as [|r0 rs].
  - intros (ds & g1 & Hds & [<- _]%ret_Ok)%bind_Ok. simpl.
    repeat split; try done; [eapply mapM_length; eauto |].
    eapply mapM_Forall; [| exact Hds]. simpl. intros _ g2 d g3 _ Hr.
    apply DNA_random_Ok in Hr. unfold py_len. lia.
  - intros (ds & g1 & Hds & [<- _]%ret_Ok)%bind_Ok. simpl.
    repeat split; try done; [eapply mapM_length; eauto |].
    eapply mapM_Forall; [| exact Hds]. simpl. intros _ g2 d g3 _ Hr.
    eapply breed_length; eauto.
Qed.

Lemma next_generation_total c p rockets g :
  1 <= Population.dna_length p ->
  Forall (fun r => py_len (Rocket.dna r) = Population.dna_length p) rockets ->
  exists p' g', Population.next_generation c p rockets g = Ok (p', g').
Proof.
  intros HL Hall. unfold Population.next_generation, bind.
  destruct rockets as [|r0 rs].
  - destruct (mapM_total (fun _ : vec => DNA.random c (Population.dna_length p))
                (Population.start_positions p) g) as (ds & g' & ->);
      [intros; apply DNA_random_total | unfold ret; eauto].
  - destruct (mapM_total (fun _ : vec => Population.breed c p (r0 :: rs))
                (Population.start_positions p) g) as (ds & g' & ->);
      [intros; apply breed_total; done | unfold ret; eauto].
Qed.

(** ** The invariant of a run *)

Lemma Forall2_transfer {A B} (R : A -> B -> Prop) (P : A -> Prop) (Q : B -> Prop)
    l l' :
  (forall x y, R x y -> P x -> Q y) ->
  Forall2 R l l' -> Forall P l -> Forall Q l'.
Proof.
  intros H HR. induction HR as [|x y l l' Hxy _ IH]; intros HP; [constructor |].
  apply Forall_cons in HP as [Hx HP]. constructor; eauto.
Qed.

Lemma evaluated_fields tgt r r' :
  evaluated tgt r r' ->
  Rocket.config r' = Rocket.config r
  /\ Rocket.pos r' = Rocket.pos r
  /\ Rocket.vel r' = Rocket.vel r
  /\ Rocket.dna r' = Rocket.dna r
  /\ Rocket.dna_length r' = Rocket.dna_length r
  /\ Rocket.current_step r' = Rocket.current_step r
  /\ Rocket.is_active r' = Rocket.is_active r.
Proof.
  unfold evaluated. destruct tgt as [tg|].
  - intros (f & ->). simpl. apply (evaluate_fitness_keeps r (Target.pos tg)).
  - intros ->. repeat split; done.
Qed.

Lemma spawn_generation_inv w g w' g' :
  0 <= World.dna_length w ->
  Population.dna_length (World.population w) = World.dna_length w ->
  Population.start_positions (World.population w) = World.start_positions w ->
  length (Population.dnas (World.population w)) = length (World.start_positions w) ->
  Forall (fun d => py_len (DNA.genes d) = World.dna_length w)
         (Population.dnas (World.population w)) ->
  World._spawn_generation w g = Ok (w', g') ->
  world_inv w'.
Proof.
  intros HL Hp Hs Hlen Hd Hsp.
  apply spawn_generation_Ok in Hsp
    as (Hr & _ & Hpop & HL' & Hsp' & _).
  unfold world_inv. rewrite Hpop, HL', Hsp'.
  repeat split; try done.
  eapply Forall2_transfer with (P := fun sd => py_len sd.2 = World.dna_length w);
    [| exact Hr |].
  - simpl. intros sd r (_ & _ & _ & Hdna & Hlen' & Hcs & _) Hsd.
    rewrite Hdna, Hlen', Hcs. repeat split; try done; lia.
  - apply Forall_forall. intros [p d] Hin. simpl.
    apply elem_of_zip_r in Hin. unfold Population.get_dnas in Hin.
    apply list_elem_of_fmap in Hin as (x & -> & Hx).
    rewrite Forall_forall in Hd. apply Hd. done.
Qed.

Lemma advance_inv w w1 :
  world_inv w -> World.advance w = Ok w1 -> world_inv w1.
Proof.
  intros (HL & Hp & Hs & Hlen & Hd & Hr) Hadv.
  apply advance_Ok in Hadv
    as (_ & Hpop & HL' & Hsp' & _ & _ & _ & _ & _ & Hrel & _).
  unfold world_inv. rewrite Hpop, HL', Hsp'. repeat split; try done.
  eapply Forall2_transfer; [| exact Hrel | exact Hr]. simpl.
  intros r r1 (ru & Hu & He) (H1 & H2 & H3).
  apply update_fields in Hu as (_ & Hd1 & HL1 & _ & _ & _ & _ & Hc1).
  apply evaluated_fields in He as (_ & _ & _ & Hd2 & HL2 & Hc2 & _).
  rewrite Hd2, HL2, Hc2, Hd1, HL1, Hc1.
  repeat split; try done.
  - destruct (_ && _); lia.
  - destruct (Rocket.is_active r); simpl; [| lia].
    destruct (Rocket.current_step r <? Rocket.dna_length r) eqn:E; [| lia].
    apply Z.ltb_lt in E. lia.
Qed.

Lemma step_inv c w g w' g' :
  world_inv w -> World.step c w g = Ok (w', g') ->
  world_inv w' /\ World.dna_length w' = World.dna_length w.
Proof.
  intros Hinv. unfold World.step.
  intros (w1 & g1 & [Hadv <-]%lift_Ok & H)%bind_Ok.
  pose proof (advance_inv w w1 Hinv Hadv) as Hinv1.
  pose proof (advance_Ok w w1 Hadv) as (_ & _ & HL1 & _).
  destruct (World._should_end_generation w1); [| apply ret_Ok in H as [<- _]; done].
  apply bind_Ok in H as (w2 & g2 & He & Hsp).
  destruct Hinv1 as (HL & Hp & Hs & Hlen & Hd & Hr).
  pose proof (end_generation_Ok c w1 g w2 g2 He)
    as (_ & HL2 & Hsp2 & _ & _ & _ & _ & _ & _ & Hnil & Hcons).
  assert (Hpop : Population.dna_length (World.population w2) = World.dna_length w1
                 /\ Population.start_positions (World.population w2)
                    = World.start_positions w1
                 /\ length (Population.dnas (World.population w2))
                    = length (World.start_positions w1)
                 /\ Forall (fun d => py_len (DNA.genes d) = World.dna_length w1)
                           (Population.dnas (World.population w2))).
  { destruct (World.get_rockets w1) as [|r rs] eqn:E.
    - destruct (Hnil eq_refl) as [-> _]. done.
    - destruct Hcons as (rockets & Hev & _ & Hng); [done |].
      apply next_generation_Ok in Hng as (H1 & H2 & _ & H3 & H4).
      + rewrite H1, H2, H3, Hp, Hs. rewrite Hp in H4. done.
      + lia.
      + rewrite Hp. eapply Forall2_transfer; [| exact Hev | exact Hr]. simpl.
        intros x y Hxy (Hx & _). apply evaluated_fields in Hxy.
        destruct Hxy as (_ & _ & _ & -> & _). done. }
  destruct Hpop as (P1 & P2 & P3 & P4).
  pose proof (spawn_generation_Ok w2 g2 w' g' Hsp) as (_ & _ & _ & HL3 & _).
  split; [| lia].
  eapply spawn_generation_inv; [| | | | | exact Hsp]; rewrite ?HL2, ?Hsp2; done.
Qed.

Lemma rockets_of_remove_first tg es :
  World.rockets_of (World.remove_first (World.is_target tg) es)
  = World.rockets_of es.
Proof.
  induction es as [|[t|r] es IH]; simpl; [done | |].
  - destruct (Nat.eqb _ _); done.
  - rewrite IH. done.
Qed.

Lemma set_target_keeps w x y radius :
  let w' := World.set_target w x y radius in
  World.get_rockets w' = World.get_rockets w
  /\ World.population w' = World.population w
  /\ World.dna_length w' = World.dna_length w
  /\ World.start_positions w' = World.start_positions w
  /\ World.max_steps_per_generation w' = World.max_steps_per_generation w
  /\ World.current_generation w' = World.current_generation w
  /\ World.stats w' = World.stats w
  /\ World.generation_step w' = World.generation_step w
  /\ exists ident, World.target w' = Some (Target.mk ident (x, y) radius).
Proof.
  simpl. unfold World.set_target, World.add_entity, World.get_rockets.
  assert (Hrem : forall tg,
             World.rockets_of (World.entities (World.remove_entity w tg))
             = World.rockets_of (World.entities w)
             /\ World.population (World.remove_entity w tg) = World.population w
             /\ World.dna_length (World.remove_entity w tg) = World.dna_length w
             /\ World.start_positions (World.remove_entity w tg)
                = World.start_positions w
             /\ World.max_steps_per_generation (World.remove_entity w tg)
                = World.max_steps_per_generation w
             /\ World.current_generation (World.remove_entity w tg)
                = World.current_generation w
             /\ World.stats (World.remove_entity w tg) = World.stats w
             /\ World.generation_step (World.remove_entity w tg)
                = World.generation_step w).
  { intros tg. unfold World.remove_entity.
    destruct (existsb _ _); [| repeat split; done].
    destruct (World.target w) as [cur|]; [destruct (Nat.eqb _ _) |]; simpl;
      rewrite rockets_of_remove_first; repeat split; done. }
  destruct (World.target w) as [tg|]; simpl.
  - destruct (Hrem tg) as (H1 & H2 & H3 & H4 & H5 & H6 & H7 & H8).
    rewrite rockets_of_app, H1. simpl. rewrite app_nil_r.
    repeat split; try done. eauto.
  - rewrite rockets_of_app. simpl. rewrite app_nil_r. repeat split; try done. eauto.
Qed.

Lemma set_target_inv w x y radius :
  world_inv w -> world_inv (World.set_target w x y radius).
Proof.
  unfold world_inv.
  destruct (set_target_keeps w x y radius) as (H1 & H2 & H3 & H4 & _).
  simpl in *. rewrite H1, H2, H3, H4. done.
Qed.

Lemma Population_init_Ok c sp L rate g p g' :
  0 <= L ->
  Population.init c sp L rate g = Ok (p, g') ->
  Population.dna_length p = L
  /\ Population.start_positions p = sp
  /\ length (Population.dnas p) = length sp
  /\ Forall (fun d => py_len (DNA.genes d) = L) (Population.dnas p).
Proof.
  intros HL. unfold Population.init.
  intros (ds & g1 & Hds & [<- _]%ret_Ok)%bind_Ok. simpl.
  repeat split; try done; [eapply mapM_length; eauto |].
  eapply mapM_Forall; [| exact Hds]. simpl. intros _ g2 d g3 _ Hr.
  apply DNA_random_Ok in Hr. unfold py_len. lia.
Qed.

Lemma init_inv c width height pop L rate g w g' :
  0 <= L ->
  World.init c width height pop L rate g = Ok (w, g') ->
  world_inv w /\ World.dna_length w = L
  /\ World.max_steps_per_generation w = L + 50.
Proof.
  intros HL. unfold World.init.
  intros (p & g1 & Hp & Hsp)%bind_Ok.
  apply Population_init_Ok in Hp as (P1 & P2 & P3 & P4); [| done].
  pose proof (spawn_generation_Ok _ _ _ _ Hsp)
    as (_ & _ & _ & HL' & _ & _ & _ & Hmax & _).
  simpl in HL', Hmax. split; [| done].
  eapply spawn_generation_inv; [| | | | | exact Hsp]; simpl; done.
Qed.

Lemma exec_inv c cmds w g w' g' :
  world_inv w -> exec c cmds w g = Ok (w', g') ->
  world_inv w' /\ World.dna_length w' = World.dna_length w.
Proof.
  revert w g. induction cmds as [|[|x y radius] cmds IH]; intros w g Hinv; simpl.
  - intros [<- _]%ret_Ok. done.
  - intros (w1 & g1 & Hs & He)%bind_Ok.
    destruct (step_inv c w g w1 g1 Hinv Hs) as [Hinv1 HL1].
    destruct (IH w1 g1 Hinv1 He) as [Hinv' HL']. split; [done | lia].
  - intros He. destruct (IH _ g (set_target_inv w x y radius Hinv) He) as [H1 H2].
    split; [done |]. rewrite H2.
    destruct (set_target_keeps w x y radius) as (_ & _ & H3 & _). exact H3.
Qed.

Lemma rockets_of_map_rockets f es :
  World.rockets_of (World.map_rockets f es) = map f (World.rockets_of es).
Proof.
  induction es as [|[t|r] es IH]; simpl; [done | done |]. rewrite IH. done.
Qed.

Lemma advance_total w :
  world_inv w -> exists w1, World.advance w = Ok w1.
Proof.
  intros (_ & _ & _ & _ & _ & Hr). unfold World.advance.
  destruct (update_all_total (World.entities w)) as (es & ->); [| eauto].
  eapply Forall_impl; [exact Hr |]. simpl. intros r (H1 & H2 & H3).
  apply update_total. lia.
Qed.

Lemma end_generation_total c w g :
  world_inv w -> 1 <= World.dna_length w ->
  exists w' g', World._end_generation c w g = Ok (w', g').
Proof.
  intros (_ & Hp & _ & _ & _ & Hr) HL. unfold World._end_generation.
  destruct (World.get_rockets w) as [|r rs] eqn:E; [unfold ret; eauto |].
  unfold bind.
  set (es := match World.target w with
             | Some tg => World.map_rockets _ (World.entities w)
             | None => World.entities w
             end).
  destruct (next_generation_total c (World.population w) (World.rockets_of es) g)
    as (p & g' & ->); [lia | | unfold ret; eauto].
  rewrite Hp. unfold es. destruct (World.target w) as [tg|].
  - rewrite rockets_of_map_rockets. apply Forall_map.
    unfold World.get_rockets in E. rewrite E.
    eapply Forall_impl; [exact Hr |]. simpl. intros x (Hx & _).
    destruct (evaluate_fitness_keeps x (Target.pos tg)) as (_ & _ & _ & -> & _).
    done.
  - unfold World.get_rockets in E. rewrite E.
    eapply Forall_impl; [exact Hr |]. simpl. intros x (Hx & _). done.
Qed.

Lemma step_total c w g :
  world_inv w -> 1 <= World.dna_length w ->
  exists w' g', World.step c w g = Ok (w', g').
Proof.
  intros Hinv HL. destruct (advance_total w Hinv) as (w1 & Hadv).
  pose proof (advance_inv w w1 Hinv Hadv) as Hinv1.
  pose proof (advance_Ok w w1 Hadv) as (_ & _ & HL1 & _).
  unfold World.step, bind at 1. unfold lift. rewrite Hadv.
  destruct (World._should_end_generation w1); [| unfold ret; eauto].
  unfold bind.
  destruct (end_generation_total c w1 g Hinv1) as (w2 & g2 & ->); [lia |].
  apply spawn_generation_total.
Qed.

Lemma exec_total c cmds w g :
  world_inv w -> 1 <= World.dna_length w ->
  exists w' g', exec c cmds w g = Ok (w', g').
Proof.
  revert w g. induction cmds as [|[|x y radius] cmds IH]; intros w g Hinv HL; simpl.
  - unfold ret; eauto.
  - destruct (step_total c w g Hinv HL) as (w1 & g1 & Hs).
    destruct (step_inv c w g w1 g1 Hinv Hs) as [Hinv1 HL1].
    unfold bind. rewrite Hs. apply IH; [done | lia].
  - apply IH; [apply set_target_inv; done |].
    pose proof (set_target_keeps w x y radius) as Hk. cbv zeta in Hk.
    destruct Hk as (_ & _ & H3 & _). rewrite H3. done.
Qed.

Lemma init_total c width height pop L rate g :
  exists w g', World.init c width height pop L rate g = Ok (w, g').
Proof.
  unfold World.init, bind.
  set (sp := map _ (seq 0 (Z.to_nat pop))).
  assert (Hp : exists p g1, Population.init c sp L rate g = Ok (p, g1)).
  { unfold Population.init, bind.
    destruct (mapM_total (fun _ : vec => DNA.random c L) sp g) as (ds & g1 & ->);
      [intros; apply DNA_random_total | unfold ret; eauto]. }
  destruct Hp as (p & g1 & ->). apply spawn_generation_total.
Qed.

(** *** Claim C6 *)

(** C6. Crossover of two parents of length L yields, whenever it returns,
    a child of length L, and it returns when L >= 1; [mutate] returns a
    genome of the length of its input for every mutation rate;
    [next_generation], in its random branch and in its breeding branch,
    leaves only genomes of length [dna_length] when the rockets' genomes
    have that length; and in every world reached from the constructor with
    a non-negative [dna_length] by any sequence of steps and target moves,
    every genome of the population and of the live rockets has exactly
    [dna_length] instructions.  With [dna_length >= 1] no such run raises. *)
Theorem genome_length_invariant (c : Config.t) :
  (forall a b g child g',
      length (DNA.genes a) = length (DNA.genes b) ->
      DNA.crossover a b g = Ok (child, g') ->
      length (DNA.genes child) = length (DNA.genes a))
  /\ (forall a b g,
         length (DNA.genes a) = length (DNA.genes b) ->
         (1 <= length (DNA.genes a))%nat ->
         exists child g',
           DNA.crossover a b g = Ok (child, g')
           /\ length (DNA.genes child) = length (DNA.genes a))
  /\ (forall a rate g,
         exists m g',
           DNA.mutate c a rate g = Ok (m, g')
           /\ length (DNA.genes m) = length (DNA.genes a))
  /\ (forall p rockets g p' g',
         0 <= Population.dna_length p ->
         Forall (fun r => py_len (Rocket.dna r) = Population.dna_length p) rockets ->
         Population.next_generation c p rockets g = Ok (p', g') ->
         Population.dna_length p' = Population.dna_length p
         /\ Forall (fun d => py_len (DNA.genes d) = Population.dna_length p)
                   (Population.dnas p'))
  /\ (forall width height pop L rate cmds g w g',
         0 <= L ->
         simulate c width height pop L rate cmds g = Ok (w, g') ->
         World.dna_length w = L
         /\ Population.dna_length (World.population w) = L
         /\ Forall (fun d => py_len (DNA.genes d) = L)
                   (Population.dnas (World.population w))
         /\ Forall (fun r => py_len (Rocket.dna r) = L) (World.get_rockets w))
  /\ (forall width height pop L rate cmds g,
         1 <= L ->
         exists w g', simulate c width height pop L rate cmds g = Ok (w, g')).
Proof.
  split; [| split; [| split; [| split; [| split]]]].
  - intros a b g child g' Hab Hc. eapply crossover_length; eauto.
  - intros a b g Hab Hlen.
    destruct (crossover_total a b g Hlen) as (child & g' & Hc).
    exists child, g'. split; [done |]. eapply crossover_length; eauto.
  - intros a rate g. destruct (mutate_total c a rate g) as (m & g' & Hm).
    exists m, g'. split; [done |]. eapply mutate_length; eauto.
  - intros p rockets g p' g' HL Hall Hn.
    apply next_generation_Ok in Hn as (H1 & _ & _ & _ & H2); done.
  - intros width height pop L rate cmds g w g' HL. unfold simulate.
    intros (w0 & g0 & Hi & He)%bind_Ok.
    apply init_inv in Hi as (Hinv0 & HL0 & _); [| done].
    destruct (exec_inv c cmds w0 g0 w g' Hinv0 He)
      as ((_ & Hp & _ & _ & Hd & Hr) & HLw).
    rewrite HL0 in HLw. rewrite HLw in *. repeat split; try done.
    eapply Forall_impl; [exact Hr |]. simpl. intros r (H & _). done.
  - intros width height pop L rate cmds g HL. unfold simulate, bind.
    destruct (init_total c width height pop L rate g) as (w0 & g0 & Hi).
    rewrite Hi. apply init_inv in Hi as (Hinv0 & HL0 & _); [| lia].
    apply exec_total; [done | lia].
Qed.

(** ** Physics: how far one update moves a rocket *)

Lemma hypot_triangle a b c d :
  (hypot (a + c) (b + d) <= hypot a b + hypot c d)%R.
Proof.
  pose proof (hypot_nonneg a b) as Hp. pose proof (hypot_nonneg c d) as Hq.
  pose proof (hypot_sqr a b) as Hp2. pose proof (hypot_sqr c d) as Hq2.
  apply hypot_le; [lra |].
  assert (Hcs : (a * c + b * d <= hypot a b * hypot c d)%R).
  { destruct (Rle_lt_dec (a * c + b * d) (hypot a b * hypot c d)) as [H|H]; [done |].
    exfalso.
    assert (H0 : (0 <= hypot a b * hypot c d)%R) by (apply Rmult_le_pos; done).
    assert (H1 : ((hypot a b * hypot c d) * (hypot a b * hypot c d)
                  < (a * c + b * d) * (a * c + b * d))%R) by nra.
    assert (H2 : ((hypot a b * hypot c d) * (hypot a b * hypot c d)
                  = (a * a + b * b) * (c * c + d * d))%R).
    { rewrite <- Hp2, <- Hq2. ring. }
    pose proof (Rle_0_sqr (a * d - b * c)) as H3. unfold Rsqr in H3.
    clear -H1 H2 H3. nra. }
  nra.
Qed.

Lemma hypot_opp a b : hypot (- a) (- b) = hypot a b.
Proof. unfold hypot. f_equal. ring. Qed.

Lemma limit_magnitude_norm v m :
  (0 <= m)%R -> (norm (Vector2D.limit_magnitude v m) <= m)%R.
Proof.
  intros Hm. unfold Vector2D.limit_magnitude.
  destruct (Rltb m (norm v)) eqn:E.
  - apply Rltb_true in E. destruct v as [x y]. unfold norm in *. simpl in *.
    set (n := hypot x y) in *.
    assert (Hn : (0 < n)%R) by lra.
    pose proof (hypot_sqr x y) as Hsq. fold n in Hsq.
    apply hypot_le; [done |].
    assert (Hunit : (x / n * (x / n) + y / n * (y / n) = 1)%R).
    { replace (x / n * (x / n) + y / n * (y / n))%R
        with ((x * x + y * y) / (n * n))%R by (field; lra).
      rewrite <- Hsq. field. lra. }
    replace (x / n * m * (x / n * m) + y / n * m * (y / n * m))%R
      with ((x / n * (x / n) + y / n * (y / n)) * (m * m))%R by ring.
    rewrite Hunit. lra.
  - apply Rltb_false in E. done.
Qed.

(** One update moves a rocket by a vector no longer than the velocity cap. *)
Lemma update_moves r r' :
  (0 <= RocketConfig.MAX_VELOCITY (Rocket.config r))%R ->
  Rocket.update r = Ok r' ->
  exists v, Rocket.pos r' = vadd (Rocket.pos r) v
            /\ (norm v <= RocketConfig.MAX_VELOCITY (Rocket.config r))%R.
Proof.
  intros Hm. unfold Rocket.update. destruct (Rocket.is_active r); simpl.
  - unfold Rocket._apply_thrust.
    destruct (Rocket.current_step r <? Rocket.dna_length r).
    + destruct (py_index (Rocket.dna r) (Rocket.current_step r)); [| discriminate].
      intros [= <-]. simpl. eexists. split; [reflexivity |].
      apply limit_magnitude_norm. done.
    + intros [= <-]. simpl. eexists. split; [reflexivity |].
      apply limit_magnitude_norm. done.
  - intros [= <-]. exists zeros. split.
    + destruct (Rocket.pos r) as [x y]. unfold vadd, zeros. simpl. f_equal; lra.
    + unfold norm, zeros. simpl. rewrite hypot_0. done.
Qed.

Lemma distance_after_move p v tp :
  (Vector2D.safe_distance (vadd p v) tp
   <= Vector2D.safe_distance p tp + norm v)%R
  /\ (Vector2D.safe_distance p tp - norm v
      <= Vector2D.safe_distance (vadd p v) tp)%R.
Proof.
  destruct p as [px py], v as [vx vy], tp as [tx ty].
  unfold Vector2D.safe_distance, norm, vsub, vadd. simpl. split.
  - replace (px + vx - tx)%R with ((px - tx) + vx)%R by ring.
    replace (py + vy - ty)%R with ((py - ty) + vy)%R by ring.
    apply hypot_triangle.
  - pose proof (hypot_triangle (px + vx - tx) (py + vy - ty) (- vx) (- vy)) as H.
    rewrite hypot_opp in H.
    replace (px + vx - tx + - vx)%R with (px - tx)%R in H by ring.
    replace (py + vy - ty + - vy)%R with (py - ty)%R in H by ring.
    lra.
Qed.

(** One update and one statistics pass of a rocket with the default
    configuration, against a target at [tp]. *)
Lemma advance_rocket tg r ru r1 :
  Rocket.config r = RocketConfig.default ->
  Rocket.update r = Ok ru ->
  evaluated (Some tg) ru r1 ->
  let d := Vector2D.safe_distance (Rocket.pos r) (Target.pos tg) in
  let d1 := Vector2D.safe_distance (Rocket.pos r1) (Target.pos tg) in
  Rocket.config r1 = RocketConfig.default
  /\ Rocket.dna_length r1 = Rocket.dna_length r
  /\ Rocket.is_active r1 = Rocket.is_active r
  /\ Rocket.current_step r1
     = (if Rocket.is_active r && (Rocket.current_step r <? Rocket.dna_length r)
        then Rocket.current_step r + 1 else Rocket.current_step r)
  /\ (d - 10 <= d1 <= d + 10)%R
  /\ Rocket.has_reached_target r1 = Rocket.has_reached_target r || Rleb d1 20.
Proof.
  intros Hc Hu (f & ->). simpl.
  destruct (update_moves r ru) as (v & Hpos & Hv); [rewrite Hc; simpl; lra | done |].
  rewrite Hc in Hv. simpl in Hv.
  pose proof (update_fields r ru Hu) as (U1 & _ & U3 & U4 & U5 & _ & _ & U8).
  destruct (evaluate_fitness_keeps ru (Target.pos tg)) as (E1 & E2 & _ & _ & E5 & E6 & E7).
  destruct (evaluate_fitness_flag ru (Target.pos tg)) as (F1 & _).
  simpl in *. rewrite E1, E2, E5, E6, E7, F1, U1, U3, U4, U5, U8, Hc, Hpos.
  destruct (distance_after_move (Rocket.pos r) v (Target.pos tg)) as [D1 D2].
  repeat split; try done; lra.
Qed.

(** ** The cumulative count of arrivals *)

Lemma step_no_end c w g w1 :
  World.advance w = Ok w1 ->
  World._should_end_generation w1 = false ->
  World.step c w g = Ok (w1, g).
Proof.
  intros Hadv Hend. unfold World.step, bind, lift. rewrite Hadv, Hend. done.
Qed.

Lemma distance_self p : Vector2D.safe_distance p p = 0%R.
Proof.
  destruct p as [x y]. unfold Vector2D.safe_distance, norm, vsub. simpl.
  replace (x - x)%R with 0%R by lra. replace (y - y)%R with 0%R by lra.
  apply hypot_0.
Qed.

Lemma distance_along_x x1 x2 y :
  (x2 <= x1)%R -> Vector2D.safe_distance (x1, y) (x2, y) = (x1 - x2)%R.
Proof.
  intros H. unfold Vector2D.safe_distance, norm, vsub. simpl.
  replace (y - y)%R with 0%R by lra. rewrite hypot_axis.
  apply Rabs_pos_eq. lra.
Qed.

(** A step of a world with a target and two rockets of the default
    configuration: [a] carries the flag or is within 10 of the target, [b]
    is farther than 30 from it, unmarked, active and has at least two
    instructions left, and the step cap is not reached.  The generation
    goes on, and the cumulative count grows by one: the rocket [a] is
    counted in this step whether or not it was counted before. *)
Lemma step_counts_flagged c w g tg a b :
  world_inv w ->
  World.target w = Some tg ->
  World.get_rockets w = [a; b] ->
  Rocket.config a = RocketConfig.default ->
  Rocket.config b = RocketConfig.default ->
  Rocket.is_active b = true ->
  Rocket.has_reached_target b = false ->
  Rocket.current_step b + 1 < Rocket.dna_length b ->
  World.generation_step w + 1 < World.max_steps_per_generation w ->
  (Rocket.has_reached_target a = true
   \/ (Vector2D.safe_distance (Rocket.pos a) (Target.pos tg) <= 10)%R) ->
  (30 < Vector2D.safe_distance (Rocket.pos b) (Target.pos tg))%R ->
  exists w1 a1 b1,
    World.step c w g = Ok (w1, g)
    /\ world_inv w1
    /\ World.target w1 = Some tg
    /\ World.get_rockets w1 = [a1; b1]
    /\ Rocket.config a1 = RocketConfig.default
    /\ Rocket.config b1 = RocketConfig.default
    /\ Rocket.is_active b1 = true
    /\ Rocket.has_reached_target a1 = true
    /\ Rocket.has_reached_target b1 = false
    /\ Rocket.current_step b1 = Rocket.current_step b + 1
    /\ Rocket.dna_length b1 = Rocket.dna_length b
    /\ (Vector2D.safe_distance (Rocket.pos b) (Target.pos tg) - 10
        <= Vector2D.safe_distance (Rocket.pos b1) (Target.pos tg))%R
    /\ World.generation_step w1 = World.generation_step w + 1
    /\ World.max_steps_per_generation w1 = World.max_steps_per_generation w
    /\ World.current_generation w1 = World.current_generation w
    /\ Stats.total_rockets_reached_target (World.stats w1)
       = Stats.total_rockets_reached_target (World.stats w) + 1.
Proof.
  intros Hinv Htg Hrs Hca Hcb Hab Hfb Hcs Hcap Hnear Hfar.
  destruct (advance_total w Hinv) as (w1 & Hadv).
  pose proof (advance_inv w w1 Hinv Hadv) as Hinv1.
  pose proof (advance_Ok w w1 Hadv)
    as (Ht & _ & _ & _ & _ & _ & Hmax & Hgen & Hstep & Hrel & Htot).
  rewrite Hrs, Htg in Hrel. rewrite Htg in Htot.
  destruct (World.get_rockets w1) as [|a1 [|b1 [|x rest]]] eqn:Hrs1;
    try (exfalso; apply Forall2_length in Hrel; simpl in Hrel; lia).
  apply Forall2_cons in Hrel as [(au & Hau & Hae) Hrel].
  apply Forall2_cons in Hrel as [(bu & Hbu & Hbe) _].
  pose proof (advance_rocket tg a au a1 Hca Hau Hae)
    as (A1 & _ & _ & _ & A5 & A6).
  pose proof (advance_rocket tg b bu b1 Hcb Hbu Hbe)
    as (B1 & B2 & B3 & B4 & B5 & B6).
  cbv zeta in A5, A6, B5, B6.
  assert (Hfa1 : Rocket.has_reached_target a1 = true).
  { rewrite A6. destruct Hnear as [-> | Hd]; [done |].
    apply orb_true_iff. right. apply Rleb_true. lra. }
  assert (Hfb1 : Rocket.has_reached_target b1 = false).
  { rewrite B6, Hfb. simpl. apply Rleb_false. lra. }
  assert (Hcs1 : Rocket.current_step b1 = Rocket.current_step b + 1).
  { rewrite B4, Hab. simpl.
    assert ((Rocket.current_step b <? Rocket.dna_length b) = true) as ->
        by (apply Z.ltb_lt; lia).
    done. }
  assert (Hend : World._should_end_generation w1 = false).
  { unfold World._should_end_generation. rewrite Hrs1, Hmax, Hstep.
    assert ((World.max_steps_per_generation w <=? World.generation_step w + 1)
            = false) as -> by (apply Z.leb_gt; lia).
    simpl. unfold World.still_running at 2. rewrite Hfb1, Hcs1, B2.
    assert ((Rocket.current_step b + 1 <? Rocket.dna_length b) = true) as ->
        by (apply Z.ltb_lt; lia).
    simpl. rewrite orb_true_r. done. }
  exists w1, a1, b1. rewrite (step_no_end c w g w1 Hadv Hend).
  split; [reflexivity |]. split; [exact Hinv1 |].
  repeat split; try done; try congruence; try lra.
  rewrite Htot. unfold count_reached. simpl. rewrite Hfa1, Hfb1. simpl. lia.
Qed.

Lemma Forall2_zip_l {A B C} (Q : A -> B -> C -> Prop) (l : list A) (k : list B) rs :
  length l = length k ->
  Forall2 (fun ab r => Q ab.1 ab.2 r) (zip l k) rs ->
  Forall2 (fun a r => exists b, Q a b r) l rs.
Proof.
  revert k rs. induction l as [|a l IH]; intros [|b k] rs Hlen H;
    try discriminate Hlen; simpl in H.
  - inversion H. constructor.
  - inversion H as [|ab r zs rs' Hab Hrest]; subst. simpl in Hab.
    constructor; [eauto |]. apply (IH k); [simpl in Hlen; lia | exact Hrest].
Qed.

(** The world that the constructor returns: generation 1, step 0, nothing
    counted, and one newborn rocket per start position. *)
Lemma init_rockets c width height pop L rate g w0 g0 :
  0 <= L ->
  World.init c width height pop L rate g = Ok (w0, g0) ->
  world_inv w0
  /\ World.max_steps_per_generation w0 = L + 50
  /\ World.current_generation w0 = 1
  /\ World.generation_step w0 = 0
  /\ Stats.total_rockets_reached_target (World.stats w0) = 0
  /\ Forall2 (fun p r => exists d, newborn L p d r)
             (map (fun i : nat =>
                     (IZR (Z.quot ((Z.of_nat i + 1) * width) (pop + 1)),
                      IZR (height - 50)))
                  (seq 0 (Z.to_nat pop)))
             (World.get_rockets w0).
Proof.
  intros HL Hi.
  destruct (init_inv c width height pop L rate g w0 g0 HL Hi) as (Hinv & _ & Hmax).
  unfold World.init in Hi.
  apply bind_Ok in Hi as (p & g1 & Hp & Hsp).
  apply Population_init_Ok in Hp as (_ & P2 & P3 & _); [| done].
  apply spawn_generation_Ok in Hsp
    as (Hr & _ & _ & _ & _ & _ & _ & _ & Hgen & Hstep & Htot).
  cbn [World.start_positions World.population World.dna_length
       World.current_generation World.stats
       Stats.total_rockets_reached_target] in Hr, Hgen, Htot.
  split; [done |]. split; [done |]. split; [lia |]. split; [done |].
  split; [done |].
  apply (Forall2_zip_l (fun a b r => newborn L a b r) _
           (Population.get_dnas p)); [| exact Hr].
  unfold Population.get_dnas. rewrite <- P3. symmetry. apply length_map.
Qed.

Lemma start_positions_300 :
  map (fun i : nat =>
         (IZR (Z.quot ((Z.of_nat i + 1) * 300) (2 + 1)), IZR (200 - 50)))
      (seq 0 (Z.to_nat 2))
  = [(100, 150)%R; (200, 150)%R].
Proof.
  replace (Z.to_nat 2) with 2%nat by reflexivity. cbn [seq map].
  replace (Z.quot ((Z.of_nat 0 + 1) * 300) (2 + 1)) with 100 by reflexivity.
  replace (Z.quot ((Z.of_nat 1 + 1) * 300) (2 + 1)) with 200 by reflexivity.
  replace (200 - 50) with 150 by reflexivity. reflexivity.
Qed.

(** *** Claim C1 *)

(** C1, the code at a failing input.  For every seed and every gene
    configuration: [World(300, 200, population_size=2, dna_length=5)] with
    the target set at (100, 150), radius 20, is stepped twice.  Both steps
    stay in generation 1 with the same two rockets, exactly one of which
    has reached the target; yet [total_rockets_reached_target] is 1 after
    the first step and 2 after the second: the one arrival is counted again
    by the second step. *)
Theorem total_reached_counts_again (c : Config.t) (rate : R) (g : rng) :
  exists w0 g0 w1 w2,
    World.init c 300 200 2 5 rate g = Ok (w0, g0)
    /\ Stats.total_rockets_reached_target (World.stats w0) = 0
    /\ World.step c (World.set_target w0 100 150 20) g0 = Ok (w1, g0)
    /\ World.step c w1 g0 = Ok (w2, g0)
    /\ World.current_generation w1 = 1
    /\ World.current_generation w2 = 1
    /\ length (World.get_rockets w2) = 2%nat
    /\ count_reached (World.get_rockets w1) = 1
    /\ count_reached (World.get_rockets w2) = 1
    /\ Stats.total_rockets_reached_target (World.stats w1) = 1
    /\ Stats.total_rockets_reached_target (World.stats w2) = 2.
Proof.
  destruct (init_total c 300 200 2 5 rate g) as (w0 & g0 & Hi).
  exists w0, g0.
  assert (H5 : 0 <= 5) by lia.
  pose proof (init_rockets c 300 200 2 5 rate g w0 g0 H5 Hi)
    as (Hinv & Hmax & Hgen & Hstep & Htot & Hrs).
  rewrite start_positions_300 in Hrs.
  cut (exists w1 w2,
          Stats.total_rockets_reached_target (World.stats w0) = 0
          /\ World.step c (World.set_target w0 100 150 20) g0 = Ok (w1, g0)
          /\ World.step c w1 g0 = Ok (w2, g0)
          /\ World.current_generation w1 = 1
          /\ World.current_generation w2 = 1
          /\ length (World.get_rockets w2) = 2%nat
          /\ count_reached (World.get_rockets w1) = 1
          /\ count_reached (World.get_rockets w2) = 1
          /\ Stats.total_rockets_reached_target (World.stats w1) = 1
          /\ Stats.total_rockets_reached_target (World.stats w2) = 2).
  { intros (w1 & w2 & H). exists w1, w2. split; [exact Hi | exact H]. }
  clear Hi H5.
  destruct (World.get_rockets w0) as [|a [|b [|x rest]]] eqn:Hrockets;
    try (exfalso; apply Forall2_length in Hrs; simpl in Hrs; lia).
  apply Forall2_cons in Hrs as [(da & Ha) Hrs].
  apply Forall2_cons in Hrs as [(db & Hb) _].
  destruct Ha as (Ca & Pa & _ & _ & _ & _ & Fa & _).
  destruct Hb as (Cb & Pb & _ & _ & Lb & Sb & Fb & _ & Ab).
  pose proof (set_target_keeps w0 100 150 20) as Hk. cbv zeta in Hk.
  destruct Hk as (K1 & _ & _ & _ & K5 & K6 & K7 & K8 & (ident & K9)).
  remember (World.set_target w0 100 150 20) as ws eqn:Hws.
  remember (Target.mk ident (100, 150)%R 20) as tg eqn:Htg.
  assert (Ptg : Target.pos tg = (100, 150)%R) by (rewrite Htg; reflexivity).
  assert (Da : Vector2D.safe_distance (Rocket.pos a) (Target.pos tg) = 0%R).
  { rewrite Pa, Ptg. apply distance_self. }
  assert (Db : Vector2D.safe_distance (Rocket.pos b) (Target.pos tg) = 100%R).
  { rewrite Pb, Ptg. rewrite distance_along_x by lra. lra. }
  destruct (step_counts_flagged c ws g0 tg a b)
    as (w1 & a1 & b1 & S1 & Inv1 & T1 & R1 & Ca1 & Cb1 & Ab1 & Fa1 & Fb1 & Sb1
        & Lb1 & Db1 & G1 & M1 & Gen1 & Tot1).
  { rewrite Hws. apply set_target_inv. exact Hinv. }
  { exact K9. }
  { rewrite K1. exact Hrockets. }
  { exact Ca. }
  { exact Cb. }
  { exact Ab. }
  { exact Fb. }
  { rewrite Sb, Lb. lia. }
  { rewrite K8, K5, Hstep, Hmax. lia. }
  { right. rewrite Da. lra. }
  { rewrite Db. lra. }
  destruct (step_counts_flagged c w1 g0 tg a1 b1)
    as (w2 & a2 & b2 & S2 & Inv2 & T2 & R2 & Ca2 & Cb2 & Ab2 & Fa2 & Fb2 & Sb2
        & Lb2 & Db2 & G2 & M2 & Gen2 & Tot2).
  { exact Inv1. }
  { exact T1. }
  { exact R1. }
  { exact Ca1. }
  { exact Cb1. }
  { exact Ab1. }
  { exact Fb1. }
  { rewrite Sb1, Lb1, Sb, Lb. lia. }
  { rewrite G1, M1, K8, K5, Hstep, Hmax. lia. }
  { left. exact Fa1. }
  { rewrite Db in Db1. lra. }
  exists w1, w2.
  assert (Hcount : forall x y,
             Rocket.has_reached_target x = true ->
             Rocket.has_reached_target y = false ->
             count_reached [x; y] = 1).
  { intros x y Hx Hy. unfold count_reached. simpl. rewrite Hx, Hy. reflexivity. }
  split; [exact Htot |]. split; [exact S1 |]. split; [exact S2 |].
  split; [rewrite Gen1, K6; exact Hgen |].
  split; [rewrite Gen2, Gen1, K6; exact Hgen |].
  split; [rewrite R2; reflexivity |].
  split; [rewrite R1; apply Hcount; assumption |].
  split; [rewrite R2; apply Hcount; assumption |].
  split; [rewrite Tot1, K7, Htot; reflexivity |].
  rewrite Tot2, Tot1, K7, Htot. reflexivity.
Qed.

(** ** Instances *)

(** In a world without rockets the step ends the generation. *)
Lemma step_ends_generation_iff_witness :
  World.max_steps_per_generation empty_world = World.dna_length empty_world + 50
  /\ World.advance empty_world = Ok (World.set_generation_step 1 empty_world)
  /\ generation_over (World.set_generation_step 1 empty_world)
  /\ World._should_end_generation (World.set_generation_step 1 empty_world) = true.
Proof.
  assert (H1 : World.max_steps_per_generation empty_world
               = World.dna_length empty_world + 50) by reflexivity.
  assert (H2 : World.advance empty_world
               = Ok (World.set_generation_step 1 empty_world)) by reflexivity.
  assert (H3 : generation_over (World.set_generation_step 1 empty_world))
    by (left; reflexivity).
  split; [exact H1 |]. split; [exact H2 |]. split; [exact H3 |].
  destruct (step_ends_generation_iff config0 empty_world
              (World.set_generation_step 1 empty_world) rng0 H1 H2) as (Hiff & _).
  apply Hiff. exact H3.
Defined.

(** Mutation at rate 0 of the one-gene genome of [store0]. *)
Lemma mutate_rate0_independent_witness :
  Forall (fun l => l ∈ dom store0) genome0
  /\ exists gs' h' g',
       DNAStore.mutate config0 0 genome0 store0 rng0 = Ok ((gs', h'), g')
       /\ DNAStore.values h' gs' = DNAStore.values store0 genome0
       /\ (forall l, l ∈ gs' -> l ∉ genome0)
       /\ (forall l v, l ∈ gs' ->
             DNAStore.values (DNAStore.write h' l v) genome0
             = DNAStore.values store0 genome0).
Proof.
  assert (Hwf : Forall (fun l => l ∈ dom store0) genome0).
  { constructor; [| constructor]. unfold store0. rewrite dom_singleton_L.
    apply elem_of_singleton. reflexivity. }
  split; [exact Hwf |].
  destruct (mutate_rate0_independent config0 genome0 store0 rng0 Hwf)
    as (gs' & h' & g' & H1 & H2 & _ & H4 & H5 & _).
  exists gs', h', g'. split; [exact H1 |]. split; [exact H2 |].
  split; [exact H4 | exact H5].
Defined.

(** The normalized fitnesses of a single rocket. *)
Lemma normalized_sum_positive_witness :
  [resting_rocket (0, 0)%R] <> []
  /\ (1 <= py_sum (Population._get_normalized_fitnesses [resting_rocket (0, 0)%R]))%R
  /\ Reqb (py_sum (Population._get_normalized_fitnesses [resting_rocket (0, 0)%R])) 0
     = false.
Proof.
  assert (Hne : [resting_rocket (0, 0)%R] <> []) by discriminate.
  split; [exact Hne |].
  destruct (normalized_sum_positive [resting_rocket (0, 0)%R] Hne)
    as (_ & H1 & H2 & _).
  split; [exact H1 | exact H2].
Defined.

(** Five updates of a rocket with two instructions: the cursor stops at 2
    and no fuel remains. *)
Lemma cursor_bounded_witness :
  Rocket.current_step (resting_rocket (0, 0)%R)
  <= Rocket.dna_length (resting_rocket (0, 0)%R)
  /\ exists r',
       updates 5 (resting_rocket (0, 0)%R) = Ok r'
       /\ Rocket.current_step r' = 2
       /\ Rocket.st_fuel_remaining (Rocket.get_state r') = 0.
Proof.
  assert (Hle : Rocket.current_step (resting_rocket (0, 0)%R)
                <= Rocket.dna_length (resting_rocket (0, 0)%R))
    by (simpl; lia).
  split; [exact Hle |].
  destruct (cursor_bounded (resting_rocket (0, 0)%R) 5 Hle) as (_ & Hn & Htot).
  destruct Htot as (r' & Hr'); [simpl; lia | reflexivity |].
  exists r'. split; [exact Hr' |].
  destruct (Hn r' Hr') as (HL & _ & Hc & _ & Hf & _).
  simpl in HL, Hc. split; [exact Hc |]. rewrite Hf, HL, Hc. reflexivity.
Defined.

(** * Further properties of the code *)

(** ** The velocity cap *)

Lemma hypot_scaled_unit x y n m :
  (0 < n)%R -> (n * n = x * x + y * y)%R ->
  (x / n * m * (x / n * m) + y / n * m * (y / n * m) = m * m)%R.
Proof.
  intros Hn Hsq.
  replace (x / n * m * (x / n * m) + y / n * m * (y / n * m))%R
    with ((x * x + y * y) / (n * n) * (m * m))%R by (field; lra).
  rewrite <- Hsq. field. lra.
Qed.

Lemma limit_magnitude_long v m :
  (0 <= m)%R -> (m < norm v)%R ->
  norm (Vector2D.limit_magnitude v m) = m
  /\ Vector2D.limit_magnitude v m = vscale v (m / norm v).
Proof.
  intros Hm Hlong. unfold Vector2D.limit_magnitude.
  assert (Rltb m (norm v) = true) as -> by (apply Rltb_true; done).
  destruct v as [x y]. unfold norm in *. simpl in *.
  set (n := hypot x y) in *.
  assert (Hn : (0 < n)%R) by lra.
  pose proof (hypot_sqr x y) as Hsq. fold n in Hsq. split.
  - unfold hypot. rewrite (hypot_scaled_unit x y n m Hn Hsq).
    apply sqrt_square. done.
  - unfold vscale, vdiv. simpl. f_equal; field; lra.
Qed.

(** X1. [limit_magnitude] with a non-negative cap: a vector no longer than
    the cap is returned as it is; a longer one is rescaled, in its own
    direction, to exactly the cap; so the result is never longer than the
    cap. *)
Theorem limit_magnitude_spec (v : vec) (m : R) :
  (0 <= m)%R ->
  ((norm v <= m)%R -> Vector2D.limit_magnitude v m = v)
  /\ ((m < norm v)%R ->
      norm (Vector2D.limit_magnitude v m) = m
      /\ Vector2D.limit_magnitude v m = vscale v (m / norm v)
      /\ (0 <= m / norm v <= 1)%R)
  /\ (norm (Vector2D.limit_magnitude v m) <= m)%R.
Proof.
  intros Hm. split; [| split].
  - intros Hshort. unfold Vector2D.limit_magnitude.
    assert (Rltb m (norm v) = false) as -> by (apply Rltb_false; done). done.
  - intros Hlong. destruct (limit_magnitude_long v m Hm Hlong) as [H1 H2].
    split; [done |]. split; [done |].
    assert (Hn : (0 < norm v)%R) by lra. split.
    + apply Rmult_le_pos; [done | left; apply Rinv_0_lt_compat; done].
    + apply Rmult_le_reg_r with (norm v); [done |].
      unfold Rdiv. rewrite Rmult_assoc, Rinv_l by lra. lra.
  - apply limit_magnitude_norm. done.
Qed.

(** The vector (30, 0) under a cap of 10. *)
Lemma limit_magnitude_spec_witness :
  (0 <= 10)%R /\ (norm (Vector2D.limit_magnitude (30, 0)%R 10) <= 10)%R.
Proof.
  assert (H : (0 <= 10)%R) by lra. split; [exact H |].
  destruct (limit_magnitude_spec (30, 0)%R 10 H) as (_ & _ & H3). exact H3.
Defined.

Lemma distance_to_moved p v : Vector2D.safe_distance (vadd p v) p = norm v.
Proof.
  destruct p as [px py], v as [vx vy].
  unfold Vector2D.safe_distance, norm, vsub, vadd. simpl.
  replace (px + vx - px)%R with vx by ring.
  replace (py + vy - py)%R with vy by ring. done.
Qed.

Lemma distance_triangle a b c :
  (Vector2D.safe_distance a c
   <= Vector2D.safe_distance a b + Vector2D.safe_distance b c)%R.
Proof.
  destruct a as [ax ay], b as [bx b_y], c as [cx cy].
  unfold Vector2D.safe_distance, norm, vsub. simpl.
  replace (ax - cx)%R with ((ax - bx) + (bx - cx))%R by ring.
  replace (ay - cy)%R with ((ay - b_y) + (b_y - cy))%R by ring.
  apply hypot_triangle.
Qed.

(** One update: an inactive rocket is left as it is; an active one gets a
    velocity within the cap and moves by exactly that velocity. *)
Lemma update_velocity r r' :
  (0 <= RocketConfig.MAX_VELOCITY (Rocket.config r))%R ->
  Rocket.update r = Ok r' ->
  (Rocket.is_active r = false /\ r' = r)
  \/ (Rocket.is_active r = true
      /\ Rocket.pos r' = vadd (Rocket.pos r) (Rocket.vel r')
      /\ (norm (Rocket.vel r') <= RocketConfig.MAX_VELOCITY (Rocket.config r))%R).
Proof.
  intros Hm. unfold Rocket.update. destruct (Rocket.is_active r); simpl.
  - intros H. right. split; [done |]. revert H. unfold Rocket._apply_thrust.
    destruct (Rocket.current_step r <? Rocket.dna_length r).
    + destruct (py_index (Rocket.dna r) (Rocket.current_step r)); [| discriminate].
      intros [= <-]. simpl. split; [done |]. apply limit_magnitude_norm. done.
    + intros [= <-]. simpl. split; [done |]. apply limit_magnitude_norm. done.
  - intros [= <-]. left. done.
Qed.

(** X2. With a non-negative velocity cap, a rocket whose speed is within
    the cap keeps a speed within the cap through any number of updates, and
    after [n] updates it is no farther than [n] times the cap from where it
    was. *)
Theorem speed_capped (r r' : Rocket.t) (n : nat) :
  (0 <= RocketConfig.MAX_VELOCITY (Rocket.config r))%R ->
  (norm (Rocket.vel r) <= RocketConfig.MAX_VELOCITY (Rocket.config r))%R ->
  updates n r = Ok r' ->
  (norm (Rocket.vel r') <= RocketConfig.MAX_VELOCITY (Rocket.config r))%R
  /\ (Vector2D.safe_distance (Rocket.pos r') (Rocket.pos r)
      <= INR n * RocketConfig.MAX_VELOCITY (Rocket.config r))%R.
Proof.
  revert r. induction n as [|n IH]; intros r Hm Hv; simpl.
  - intros [= <-]. split; [done |]. rewrite distance_self. lra.
  - destruct (Rocket.update r) as [r1|] eqn:Hu; [| discriminate]. intros Hn.
    pose proof (update_fields r r1 Hu) as (Hc & _).
    assert (H1 : (norm (Rocket.vel r1) <= RocketConfig.MAX_VELOCITY (Rocket.config r))%R
                 /\ (Vector2D.safe_distance (Rocket.pos r1) (Rocket.pos r)
                     <= RocketConfig.MAX_VELOCITY (Rocket.config r))%R).
    { destruct (update_velocity r r1 Hm Hu) as [[_ ->] | (_ & Hp & Hv1)].
      - split; [done |]. rewrite distance_self. done.
      - split; [done |]. rewrite Hp, distance_to_moved. done. }
    destruct H1 as [Hv1 Hd1].
    destruct (IH r1) as [Hv' Hd']; [rewrite Hc; done | rewrite Hc; done | done |].
    rewrite Hc in Hv', Hd'. split; [done |].
    pose proof (distance_triangle (Rocket.pos r') (Rocket.pos r1) (Rocket.pos r)).
    destruct n; simpl in *; lra.
Qed.

(** Three updates of a rocket at rest. *)
Lemma speed_capped_witness :
  exists r',
    updates 3 (resting_rocket (0, 0)%R) = Ok r'
    /\ (norm (Rocket.vel r') <= 10)%R
    /\ (Vector2D.safe_distance (Rocket.pos r') (0, 0)%R <= INR 3 * 10)%R.
Proof.
  destruct (updates_total 3 (resting_rocket (0, 0)%R)) as (r' & Hr');
    [simpl; lia | reflexivity |].
  exists r'. split; [exact Hr' |].
  apply (speed_capped (resting_rocket (0, 0)%R) r' 3).
  - simpl. lra.
  - unfold norm. simpl. rewrite hypot_0. lra.
  - exact Hr'.
Defined.

(** ** The trail *)

Lemma update_trail r r' :
  Rocket.is_active r = true ->
  Rocket.update r = Ok r' ->
  Rocket.trail r'
  = (if RocketConfig.MAX_TRAIL_LENGTH (Rocket.config r)
        <? py_len (Rocket.trail r ++ [Rocket.pos r'])
     then tail (Rocket.trail r ++ [Rocket.pos r'])
     else Rocket.trail r ++ [Rocket.pos r']).
Proof.
  intros Ha. unfold Rocket.update. rewrite Ha. simpl.
  unfold Rocket._apply_thrust.
  destruct (Rocket.current_step r <? Rocket.dna_length r).
  - destruct (py_index (Rocket.dna r) (Rocket.current_step r)); [| discriminate].
    intros [= <-]. reflexivity.
  - intros [= <-]. reflexivity.
Qed.

Lemma trail_step (tr : list vec) (p : vec) (cap : Z) :
  0 <= cap -> py_len tr <= cap ->
  let tr' := if cap <? py_len (tr ++ [p]) then tail (tr ++ [p]) else tr ++ [p] in
  py_len tr' = Z.min (py_len tr + 1) cap
  /\ (1 <= cap -> last tr' = Some p).
Proof.
  intros Hcap Hlen. simpl. unfold py_len in *. rewrite length_app. simpl.
  destruct (cap <? Z.of_nat (length tr + 1)) eqn:E.
  - apply Z.ltb_lt in E. destruct tr as [|x tr]; simpl in *.
    + split; [lia |]. intros H1. lia.
    + rewrite length_app. simpl. split; [lia |]. intros _. apply last_snoc.
  - apply Z.ltb_ge in E. rewrite length_app. simpl. split; [lia |].
    intros _. apply last_snoc.
Qed.

(** X3. The trail of an active rocket is a bounded window: when the cap
    [MAX_TRAIL_LENGTH] is not negative and the trail is within it, after [n]
    updates the trail holds [min (length + n) MAX_TRAIL_LENGTH] positions,
    and (for a cap of at least 1 and [n >= 1]) its last entry is the
    rocket's current position. *)
Theorem trail_bounded (r r' : Rocket.t) (n : nat) :
  0 <= RocketConfig.MAX_TRAIL_LENGTH (Rocket.config r) ->
  py_len (Rocket.trail r) <= RocketConfig.MAX_TRAIL_LENGTH (Rocket.config r) ->
  Rocket.is_active r = true ->
  updates n r = Ok r' ->
  py_len (Rocket.trail r')
  = Z.min (py_len (Rocket.trail r) + Z.of_nat n)
          (RocketConfig.MAX_TRAIL_LENGTH (Rocket.config r))
  /\ (1 <= RocketConfig.MAX_TRAIL_LENGTH (Rocket.config r) -> (1 <= n)%nat ->
      last (Rocket.trail r') = Some (Rocket.pos r')).
Proof.
  revert r. induction n as [|n IH]; intros r Hcap Hlen Ha; simpl.
  - intros [= <-]. split; [lia |]. intros _ H. lia.
  - destruct (Rocket.update r) as [r1|] eqn:Hu; [| discriminate]. intros Hn.
    pose proof (update_fields r r1 Hu) as (Hc & _ & _ & Ha1 & _).
    pose proof (update_trail r r1 Ha Hu) as Ht.
    pose proof (trail_step (Rocket.trail r) (Rocket.pos r1) _ Hcap Hlen) as [L1 L2].
    cbv zeta in L1, L2. rewrite <- Ht in L1, L2.
    destruct (IH r1) as [I1 I2]; [rewrite Hc; done | rewrite Hc, L1; lia
                                 | rewrite Ha1; done | done |].
    rewrite Hc in I1, I2. split; [rewrite I1, L1; lia |].
    intros H1 _. destruct n as [|n]; [| apply I2; [done | lia]].
    simpl in Hn. injection Hn as <-. apply L2. done.
Qed.

(** Sixty updates of a rocket whose trail cap is 50. *)
Lemma trail_bounded_witness :
  exists r',
    updates 60 (resting_rocket (0, 0)%R) = Ok r'
    /\ py_len (Rocket.trail r') = 50
    /\ last (Rocket.trail r') = Some (Rocket.pos r').
Proof.
  destruct (updates_total 60 (resting_rocket (0, 0)%R)) as (r' & Hr');
    [simpl; lia | reflexivity |].
  exists r'. split; [exact Hr' |].
  assert (H0 : 0 <= RocketConfig.MAX_TRAIL_LENGTH
                      (Rocket.config (resting_rocket (0, 0)%R))) by (simpl; lia).
  assert (H1 : py_len (Rocket.trail (resting_rocket (0, 0)%R))
               <= RocketConfig.MAX_TRAIL_LENGTH
                    (Rocket.config (resting_rocket (0, 0)%R)))
    by (unfold py_len; simpl; lia).
  destruct (trail_bounded (resting_rocket (0, 0)%R) r' 60 H0 H1 eq_refl Hr')
    as [T1 T2].
  split; [exact T1 |]. apply T2; [simpl; lia | lia].
Defined.

(** ** Out of fuel *)

Lemma hypot_damped x y k :
  (0 <= k <= 1)%R -> (hypot (x * k) (y * k) <= hypot x y)%R.
Proof.
  intros Hk. apply hypot_le; [apply hypot_nonneg |].
  rewrite hypot_sqr.
  assert (0 <= x * x + y * y)%R by nra.
  replace (x * k * (x * k) + y * k * (y * k))%R
    with ((x * x + y * y) * (k * k))%R by ring.
  assert (k * k <= 1)%R by nra. nra.
Qed.

(** X4. An active rocket whose step cursor has reached [dna_length] is out
    of fuel: its update raises nothing, sets the acceleration to the zero
    vector and leaves the cursor alone; with a damping factor in [0, 1] and
    a speed within the cap, the velocity is exactly the damped old velocity
    (the cap does not act), the rocket moves by it, and its speed does not
    grow. *)
Theorem out_of_fuel_coasts (r : Rocket.t) :
  Rocket.is_active r = true ->
  Rocket.dna_length r <= Rocket.current_step r ->
  (0 <= RocketConfig.VELOCITY_DAMPING (Rocket.config r) <= 1)%R ->
  (norm (Rocket.vel r) <= RocketConfig.MAX_VELOCITY (Rocket.config r))%R ->
  exists r',
    Rocket.update r = Ok r'
    /\ Rocket.acc r' = zeros
    /\ Rocket.current_step r' = Rocket.current_step r
    /\ Rocket.vel r'
       = vscale (Rocket.vel r) (RocketConfig.VELOCITY_DAMPING (Rocket.config r))
    /\ Rocket.pos r' = vadd (Rocket.pos r) (Rocket.vel r')
    /\ (norm (Rocket.vel r') <= norm (Rocket.vel r))%R.
Proof.
  intros Ha Hfuel Hk Hv.
  assert (E : (Rocket.current_step r <? Rocket.dna_length r) = false)
    by (apply Z.ltb_ge; done).
  unfold Rocket.update, Rocket._apply_thrust. rewrite Ha, E. simpl.
  eexists. split; [reflexivity |]. simpl.
  destruct (Rocket.vel r) as [x y] eqn:Ev.
  set (k := RocketConfig.VELOCITY_DAMPING (Rocket.config r)) in *.
  assert (Hv2 : vscale (vadd (x, y) zeros) k = vscale (x, y) k).
  { unfold vscale, vadd, zeros. simpl. f_equal; ring. }
  rewrite Hv2.
  assert (Hsmall : (norm (vscale (x, y) k) <= norm (x, y))%R).
  { unfold norm, vscale. simpl. apply hypot_damped. done. }
  assert (Hlim : Vector2D.limit_magnitude (vscale (x, y) k)
                   (RocketConfig.MAX_VELOCITY (Rocket.config r))
                 = vscale (x, y) k).
  { unfold Vector2D.limit_magnitude.
    assert (Rltb (RocketConfig.MAX_VELOCITY (Rocket.config r))
                 (norm (vscale (x, y) k)) = false) as ->
        by (apply Rltb_false; lra).
    done. }
  rewrite Hlim. repeat split; done.
Qed.

(** A rocket at rest whose cursor is set to the end of its genome. *)
Lemma out_of_fuel_coasts_witness :
  exists r',
    Rocket.update (Rocket.set_current_step 2 (resting_rocket (0, 0)%R)) = Ok r'
    /\ Rocket.acc r' = zeros
    /\ Rocket.current_step r' = 2.
Proof.
  destruct (out_of_fuel_coasts (Rocket.set_current_step 2 (resting_rocket (0, 0)%R)))
    as (r' & H1 & H2 & H3 & _).
  - reflexivity.
  - simpl. lia.
  - simpl. lra.
  - unfold norm. simpl. rewrite hypot_0. lra.
  - exists r'. split; [exact H1 |]. split; [exact H2 | exact H3].
Defined.

(** ** More on fitness *)

Lemma evaluate_fitness_forgets r tp x :
  Rocket.evaluate_fitness (Rocket.set_fitness x r) tp = Rocket.evaluate_fitness r tp.
Proof.
  unfold Rocket.evaluate_fitness. destruct r; simpl.
  destruct (Rleb _ _ && negb _); simpl; [reflexivity |].
  destruct has_reached_target; reflexivity.
Qed.

Lemma evaluate_fitness_twice r tp :
  Rocket.evaluate_fitness (Rocket.evaluate_fitness r tp) tp
  = Rocket.evaluate_fitness r tp.
Proof.
  destruct (evaluate_fitness_cases r tp) as (Ha & Hb & Hc). cbv zeta in Ha, Hb, Hc.
  destruct (Rocket.has_reached_target r) eqn:Ef.
  - rewrite (Ha eq_refl), evaluate_fitness_forgets. apply Ha. done.
  - destruct (Rle_lt_dec (Vector2D.safe_distance (Rocket.pos r) tp)
                (RocketConfig.TARGET_RADIUS (Rocket.config r))) as [Hd|Hd].
    + rewrite (Hb eq_refl Hd), evaluate_fitness_forgets.
      destruct (evaluate_fitness_cases (Rocket._handle_target_reached r) tp)
        as (Ha' & _). apply Ha'. reflexivity.
    + rewrite (Hc eq_refl Hd), evaluate_fitness_forgets. apply Hc; done.
Qed.

(** X5. A fitness evaluation does not read the fitness stored before, and
    evaluating twice against the same target position is the same as
    evaluating once. *)
Theorem evaluate_fitness_idempotent (r : Rocket.t) (tp : vec) :
  (forall x, Rocket.evaluate_fitness (Rocket.set_fitness x r) tp
             = Rocket.evaluate_fitness r tp)
  /\ Rocket.evaluate_fitness (Rocket.evaluate_fitness r tp) tp
     = Rocket.evaluate_fitness r tp.
Proof.
  split; [intros x; apply evaluate_fitness_forgets | apply evaluate_fitness_twice].
Qed.

Lemma distance_nonneg p q : (0 <= Vector2D.safe_distance p q)%R.
Proof. unfold Vector2D.safe_distance, norm. apply hypot_nonneg. Qed.

(** The fitness of a rocket that an evaluation leaves unmarked. *)
Lemma unreached_fitness r tp :
  Rocket.has_reached_target (Rocket.evaluate_fitness r tp) = false ->
  Rocket.fitness (Rocket.evaluate_fitness r tp)
  = (1 / (Vector2D.safe_distance (Rocket.pos r) tp + float_eps))%R.
Proof.
  intros H. destruct (evaluate_fitness_flag r tp) as [Hf _]. cbv zeta in Hf.
  rewrite H in Hf. symmetry in Hf. apply orb_false_iff in Hf as [Hf Hr].
  apply Rleb_false in Hr.
  destruct (evaluate_fitness_cases r tp) as (_ & _ & Hc). cbv zeta in Hc.
  rewrite (Hc Hf Hr). reflexivity.
Qed.

(** X6. Among agents that an evaluation leaves unmarked, fitness is a
    strictly decreasing function of the distance to the target: equal
    distances give equal fitness, a smaller distance gives a strictly
    greater fitness, and the fitness is positive. *)
Theorem distance_fitness_monotone (r1 r2 : Rocket.t) (tp : vec) :
  Rocket.has_reached_target (Rocket.evaluate_fitness r1 tp) = false ->
  Rocket.has_reached_target (Rocket.evaluate_fitness r2 tp) = false ->
  let d1 := Vector2D.safe_distance (Rocket.pos r1) tp in
  let d2 := Vector2D.safe_distance (Rocket.pos r2) tp in
  (d1 = d2 ->
   Rocket.fitness (Rocket.evaluate_fitness r1 tp)
   = Rocket.fitness (Rocket.evaluate_fitness r2 tp))
  /\ ((d1 < d2)%R ->
      (Rocket.fitness (Rocket.evaluate_fitness r2 tp)
       < Rocket.fitness (Rocket.evaluate_fitness r1 tp))%R)
  /\ (0 < Rocket.fitness (Rocket.evaluate_fitness r1 tp))%R.
Proof.
  intros H1 H2 d1 d2.
  rewrite (unreached_fitness r1 tp H1), (unreached_fitness r2 tp H2).
  fold d1 d2. pose proof float_eps_pos as He.
  pose proof (distance_nonneg (Rocket.pos r1) tp) as P1.
  pose proof (distance_nonneg (Rocket.pos r2) tp) as P2. fold d1 in P1. fold d2 in P2.
  split; [intros ->; done |]. split.
  - intros Hlt. unfold Rdiv. rewrite !Rmult_1_l.
    apply Rinv_lt_contravar; [apply Rmult_lt_0_compat; lra | lra].
  - unfold Rdiv. rewrite Rmult_1_l. apply Rinv_0_lt_compat. lra.
Qed.

(** Rockets at distance 30 and 40 from the target. *)
Lemma distance_fitness_monotone_witness :
  (Rocket.fitness (Rocket.evaluate_fitness (resting_rocket (40, 0)%R) (0, 0)%R)
   < Rocket.fitness (Rocket.evaluate_fitness (resting_rocket (30, 0)%R) (0, 0)%R))%R.
Proof.
  assert (D30 : Vector2D.safe_distance (30, 0)%R (0, 0)%R = 30%R)
    by (apply distance_on_axis; lra).
  assert (D40 : Vector2D.safe_distance (40, 0)%R (0, 0)%R = 40%R)
    by (apply distance_on_axis; lra).
  assert (F30 : Rocket.has_reached_target
                  (Rocket.evaluate_fitness (resting_rocket (30, 0)%R) (0, 0)%R) = false).
  { destruct (evaluate_fitness_flag (resting_rocket (30, 0)%R) (0, 0)%R) as [Hf _].
    simpl in Hf. rewrite Hf, D30. apply Rleb_false. lra. }
  assert (F40 : Rocket.has_reached_target
                  (Rocket.evaluate_fitness (resting_rocket (40, 0)%R) (0, 0)%R) = false).
  { destruct (evaluate_fitness_flag (resting_rocket (40, 0)%R) (0, 0)%R) as [Hf _].
    simpl in Hf. rewrite Hf, D40. apply Rleb_false. lra. }
  destruct (distance_fitness_monotone (resting_rocket (30, 0)%R)
              (resting_rocket (40, 0)%R) (0, 0)%R F30 F40) as (_ & Hlt & _).
  apply Hlt. simpl. rewrite D30, D40. lra.
Defined.

(** X7. Of two marked agents with the same configuration and genome
    length, the one that arrived at an earlier step has the strictly greater
    fitness when the per-step bonus is positive, whatever the positions of
    the agents and of the targets they are evaluated against. *)
Theorem earlier_arrival_fitter (r1 r2 : Rocket.t) (tp1 tp2 : vec) (s1 s2 : Z) :
  Rocket.config r1 = Rocket.config r2 ->
  (0 < RocketConfig.FITNESS_BONUS_PER_STEP (Rocket.config r1))%R ->
  Rocket.dna_length r1 = Rocket.dna_length r2 ->
  Rocket.has_reached_target r1 = true ->
  Rocket.has_reached_target r2 = true ->
  Rocket.target_reached_step r1 = Some s1 ->
  Rocket.target_reached_step r2 = Some s2 ->
  s1 < s2 ->
  (Rocket.fitness (Rocket.evaluate_fitness r2 tp2)
   < Rocket.fitness (Rocket.evaluate_fitness r1 tp1))%R.
Proof.
  intros Hc Hb HL F1 F2 T1 T2 Hs.
  destruct (evaluate_fitness_cases r1 tp1) as (A1 & _).
  destruct (evaluate_fitness_cases r2 tp2) as (A2 & _). cbv zeta in A1, A2.
  rewrite (A1 F1), (A2 F2). simpl.
  unfold Rocket._calculate_success_fitness. rewrite T1, T2, <- Hc, <- HL.
  assert (IZR (Rocket.dna_length r1 - s2) < IZR (Rocket.dna_length r1 - s1))%R
    by (apply IZR_lt; lia).
  nra.
Qed.

(** Arrival at step 1 against arrival at step 2. *)
Lemma earlier_arrival_fitter_witness :
  (Rocket.fitness
     (Rocket.evaluate_fitness
        (Rocket._handle_target_reached
           (Rocket.set_current_step 2 (resting_rocket (0, 0)%R))) (0, 0)%R)
   < Rocket.fitness
       (Rocket.evaluate_fitness
          (Rocket._handle_target_reached
             (Rocket.set_current_step 1 (resting_rocket (0, 0)%R))) (0, 0)%R))%R.
Proof.
  apply (earlier_arrival_fitter
           (Rocket._handle_target_reached
              (Rocket.set_current_step 1 (resting_rocket (0, 0)%R)))
           (Rocket._handle_target_reached
              (Rocket.set_current_step 2 (resting_rocket (0, 0)%R)))
           (0, 0)%R (0, 0)%R 1 2).
  - reflexivity.
  - simpl. lra.
  - reflexivity.
  - reflexivity.
  - reflexivity.
  - reflexivity.
  - reflexivity.
  - lia.
Defined.

(** ** Random vectors and genomes *)

Lemma hypot_polar t m : (0 <= m)%R -> hypot (m * cos t) (m * sin t) = m.
Proof.
  intros Hm. unfold hypot.
  replace (m * cos t * (m * cos t) + m * sin t * (m * sin t))%R
    with (m * m * (Rsqr (sin t) + Rsqr (cos t)))%R by (unfold Rsqr; ring).
  rewrite sin2_cos2, Rmult_1_r. apply sqrt_square. done.
Qed.

Lemma random_uniform_range a b g x g' :
  (a <= b)%R -> random_uniform a b g = Ok (x, g') -> (a <= x <= b)%R.
Proof.
  intros Hab. unfold random_uniform.
  intros (u & g1 & Hu & [<- _]%ret_Ok)%bind_Ok.
  apply random_random_range in Hu. nra.
Qed.

Lemma random_gene_range c g v g' :
  (0 <= Config.GENE_MIN_MAGNITUDE c <= Config.GENE_MAX_MAGNITUDE c)%R ->
  DNA.random_gene c g = Ok (v, g') ->
  (Config.GENE_MIN_MAGNITUDE c <= norm v <= Config.GENE_MAX_MAGNITUDE c)%R.
Proof.
  intros Hc. unfold DNA.random_gene.
  intros (t & g1 & _ & (m & g2 & Hm & [<- _]%ret_Ok)%bind_Ok)%bind_Ok.
  apply random_uniform_range in Hm; [| lra].
  unfold norm. simpl. rewrite hypot_polar; lra.
Qed.

(** X8. The random vectors: [random_unit_vector] returns a vector of
    length 1; [random_thrust_vector(a, b)] with 0 <= a <= b returns a vector
    whose length lies in [a, b]; and [DNA.random_gene] returns a gene whose
    length lies between the two configured gene magnitudes when these are
    ordered and not negative.  None of them raises. *)
Theorem random_vectors_in_range :
  (forall g, exists v g',
      Vector2D.random_unit_vector g = Ok (v, g') /\ norm v = 1%R)
  /\ (forall a b g,
         (0 <= a <= b)%R ->
         exists v g',
           Vector2D.random_thrust_vector a b g = Ok (v, g')
           /\ (a <= norm v <= b)%R)
  /\ (forall c g,
         (0 <= Config.GENE_MIN_MAGNITUDE c <= Config.GENE_MAX_MAGNITUDE c)%R ->
         exists v g',
           DNA.random_gene c g = Ok (v, g')
           /\ (Config.GENE_MIN_MAGNITUDE c <= norm v
               <= Config.GENE_MAX_MAGNITUDE c)%R).
Proof.
  split; [| split].
  - intros g. unfold Vector2D.random_unit_vector, bind.
    destruct (random_uniform_total 0 (2 * PI) g) as (t & g1 & ->).
    eexists _, _. split; [reflexivity |]. unfold norm. simpl.
    pose proof (hypot_polar t 1) as H. rewrite !Rmult_1_l in H. apply H. lra.
  - intros a b g Hab.
    destruct (random_thrust_vector_total a b g) as (v & g' & Hv).
    exists v, g'. split; [done |]. revert Hv.
    unfold Vector2D.random_thrust_vector, Vector2D.random_unit_vector.
    intros (d & g1 & (t & g2 & _ & [<- _]%ret_Ok)%bind_Ok
            & (m & g3 & Hm & [<- _]%ret_Ok)%bind_Ok)%bind_Ok.
    apply random_uniform_range in Hm; [| lra].
    unfold norm, vscale. simpl.
    rewrite (Rmult_comm (cos t) m), (Rmult_comm (sin t) m), hypot_polar; lra.
  - intros c g Hc. destruct (random_gene_total c g) as (v & g' & Hv).
    exists v, g'. split; [done |]. eapply random_gene_range; eauto.
Qed.

Lemma repeatM_Forall {A} (P : A -> Prop) (m : M A) n g xs g' :
  (forall g1 a g2, m g1 = Ok (a, g2) -> P a) ->
  repeatM n m g = Ok (xs, g') -> Forall P xs.
Proof.
  intros HP. revert g xs g'. induction n as [|n IH]; intros g xs g'; simpl.
  - intros [<- _]%ret_Ok. constructor.
  - intros (b & g1 & Hb & (bs' & g2 & Hl & [<- _]%ret_Ok)%bind_Ok)%bind_Ok.
    constructor; eauto.
Qed.

Lemma DNA_random_range c n g d g' :
  (0 <= Config.GENE_MIN_MAGNITUDE c <= Config.GENE_MAX_MAGNITUDE c)%R ->
  DNA.random c n g = Ok (d, g') ->
  genes_in_range c (DNA.genes d).
Proof.
  intros Hc. unfold DNA.random.
  intros (gs & g1 & Hgs & [<- _]%ret_Ok)%bind_Ok. simpl.
  eapply repeatM_Forall; [| exact Hgs]. simpl.
  intros g2 v g3 Hv. eapply random_gene_range; eauto.
Qed.

(** X9. [DNA.random(length)] never raises and returns [max(0, length)]
    genes (none for a negative length), each with a magnitude in the
    configured range when that range is ordered and not negative. *)
Theorem DNA_random_spec (c : Config.t) (n : Z) (g : rng) :
  exists d g',
    DNA.random c n g = Ok (d, g')
    /\ py_len (DNA.genes d) = Z.max 0 n
    /\ ((0 <= Config.GENE_MIN_MAGNITUDE c <= Config.GENE_MAX_MAGNITUDE c)%R ->
        genes_in_range c (DNA.genes d)).
Proof.
  destruct (DNA_random_total c n g) as (d & g' & Hd).
  exists d, g'. split; [done |]. split.
  - apply DNA_random_Ok in Hd. unfold py_len. lia.
  - intros Hc. eapply DNA_random_range; eauto.
Qed.

Lemma mutate_gene_range c rate v g v' g' :
  (0 <= Config.GENE_MIN_MAGNITUDE c <= Config.GENE_MAX_MAGNITUDE c)%R ->
  (Config.GENE_MIN_MAGNITUDE c <= norm v <= Config.GENE_MAX_MAGNITUDE c)%R ->
  DNA.mutate_gene c rate v g = Ok (v', g') ->
  (Config.GENE_MIN_MAGNITUDE c <= norm v' <= Config.GENE_MAX_MAGNITUDE c)%R.
Proof.
  intros Hc Hv. unfold DNA.mutate_gene.
  intros (u & g1 & _ & H)%bind_Ok.
  destruct (Rltb u rate).
  - eapply random_gene_range; eauto.
  - apply ret_Ok in H as [<- _]. done.
Qed.

Lemma py_index_elem {A} (l : list A) i a : py_index l i = Ok a -> a ∈ l.
Proof.
  unfold py_index. destruct ((0 <=? i) && (i <? py_len l)).
  - destruct (l !! Z.to_nat i) eqn:E; [| discriminate].
    intros [= <-]. eapply list_elem_of_lookup_2; eauto.
  - destruct ((- py_len l <=? i) && (i <? 0)); [| discriminate].
    destruct (l !! Z.to_nat (py_len l + i)) eqn:E; [| discriminate].
    intros [= <-]. eapply list_elem_of_lookup_2; eauto.
Qed.

Lemma breed_genes_in_range c p rockets g d g' :
  (0 <= Config.GENE_MIN_MAGNITUDE c <= Config.GENE_MAX_MAGNITUDE c)%R ->
  Forall (fun r => genes_in_range c (Rocket.dna r)) rockets ->
  Population.breed c p rockets g = Ok (d, g') ->
  genes_in_range c (DNA.genes d).
Proof.
  intros Hc Hall. unfold Population.breed.
  intros (o1 & g1 & _ & (o2 & g2 & _ & H)%bind_Ok)%bind_Ok.
  assert (Hrand : forall g3,
             DNA.random c (Population.dna_length p) g3 = Ok (d, g') ->
             genes_in_range c (DNA.genes d)).
  { intros g3 Hr. eapply DNA_random_range; eauto. }
  destruct o1 as [i1|]; [| eauto]. destruct o2 as [i2|]; [| eauto].
  apply bind_Ok in H as (r1 & g3 & [Hr1 _]%lift_Ok & H).
  apply bind_Ok in H as (r2 & g4 & [Hr2 _]%lift_Ok & H).
  apply bind_Ok in H as (child & g5 & Hcross & Hm).
  rewrite Forall_forall in Hall.
  pose proof (Hall r1 (py_index_elem _ _ _ Hr1)) as R1.
  pose proof (Hall r2 (py_index_elem _ _ _ Hr2)) as R2.
  apply crossover_Ok in Hcross as (k & _ & _ & ->).
  revert Hm. unfold DNA.mutate.
  intros (gs & g6 & Hgs & [<- _]%ret_Ok)%bind_Ok. simpl in *.
  unfold genes_in_range in *. unfold Rocket.get_dna_copy in Hgs.
  assert (Hchild : Forall (fun v => (Config.GENE_MIN_MAGNITUDE c <= norm v
                                      <= Config.GENE_MAX_MAGNITUDE c)%R)
                          (take (Z.to_nat k) (Rocket.dna r1)
                           ++ drop (Z.to_nat k) (Rocket.dna r2))).
  { apply Forall_app. split; [apply Forall_take | apply Forall_drop]; done. }
  apply mapM_Forall2 in Hgs.
  eapply Forall2_transfer; [| exact Hgs | exact Hchild]. simpl.
  intros v v' (ga & gb & Hv') Hv. eapply mutate_gene_range; eauto.
Qed.

(** X10. [next_generation] never changes the start positions, the genome
    length or the mutation rate, and leaves exactly one genome per start
    position; and when the gene magnitudes of the rockets lie in the
    configured range (ordered, not negative), so do all genes of the new
    population, in the random branch as in the breeding branch and for every
    mutation rate. *)
Theorem next_generation_keeps_shape (c : Config.t) (p p' : Population.t)
    (rockets : list Rocket.t) (g g' : rng) :
  Population.next_generation c p rockets g = Ok (p', g') ->
  Population.start_positions p' = Population.start_positions p
  /\ Population.dna_length p' = Population.dna_length p
  /\ Population.mutation_rate p' = Population.mutation_rate p
  /\ length (Population.dnas p') = length (Population.start_positions p)
  /\ ((0 <= Config.GENE_MIN_MAGNITUDE c <= Config.GENE_MAX_MAGNITUDE c)%R ->
      Forall (fun r => genes_in_range c (Rocket.dna r)) rockets ->
      Forall (fun d => genes_in_range c (DNA.genes d)) (Population.dnas p')).
Proof.
  unfold Population.next_generation. destruct rockets as [|r0 rs].
  - intros (ds & g1 & Hds & [<- _]%ret_Ok)%bind_Ok. simpl.
    repeat split; try done; [eapply mapM_length; eauto |].
    intros Hc _. eapply mapM_Forall; [| exact Hds]. simpl.
    intros _ g2 d g3 _ Hr. eapply DNA_random_range; eauto.
  - intros (ds & g1 & Hds & [<- _]%ret_Ok)%bind_Ok. simpl.
    repeat split; try done; [eapply mapM_length; eauto |].
    intros Hc Hall. eapply mapM_Forall; [| exact Hds]. simpl.
    intros _ g2 d g3 _ Hr. eapply breed_genes_in_range; eauto.
Qed.

(** A population of one start position bred from no rockets. *)
Lemma next_generation_keeps_shape_witness :
  exists p' g',
    Population.next_generation config0
      (Population.mk [(0, 0)%R] 3 0 []) [] rng0 = Ok (p', g')
    /\ length (Population.dnas p') = 1%nat.
Proof.
  destruct (mapM_total (fun _ : vec => DNA.random config0 3) [(0, 0)%R] rng0)
    as (ds & g' & Hds); [intros; apply DNA_random_total |].
  assert (H : Population.next_generation config0
                (Population.mk [(0, 0)%R] 3 0 []) [] rng0
              = Ok (Population.set_dnas ds (Population.mk [(0, 0)%R] 3 0 []), g')).
  { unfold Population.next_generation, bind.
    change (Population.start_positions (Population.mk [(0, 0)%R] 3 0 []))
      with [(0, 0)%R].
    change (Population.dna_length (Population.mk [(0, 0)%R] 3 0 [])) with 3.
    rewrite Hds. reflexivity. }
  eexists _, _. split; [exact H |].
  destruct (next_generation_keeps_shape _ _ _ _ _ _ H) as (_ & _ & _ & H4 & _).
  exact H4.
Defined.

(** X11. [crossover] raises [ValueError] exactly when the first parent has
    no genes (the split index is drawn from an empty range), whatever the
    second parent; otherwise it returns a child, and it never compares the
    lengths of the parents: for the drawn index [k] the child has
    [max(k, len(other))] genes. *)
Theorem crossover_edge_cases (a b : DNA.t) (g : rng) :
  (DNA.genes a = [] -> DNA.crossover a b g = Raise ValueError)
  /\ (DNA.genes a <> [] ->
      exists k child g',
        DNA.crossover a b g = Ok (child, g')
        /\ 0 <= k < py_len (DNA.genes a)
        /\ py_len (DNA.genes child) = Z.max k (py_len (DNA.genes b)))
  /\ (forall e, DNA.crossover a b g = Raise e ->
                e = ValueError /\ DNA.genes a = []).
Proof.
  split; [| split].
  - intros Hnil. unfold DNA.crossover, bind, random_randint. rewrite Hnil. reflexivity.
  - intros Hne.
    destruct (crossover_total a b g) as (child & g' & Hc).
    { destruct (DNA.genes a); [done | simpl; lia]. }
    pose proof (crossover_Ok a b g child g' Hc) as (k & _ & Hk & Hchild).
    exists k, child, g'. split; [done |]. split; [lia |].
    rewrite Hchild. unfold py_len in *. simpl.
    rewrite length_app, length_take, length_drop. lia.
  - intros e He. destruct (DNA.genes a) as [|x xs] eqn:Ea.
    + revert He. unfold DNA.crossover, bind, random_randint. rewrite Ea. simpl.
      intros [= <-]. done.
    + destruct (crossover_total a b g) as (child & g' & Hc);
        [rewrite Ea; simpl; lia | congruence].
Qed.

(** ** Runs of the world: more invariants *)

Lemma targets_of_app es1 es2 :
  targets_of (es1 ++ es2) = targets_of es1 ++ targets_of es2.
Proof.
  induction es1 as [|[tg|r] es1 IH]; simpl; [done | | done]. rewrite IH. done.
Qed.

Lemma targets_of_kept es :
  targets_of (List.filter (fun e => negb (World.is_rocket e)) es) = targets_of es.
Proof. induction es as [|[tg|r] es IH]; simpl; [done | | done]. rewrite IH. done. Qed.

Lemma targets_of_rockets es :
  Forall (fun e => exists r, e = ERocket r) es -> targets_of es = [].
Proof. induction 1 as [|e es (r & ->) _ IH]; simpl; done. Qed.

Lemma spawn_generation_targets w g w' g' :
  World._spawn_generation w g = Ok (w', g') ->
  targets_of (World.entities w') = targets_of (World.entities w).
Proof.
  unfold World._spawn_generation.
  intros (rs & g1 & Hrs & [<- _]%ret_Ok)%bind_Ok. simpl.
  rewrite targets_of_app, targets_of_kept, (targets_of_rockets rs), app_nil_r; [done |].
  eapply mapM_Forall; [| exact Hrs]. simpl. intros sd g2 e g3 _ He.
  apply spawn_rocket_Ok in He as (r & -> & _). eauto.
Qed.

Lemma update_all_targets es es' :
  World.update_all es = Ok es' -> targets_of es' = targets_of es.
Proof.
  revert es'. induction es as [|e es IH]; intros es'; simpl.
  - intros [= <-]. done.
  - destruct (World.update_entity e) as [e'|] eqn:He; [| discriminate].
    destruct (World.update_all es) as [out|] eqn:Hout; [| discriminate].
    intros [= <-]. specialize (IH out eq_refl).
    destruct e as [tg|r]; simpl in He.
    + injection He as <-. simpl. rewrite IH. done.
    + destruct (Rocket.update r); [| discriminate]. injection He as <-. done.
Qed.

Lemma stats_loop_targets w tp a es :
  targets_of (World.stats_loop w tp a es).2 = targets_of es.
Proof.
  revert a. induction es as [|[tg|r] es IH]; intros a; simpl; [done | |].
  - specialize (IH a). destruct (World.stats_loop w tp a es). simpl in *.
    rewrite IH. done.
  - set (a1 := World.mk_tally _ _ _). specialize (IH a1).
    destruct (World.stats_loop w tp a1 es). simpl in *. done.
Qed.

Lemma advance_targets w w1 :
  World.advance w = Ok w1 ->
  targets_of (World.entities w1) = targets_of (World.entities w).
Proof.
  unfold World.advance.
  destruct (World.update_all (World.entities w)) as [es|] eqn:Hu; [| discriminate].
  intros [= <-]. apply update_all_targets in Hu. rewrite <- Hu.
  unfold World._calculate_rocket_stats. simpl.
  destruct (World.target w) as [tg|]; [| done].
  unfold World.get_rockets. simpl.
  destruct (World.rockets_of es); [done |].
  pose proof (stats_loop_targets
                (World.set_generation_step (World.generation_step w + 1)
                   (World.set_entities es w))
                (Target.pos tg) (World.mk_tally PInf 0 0) es) as H.
  destruct (World.stats_loop _ _ _ es). simpl in *. done.
Qed.

Lemma targets_of_map_rockets f es :
  targets_of (World.map_rockets f es) = targets_of es.
Proof. induction es as [|[tg|r] es IH]; simpl; [done | | done]. rewrite IH. done. Qed.

Lemma end_generation_targets c w g w' g' :
  World._end_generation c w g = Ok (w', g') ->
  targets_of (World.entities w') = targets_of (World.entities w).
Proof.
  unfold World._end_generation. destruct (World.get_rockets w).
  - intros [<- _]%ret_Ok. done.
  - intros (p & g1 & _ & [<- _]%ret_Ok)%bind_Ok. simpl.
    destruct (World.target w); [apply targets_of_map_rockets | done].
Qed.

Lemma remove_target_from es tg :
  targets_of es = [tg] ->
  existsb (World.is_target tg) es = true
  /\ targets_of (World.remove_first (World.is_target tg) es) = [].
Proof.
  induction es as [|[t|r] es IH]; simpl; [discriminate | |].
  - intros [= -> Hrest]. rewrite Nat.eqb_refl. simpl. done.
  - intros H. destruct (IH H) as [H1 H2]. done.
Qed.

Lemma set_target_targets w x y radius :
  targets_of (World.entities w)
  = match World.target w with Some tg => [tg] | None => [] end ->
  exists ident,
    World.target (World.set_target w x y radius)
    = Some (Target.mk ident (x, y) radius)
    /\ targets_of (World.entities (World.set_target w x y radius))
       = [Target.mk ident (x, y) radius].
Proof.
  intros Hcons. unfold World.set_target, World.add_entity.
  destruct (World.target w) as [tg|] eqn:Et.
  - destruct (remove_target_from _ tg Hcons) as [H1 H2].
    unfold World.remove_entity. rewrite H1, Et, Nat.eqb_refl. simpl.
    rewrite targets_of_app, H2. simpl. eauto.
  - simpl. rewrite targets_of_app, Hcons. simpl. eauto.
Qed.

Lemma set_target_run_inv w x y radius :
  run_inv w -> run_inv (World.set_target w x y radius).
Proof.
  intros (Hinv & Hcount & Hmax & Hgs & Hr & Htg).
  pose proof (set_target_keeps w x y radius) as Hk. cbv zeta in Hk.
  destruct Hk as (K1 & K2 & K3 & K4 & K5 & K6 & K7 & K8 & _).
  destruct (set_target_targets w x y radius Htg) as (ident & T1 & T2).
  unfold run_inv. rewrite K1, K3, K4, K5, K8, T1, T2.
  split; [apply set_target_inv; done |]. repeat split; done.
Qed.

Lemma newborn_rockets_run L gs sds rs :
  gs = 0 ->
  Forall2 (fun sd r => newborn L sd.1 sd.2 r) sds rs ->
  Forall (fun r => Rocket.is_active r = true
                   /\ Rocket.config r = RocketConfig.default
                   /\ Rocket.current_step r = gs) rs.
Proof.
  intros -> H. induction H as [|sd r sds rs Hn _ IH]; constructor; [| done].
  destruct Hn as (Hc & _ & _ & _ & _ & Hs & _ & _ & Ha). done.
Qed.

Lemma spawn_generation_run_inv w g w' g' :
  world_inv w' ->
  World.max_steps_per_generation w = World.dna_length w + 50 ->
  targets_of (World.entities w)
  = match World.target w with Some tg => [tg] | None => [] end ->
  World._spawn_generation w g = Ok (w', g') ->
  run_inv w'.
Proof.
  intros Hinv' Hmax Htg Hsp.
  pose proof (spawn_generation_targets w g w' g' Hsp) as Ht.
  apply spawn_generation_Ok in Hsp
    as (Hr & T & P & L & S & _ & _ & M & _ & G & _).
  destruct Hinv' as (I1 & I2 & I3 & I4 & I5 & I6).
  split; [done |]. split; [| split; [| split; [| split]]].
  - apply Forall2_length in Hr. rewrite <- Hr, length_zip_with.
    unfold Population.get_dnas. rewrite length_map, <- P, I4, S. lia.
  - rewrite M, L. done.
  - left. done.
  - eapply newborn_rockets_run; [exact G | exact Hr].
  - rewrite Ht, T. done.
Qed.

Lemma init_run_inv c width height pop L rate g w g' :
  0 <= L ->
  World.init c width height pop L rate g = Ok (w, g') ->
  run_inv w /\ World.dna_length w = L
  /\ length (World.start_positions w) = Z.to_nat pop.
Proof.
  intros HL Hi.
  destruct (init_inv c width height pop L rate g w g' HL Hi) as (Hinv & HLw & _).
  unfold World.init in Hi. apply bind_Ok in Hi as (p & g1 & _ & Hsp).
  pose proof (spawn_generation_Ok _ _ _ _ Hsp)
    as (_ & _ & _ & _ & S & _).
  split; [| split; [done |]].
  - eapply spawn_generation_run_inv; [exact Hinv | | | exact Hsp]; reflexivity.
  - rewrite S. simpl. rewrite length_map, length_seq. done.
Qed.

Lemma step_run_inv c w g w' g' :
  run_inv w -> World.step c w g = Ok (w', g') -> run_inv w'.
Proof.
  intros (Hinv & Hcount & Hmax & Hgs & Hr & Htg) Hs.
  destruct (step_inv c w g w' g' Hinv Hs) as [Hinv' _].
  unfold World.step in Hs.
  apply bind_Ok in Hs as (w1 & g1 & [Hadv <-]%lift_Ok & Hs).
  pose proof (advance_inv w w1 Hinv Hadv) as Hinv1.
  pose proof (advance_targets w w1 Hadv) as Ht1.
  pose proof (advance_Ok w w1 Hadv)
    as (T1 & _ & L1 & S1 & _ & _ & M1 & _ & G1 & Hrel & _).
  destruct (World._should_end_generation w1) eqn:Hend.
  - apply bind_Ok in Hs as (w2 & g2 & He & Hsp).
    pose proof (end_generation_targets c w1 g w2 g2 He) as Ht2.
    apply end_generation_Ok in He as (T2 & L2 & _ & _ & _ & M2 & _).
    eapply spawn_generation_run_inv; [exact Hinv' | | | exact Hsp].
    + rewrite M2, L2, M1, L1. done.
    + rewrite Ht2, T2, Ht1, T1. done.
  - apply ret_Ok in Hs as [<- _].
    destruct Hinv as (_ & _ & _ & _ & _ & Hwr).
    assert (Hrun : exists r1, r1 ∈ World.get_rockets w1
                              /\ World.still_running r1 = true).
    { unfold World._should_end_generation in Hend.
      destruct (World.get_rockets w1) as [|x xs]; [discriminate |].
      destruct (_ <=? _); [discriminate |].
      apply negb_false_iff, existsb_exists in Hend as (r1 & Hin & Hr1).
      exists r1. split; [apply list_elem_of_In; done | done]. }
    assert (Hstepped : Forall2 (fun r r1 =>
                 Rocket.is_active r1 = true
                 /\ Rocket.config r1 = RocketConfig.default
                 /\ Rocket.dna_length r1 = World.dna_length w
                 /\ Rocket.current_step r1
                    = (if World.generation_step w <? World.dna_length w
                       then World.generation_step w + 1
                       else World.generation_step w))
               (World.get_rockets w) (World.get_rockets w1)).
    { assert (Hboth : Forall (fun r =>
                 (Rocket.is_active r = true
                  /\ Rocket.config r = RocketConfig.default
                  /\ Rocket.current_step r = World.generation_step w)
                 /\ Rocket.dna_length r = World.dna_length w)
               (World.get_rockets w)).
      { apply Forall_and. split; [done |].
        eapply Forall_impl; [exact Hwr |]. simpl. intros r (_ & H & _). done. }
      clear -Hrel Hboth. induction Hrel as [|r r1 rs rs1 (ru & Hu & Hev) _ IH].
      - constructor.
      - apply Forall_cons in Hboth as [((Ha & Hc & Hcs) & HL) Hboth].
        constructor; [| apply IH; done].
        apply update_fields in Hu as (U1 & _ & U3 & U4 & _ & _ & _ & U8).
        apply evaluated_fields in Hev as (E1 & _ & _ & _ & E5 & E6 & E7).
        rewrite E7, E1, E5, E6, U1, U3, U4, U8, Ha, Hc, Hcs, HL. done. }
    destruct Hrun as (r1 & Hin1 & Hrun1).
    assert (Hlt : World.generation_step w < World.dna_length w).
    { destruct (Z.ltb_spec (World.generation_step w) (World.dna_length w)) as [H|H];
        [done | exfalso].
      apply list_elem_of_lookup in Hin1 as (i & Hi).
      destruct (Forall2_lookup_r _ _ _ _ _ Hstepped Hi) as (r & _ & _ & _ & HL & Hcs).
      unfold World.still_running in Hrun1.
      apply andb_true_iff in Hrun1 as [Hrun1 _]. apply Z.ltb_lt in Hrun1. lia. }
    assert ((World.generation_step w <? World.dna_length w) = true) as E
        by (apply Z.ltb_lt; done).
    rewrite E in Hstepped.
    assert (Hlt1 : World.generation_step w + 1 < World.dna_length w).
    { apply list_elem_of_lookup in Hin1 as (i & Hi).
      destruct (Forall2_lookup_r _ _ _ _ _ Hstepped Hi) as (r & _ & _ & _ & HL & Hcs).
      unfold World.still_running in Hrun1.
      apply andb_true_iff in Hrun1 as [Hrun1 _]. apply Z.ltb_lt in Hrun1. lia. }
    split; [done |]. split; [| split; [| split; [| split]]].
    + apply Forall2_length in Hrel. rewrite <- Hrel, S1. done.
    + rewrite M1, L1. done.
    + right. rewrite G1, L1. destruct Hgs; lia.
    + rewrite G1. eapply Forall2_transfer; [| exact Hstepped | exact Hr]. simpl.
      intros r r' (A & C & _ & S) _. done.
    + rewrite Ht1, T1. done.
Qed.

Lemma exec_run_inv c cmds w g w' g' :
  run_inv w -> exec c cmds w g = Ok (w', g') ->
  run_inv w' /\ World.dna_length w' = World.dna_length w
  /\ World.start_positions w' = World.start_positions w.
Proof.
  revert w g. induction cmds as [|[|x y radius] cmds IH]; intros w g Hinv; simpl.
  - intros [<- _]%ret_Ok. done.
  - intros (w1 & g1 & Hs & He)%bind_Ok.
    pose proof (step_run_inv c w g w1 g1 Hinv Hs) as Hinv1.
    destruct Hinv as (Hw & _).
    destruct (step_inv c w g w1 g1 Hw Hs) as [_ HL1].
    assert (HS1 : World.start_positions w1 = World.start_positions w).
    { destruct Hinv1 as ((_ & _ & P1 & _) & _). destruct Hw as (_ & _ & P0 & _).
      revert Hs. unfold World.step.
      intros (wa & ga & [Hadv <-]%lift_Ok & Hs)%bind_Ok.
      pose proof (advance_Ok w wa Hadv) as (_ & _ & _ & Sa & _).
      destruct (World._should_end_generation wa).
      - apply bind_Ok in Hs as (w2 & g2 & He2 & Hsp).
        apply end_generation_Ok in He2 as (_ & _ & S2 & _).
        apply spawn_generation_Ok in Hsp as (_ & _ & _ & _ & S3 & _).
        congruence.
      - apply ret_Ok in Hs as [<- _]. done. }
    destruct (IH w1 g1 Hinv1 He) as (H1 & H2 & H3).
    split; [done |]. split; congruence.
  - intros He.
    destruct (IH _ g (set_target_run_inv w x y radius Hinv) He) as (H1 & H2 & H3).
    pose proof (set_target_keeps w x y radius) as Hk. cbv zeta in Hk.
    destruct Hk as (_ & _ & K3 & K4 & _).
    split; [done |]. split; congruence.
Qed.

Lemma simulate_run_inv c width height pop L rate cmds g w g' :
  0 <= L ->
  simulate c width height pop L rate cmds g = Ok (w, g') ->
  run_inv w /\ World.dna_length w = L
  /\ length (World.start_positions w) = Z.to_nat pop.
Proof.
  intros HL. unfold simulate. intros (w0 & g0 & Hi & He)%bind_Ok.
  destruct (init_run_inv c width height pop L rate g w0 g0 HL Hi) as (H0 & H1 & H2).
  destruct (exec_run_inv c cmds w0 g0 w g' H0 He) as (H3 & H4 & H5).
  split; [done |]. split; congruence.
Qed.

Lemma simulate_total c width height pop L rate cmds g :
  1 <= L -> exists w g', simulate c width height pop L rate cmds g = Ok (w, g').
Proof.
  intros HL. unfold simulate, bind.
  destruct (init_total c width height pop L rate g) as (w0 & g0 & Hi).
  rewrite Hi. apply init_inv in Hi as (Hinv0 & HL0 & _); [| lia].
  apply exec_total; [done | lia].
Qed.

(** X12. In every world reached from the constructor (with a non-negative
    [dna_length]) by steps and target moves, the live rockets are exactly
    [max(0, population_size)] in number: a respawn discards the rockets of
    the generation that ended and creates one per start position.  Each of
    them is active and has the default configuration. *)
Theorem rocket_count_invariant (c : Config.t) (width height pop L : Z)
    (rate : R) (cmds : list command) (g g' : rng) (w : World.t) :
  0 <= L ->
  simulate c width height pop L rate cmds g = Ok (w, g') ->
  length (World.get_rockets w) = Z.to_nat pop
  /\ length (World.start_positions w) = Z.to_nat pop
  /\ length (Population.dnas (World.population w)) = Z.to_nat pop
  /\ Forall (fun r => Rocket.is_active r = true
                      /\ Rocket.config r = RocketConfig.default)
            (World.get_rockets w).
Proof.
  intros HL Hs.
  destruct (simulate_run_inv c width height pop L rate cmds g w g' HL Hs)
    as ((Hinv & Hcount & _ & _ & Hr & _) & _ & Hsp).
  destruct Hinv as (_ & _ & _ & Hd & _).
  split; [congruence |]. split; [done |]. split; [congruence |].
  eapply Forall_impl; [exact Hr |]. simpl. intros r (A & C & _). done.
Qed.

(** The run [demo_cmds] of a world of two rockets. *)
Lemma rocket_count_invariant_witness :
  exists w g',
    simulate config0 300 200 2 5 0 demo_cmds rng0 = Ok (w, g')
    /\ length (World.get_rockets w) = 2%nat.
Proof.
  assert (H5 : 1 <= 5) by lia. assert (H0 : 0 <= 5) by lia.
  destruct (simulate_total config0 300 200 2 5 0 demo_cmds rng0 H5) as (w & g' & Hs).
  exists w, g'. split; [exact Hs |].
  destruct (rocket_count_invariant config0 300 200 2 5 0 demo_cmds rng0 g' w H0 Hs)
    as (H & _).
  exact H.
Defined.

(** X13. In every such world the step cursor of every live rocket equals
    the step counter of the generation, and that counter is 0 or strictly
    between 0 and [dna_length]: a generation ends, at the latest, with the
    step in which the rockets consume their last instruction, so the
    counter stays below the step cap [dna_length + 50], which never is
    what ends a generation. *)
Theorem rockets_in_lockstep (c : Config.t) (width height pop L : Z)
    (rate : R) (cmds : list command) (g g' : rng) (w : World.t) :
  0 <= L ->
  simulate c width height pop L rate cmds g = Ok (w, g') ->
  Forall (fun r => Rocket.current_step r = World.generation_step w)
         (World.get_rockets w)
  /\ (World.generation_step w = 0 \/ 0 < World.generation_step w < L)
  /\ World.max_steps_per_generation w = L + 50
  /\ World.generation_step w + 50 <= World.max_steps_per_generation w.
Proof.
  intros HL Hs.
  destruct (simulate_run_inv c width height pop L rate cmds g w g' HL Hs)
    as ((_ & _ & Hmax & Hgs & Hr & _) & HLw & _).
  rewrite HLw in Hmax, Hgs.
  split; [| split; [exact Hgs | split; [exact Hmax |]]].
  - eapply Forall_impl; [exact Hr |]. simpl. intros r (_ & _ & H). exact H.
  - lia.
Qed.

(** The run [demo_cmds]: after two steps of five the counter is below 5. *)
Lemma rockets_in_lockstep_witness :
  exists w g',
    simulate config0 300 200 2 5 0 demo_cmds rng0 = Ok (w, g')
    /\ Forall (fun r => Rocket.current_step r = World.generation_step w)
              (World.get_rockets w)
    /\ (World.generation_step w = 0 \/ 0 < World.generation_step w < 5).
Proof.
  assert (H5 : 1 <= 5) by lia. assert (H0 : 0 <= 5) by lia.
  destruct (simulate_total config0 300 200 2 5 0 demo_cmds rng0 H5) as (w & g' & Hs).
  exists w, g'. split; [exact Hs |].
  destruct (rockets_in_lockstep config0 300 200 2 5 0 demo_cmds rng0 g' w H0 Hs)
    as (H1 & H2 & _).
  split; [exact H1 | exact H2].
Defined.

(** X14. [get_generation_progress] of a world of such a run is the quotient
    of the step counter by the cap, without the clamp of [min], and lies in
    [0, 1): between two steps the progress never reads 1.0, and it stays at
    or below [dna_length / (dna_length + 50)]. *)
Theorem generation_progress_range (c : Config.t) (width height pop L : Z)
    (rate : R) (cmds : list command) (g g' : rng) (w : World.t) :
  0 <= L ->
  simulate c width height pop L rate cmds g = Ok (w, g') ->
  World.get_generation_progress w
    = (IZR (World.generation_step w) / IZR (L + 50))%R
  /\ (0 <= World.get_generation_progress w < 1)%R
  /\ (World.get_generation_progress w * IZR (L + 50) <= IZR L)%R.
Proof.
  intros HL Hs.
  destruct (simulate_run_inv c width height pop L rate cmds g w g' HL Hs)
    as ((_ & _ & Hmax & Hgs & _) & HLw & _).
  rewrite HLw in Hmax, Hgs.
  assert (Hrange : 0 <= World.generation_step w <= L) by lia.
  assert (Hlt : World.generation_step w < L + 50) by lia.
  clear Hgs Hs.
  unfold World.get_generation_progress. rewrite Hmax.
  destruct (Z.leb_spec (L + 50) 0) as [Hle | _]; [lia |].
  assert (Hp : (0 < IZR (L + 50))%R) by (apply IZR_lt; lia).
  assert (Hg0 : (0 <= IZR (World.generation_step w))%R) by (apply IZR_le; lia).
  assert (HgL : (IZR (World.generation_step w) <= IZR L)%R) by (apply IZR_le; lia).
  assert (Hg1 : (IZR (World.generation_step w) < IZR (L + 50))%R) by (apply IZR_lt; lia).
  assert (Hq1 : (IZR (World.generation_step w) / IZR (L + 50) < 1)%R).
  { apply Rmult_lt_reg_r with (IZR (L + 50)); [exact Hp |].
    unfold Rdiv. rewrite Rmult_assoc, Rinv_l by lra. lra. }
  assert (Hq0 : (0 <= IZR (World.generation_step w) / IZR (L + 50))%R).
  { unfold Rdiv. apply Rmult_le_pos; [exact Hg0 |].
    apply Rlt_le, Rinv_0_lt_compat, Hp. }
  rewrite Rmin_right by lra.
  split; [reflexivity |]. split; [lra |].
  unfold Rdiv. rewrite Rmult_assoc, Rinv_l by lra. lra.
Qed.

(** The run [demo_cmds]. *)
Lemma generation_progress_range_witness :
  exists w g',
    simulate config0 300 200 2 5 0 demo_cmds rng0 = Ok (w, g')
    /\ (0 <= World.get_generation_progress w < 1)%R.
Proof.
  assert (H5 : 1 <= 5) by lia. assert (H0 : 0 <= 5) by lia.
  destruct (simulate_total config0 300 200 2 5 0 demo_cmds rng0 H5) as (w & g' & Hs).
  exists w, g'. split; [exact Hs |].
  destruct (generation_progress_range config0 300 200 2 5 0 demo_cmds rng0 g' w H0 Hs)
    as (_ & H & _).
  exact H.
Defined.

(** X15. The entity list of a world of such a run holds at most one target,
    the one [self.target] refers to.  [set_target(x, y, radius)] on it
    removes that target (if any) and leaves exactly one target, at [(x, y)]
    with the radius given, which [target_pos] then reports; the rockets are
    untouched. *)
Theorem single_target (c : Config.t) (width height pop L : Z)
    (rate : R) (cmds : list command) (g g' : rng) (w : World.t) (x y radius : R) :
  0 <= L ->
  simulate c width height pop L rate cmds g = Ok (w, g') ->
  targets_of (World.entities w)
  = match World.target w with Some tg => [tg] | None => [] end
  /\ exists ident,
       World.target (World.set_target w x y radius)
       = Some (Target.mk ident (x, y) radius)
       /\ targets_of (World.entities (World.set_target w x y radius))
          = [Target.mk ident (x, y) radius]
       /\ World.target_pos (World.set_target w x y radius) = (x, y)
       /\ World.get_rockets (World.set_target w x y radius) = World.get_rockets w.
Proof.
  intros HL Hs.
  destruct (simulate_run_inv c width height pop L rate cmds g w g' HL Hs)
    as ((_ & _ & _ & _ & _ & Htg) & _ & _).
  split; [exact Htg |].
  destruct (set_target_targets w x y radius Htg) as (ident & T1 & T2).
  pose proof (set_target_keeps w x y radius) as Hk. cbv zeta in Hk.
  destruct Hk as (K1 & _).
  exists ident. split; [exact T1 |]. split; [exact T2 |]. split; [| exact K1].
  unfold World.target_pos. rewrite T1. reflexivity.
Qed.

(** The run [demo_cmds], followed by a move of the target to (7, 8). *)
Lemma single_target_witness :
  exists w g',
    simulate config0 300 200 2 5 0 demo_cmds rng0 = Ok (w, g')
    /\ World.target_pos (World.set_target w 7 8 3) = (7, 8)%R.
Proof.
  assert (H5 : 1 <= 5) by lia. assert (H0 : 0 <= 5) by lia.
  destruct (simulate_total config0 300 200 2 5 0 demo_cmds rng0 H5) as (w & g' & Hs).
  exists w, g'. split; [exact Hs |].
  destruct (single_target config0 300 200 2 5 0 demo_cmds rng0 g' w 7 8 3 H0 Hs)
    as (_ & ident & _ & _ & H & _).
  exact H.
Defined.

(** *** Genomes without instructions *)

Lemma bind_Raise {A B} (m : M A) (k : A -> M B) g e :
  m g = Raise e -> bind m k g = Raise e.
Proof. intros H. unfold bind. rewrite H. reflexivity. Qed.

Lemma bind_step {A B} (m : M A) (k : A -> M B) g a g1 :
  m g = Ok (a, g1) -> bind m k g = k a g1.
Proof. intros H. unfold bind. rewrite H. reflexivity. Qed.

Lemma crossover_empty b g : DNA.crossover (DNA.mk []) b g = Raise ValueError.
Proof. reflexivity. Qed.

Lemma breed_empty_genomes c p rockets g :
  rockets <> [] ->
  Forall (fun r => Rocket.dna r = []) rockets ->
  Population.breed c p rockets g = Raise ValueError.
Proof.
  intros Hne Hd. unfold Population.breed.
  destruct (roulette_total rockets g) as (o1 & g1 & H1).
  destruct (roulette_range rockets g o1 g1 Hne H1) as (i1 & -> & Hi1).
  destruct (roulette_total rockets g1) as (o2 & g2 & H2).
  destruct (roulette_range rockets g1 o2 g2 Hne H2) as (i2 & -> & Hi2).
  rewrite (bind_step _ _ _ _ _ H1), (bind_step _ _ _ _ _ H2).
  destruct (py_index_Ok rockets i1 Hi1) as (r1 & E1 & M1).
  destruct (py_index_Ok rockets i2 Hi2) as (r2 & E2 & M2).
  rewrite E1, E2. unfold lift. unfold bind at 1. unfold bind at 1.
  apply bind_Raise. unfold Rocket.get_dna_copy.
  rewrite Forall_forall in Hd. rewrite (Hd r1 M1). apply crossover_empty.
Qed.

Lemma next_generation_empty_genomes c p rockets g :
  rockets <> [] ->
  Forall (fun r => Rocket.dna r = []) rockets ->
  Population.start_positions p <> [] ->
  Population.next_generation c p rockets g = Raise ValueError.
Proof.
  intros Hne Hd Hsp. unfold Population.next_generation.
  destruct rockets as [|r0 rs]; [done |].
  apply bind_Raise.
  destruct (Population.start_positions p) as [|s sp]; [done |].
  simpl. apply bind_Raise. apply breed_empty_genomes; done.
Qed.

Lemma nonempty_length {A} (l : list A) : l <> [] <-> (0 < length l)%nat.
Proof. destruct l; simpl; split; intros; try done; lia. Qed.

Lemma step_empty_genomes c w g :
  run_inv w -> World.dna_length w = 0 -> World.get_rockets w <> [] ->
  World.step c w g = Raise ValueError.
Proof.
  intros (Hinv & Hcount & Hmax & _) HL Hne.
  destruct (advance_total w Hinv) as (w1 & Hadv).
  pose proof (advance_inv w w1 Hinv Hadv) as Hinv1.
  destruct (advance_Ok w w1 Hadv)
    as (A1 & A2 & A3 & A4 & _ & _ & A7 & _ & _ & A10 & _).
  assert (Hne1 : World.get_rockets w1 <> []).
  { apply nonempty_length. rewrite <- (Forall2_length _ _ _ A10).
    apply nonempty_length, Hne. }
  assert (Hsp : Population.start_positions (World.population w1) <> []).
  { rewrite A2. destruct Hinv as (_ & _ & -> & _).
    apply nonempty_length. rewrite <- Hcount. apply nonempty_length, Hne. }
  assert (Hdna : Forall (fun r => Rocket.dna r = [] /\ finished r)
                        (World.get_rockets w1)).
  { destruct Hinv1 as (_ & _ & _ & _ & _ & Hr).
    eapply Forall_impl; [exact Hr |]. simpl. intros r (H1 & H2 & H3).
    rewrite A3, HL in H1, H2, H3. split.
    - destruct (Rocket.dna r); [done |]. unfold py_len in H1. simpl in H1. lia.
    - left. lia. }
  assert (Hend : World._should_end_generation w1 = true).
  { apply should_end_iff; [congruence |]. right. right.
    eapply Forall_impl; [exact Hdna |]. simpl. intros r (_ & H). exact H. }
  unfold World.step.
  rewrite (bind_step _ _ g w1 g) by (unfold lift; rewrite Hadv; reflexivity).
  rewrite Hend. apply bind_Raise.
  unfold World._end_generation.
  destruct (World.get_rockets w1) as [|r0 rs] eqn:Er; [done |].
  apply bind_Raise. apply next_generation_empty_genomes; [| | exact Hsp].
  - unfold World.get_rockets in Er.
    destruct (World.target w1);
      [rewrite rockets_of_map_rockets |]; rewrite Er; done.
  - unfold World.get_rockets in Er.
    destruct (World.target w1) as [tg|].
    + rewrite rockets_of_map_rockets, Er. apply Forall_map.
      eapply Forall_impl; [exact Hdna |]. simpl. intros r (H & _).
      pose proof (evaluate_fitness_keeps r (Target.pos tg)) as Hk.
      cbv zeta in Hk. destruct Hk as (_ & _ & _ & -> & _). exact H.
    + rewrite Er. eapply Forall_impl; [exact Hdna |]. simpl. intros r (H & _). exact H.
Qed.

Lemma exec_empty_genomes c cmds w g :
  run_inv w -> World.dna_length w = 0 -> World.get_rockets w <> [] ->
  In Step cmds ->
  exec c cmds w g = Raise ValueError.
Proof.
  revert w. induction cmds as [|[|x y radius] cmds IH]; intros w Hrun HL Hne Hin.
  - destruct Hin.
  - simpl. apply bind_Raise. apply step_empty_genomes; done.
  - simpl. destruct Hin as [Hin | Hin]; [discriminate |].
    pose proof (set_target_keeps w x y radius) as Hk. cbv zeta in Hk.
    destruct Hk as (K1 & _ & K3 & _).
    apply IH; [apply set_target_run_inv, Hrun | congruence | congruence | exact Hin].
Qed.

(** X16. A world built with [dna_length = 0] and at least one rocket is
    created without error, but its first [step()] raises [ValueError]: the
    generation is over at once, and breeding calls
    [random.randint(0, -1)] in [crossover].  So does every run that makes
    at least one step, wherever the target is set. *)
Theorem empty_genome_crashes (c : Config.t) (width height pop : Z) (rate : R)
    (g : rng) :
  1 <= pop ->
  (exists w0 g0,
      World.init c width height pop 0 rate g = Ok (w0, g0)
      /\ length (World.get_rockets w0) = Z.to_nat pop
      /\ World.step c w0 g0 = Raise ValueError)
  /\ forall cmds, In Step cmds ->
       simulate c width height pop 0 rate cmds g = Raise ValueError.
Proof.
  intros Hpop.
  destruct (init_total c width height pop 0 rate g) as (w0 & g0 & Hi).
  destruct (init_run_inv c width height pop 0 rate g w0 g0 (Z.le_refl 0) Hi)
    as (Hrun & HL & Hsp).
  assert (Hcount : length (World.get_rockets w0) = Z.to_nat pop).
  { destruct Hrun as (_ & -> & _). exact Hsp. }
  assert (Hne : World.get_rockets w0 <> []).
  { apply nonempty_length. rewrite Hcount. lia. }
  split.
  - exists w0, g0. split; [exact Hi |]. split; [exact Hcount |].
    apply step_empty_genomes; done.
  - intros cmds Hin. unfold simulate.
    rewrite (bind_step _ _ _ _ _ Hi). apply exec_empty_genomes; done.
Qed.

(** Two rockets without instructions: the run [demo_cmds] raises. *)
Lemma empty_genome_crashes_witness :
  simulate config0 300 200 2 0 0 demo_cmds rng0 = Raise ValueError.
Proof.
  assert (H : 1 <= 2) by lia.
  destruct (empty_genome_crashes config0 300 200 2 0 rng0 H) as (_ & Hc).
  apply Hc. simpl. auto.
Defined.

(** *** The fitness stored in a rocket and the next step *)

Lemma update_set_fitness x r :
  Rocket.update (Rocket.set_fitness x r)
  = match Rocket.update r with
    | Ok r' => Ok (Rocket.set_fitness x r')
    | Raise e => Raise e
    end.
Proof.
  destruct r. unfold Rocket.update, Rocket._apply_thrust. simpl.
  destruct is_active; simpl; [| reflexivity].
  destruct (current_step <? dna_length); [| reflexivity].
  destruct (py_index dna current_step); reflexivity.
Qed.

Lemma refit_same fit es : Forall2 same_but_fitness es (refit fit es).
Proof.
  induction es as [|[t|r] es IH]; simpl; constructor; simpl; eauto.
Qed.

Lemma same_but_fitness_no_rockets es es' :
  Forall2 same_but_fitness es es' -> World.rockets_of es = [] -> es' = es.
Proof.
  induction 1 as [|e e' es es' He _ IH]; [reflexivity |].
  destruct e as [t|r], e' as [t'|r']; simpl in *; try done.
  intros H. rewrite He, (IH H). reflexivity.
Qed.

Lemma same_but_fitness_rockets es es' :
  Forall2 same_but_fitness es es' ->
  length (World.rockets_of es') = length (World.rockets_of es).
Proof.
  induction 1 as [|e e' es es' He _ IH]; [reflexivity |].
  destruct e as [t|r], e' as [t'|r']; simpl in *; try done. lia.
Qed.

Lemma update_all_same_but_fitness es es' :
  Forall2 same_but_fitness es es' ->
  match World.update_all es, World.update_all es' with
  | Ok a, Ok a' => Forall2 same_but_fitness a a'
  | Raise e, Raise e' => e' = e
  | _, _ => False
  end.
Proof.
  induction 1 as [|e e' es es' He _ IH]; simpl; [constructor |].
  destruct e as [t|r], e' as [t'|r']; simpl in *; try done.
  - subst t'.
    destruct (World.update_all es), (World.update_all es'); try done.
    constructor; [reflexivity | exact IH].
  - destruct He as (x & ->). rewrite update_set_fitness.
    destruct (Rocket.update r) as [ru|e]; [| reflexivity].
    destruct (World.update_all es), (World.update_all es'); try done.
    constructor; [simpl; eauto | exact IH].
Qed.

Lemma stats_loop_same_but_fitness w w' tp es es' :
  World.width w' = World.width w -> World.height w' = World.height w ->
  Forall2 same_but_fitness es es' ->
  forall a, World.stats_loop w' tp a es' = World.stats_loop w tp a es.
Proof.
  intros Hw Hh. induction 1 as [|e e' es es' He _ IH]; intros a; [reflexivity |].
  destruct e as [t|r], e' as [t'|r']; simpl in He; try done;
    cbn [World.stats_loop].
  - subst t'. rewrite IH. reflexivity.
  - destruct He as (x & ->).
    assert (E : World.stats_rocket w' tp a (Rocket.set_fitness x r)
                = World.stats_rocket w tp a r).
    { unfold World.stats_rocket, World.out_of_bounds.
      rewrite evaluate_fitness_forgets, Hw, Hh. reflexivity. }
    rewrite E. destruct (World.stats_rocket w tp a r) as [a1 r1].
    rewrite IH. reflexivity.
Qed.

Lemma calculate_stats_same_but_fitness w es' tg :
  World.target w = Some tg ->
  Forall2 same_but_fitness (World.entities w) es' ->
  World._calculate_rocket_stats (World.set_entities es' w)
  = World._calculate_rocket_stats w.
Proof.
  intros Ht Hs. unfold World._calculate_rocket_stats, World.get_rockets.
  pose proof (same_but_fitness_rockets _ _ Hs) as Hlen.
  assert (Et : World.target (World.set_entities es' w) = Some tg)
    by (destruct w; exact Ht).
  assert (Ee : World.entities (World.set_entities es' w) = es')
    by (destruct w; reflexivity).
  rewrite Et, Ee, Ht.
  destruct (World.rockets_of (World.entities w)) as [|r0 rs] eqn:Er.
  - rewrite (same_but_fitness_no_rockets _ _ Hs Er), Er.
    destruct w; reflexivity.
  - destruct (World.rockets_of es') as [|r0' rs'] eqn:Er'; [simpl in Hlen; lia |].
    rewrite (stats_loop_same_but_fitness w (World.set_entities es' w)
               (Target.pos tg) (World.entities w) es')
      by (try exact Hs; destruct w; reflexivity).
    destruct (World.stats_loop w (Target.pos tg) _ (World.entities w)) as [a es].
    destruct w; reflexivity.
Qed.

Lemma advance_same_but_fitness w es' tg :
  World.target w = Some tg ->
  Forall2 same_but_fitness (World.entities w) es' ->
  World.advance (World.set_entities es' w) = World.advance w.
Proof.
  intros Ht Hs. unfold World.advance.
  assert (Ee : World.entities (World.set_entities es' w) = es')
    by (destruct w; reflexivity).
  rewrite Ee.
  pose proof (update_all_same_but_fitness _ _ Hs) as Hu.
  destruct (World.update_all (World.entities w)) as [a|e],
           (World.update_all es') as [a'|e']; try done; [| congruence].
  f_equal.
  set (W := World.set_generation_step (World.generation_step w + 1)
              (World.set_entities a w)).
  replace (World.set_generation_step _ (World.set_entities a' _))
    with (World.set_entities a' W) by (destruct w; reflexivity).
  apply calculate_stats_same_but_fitness with tg.
  - destruct w; exact Ht.
  - destruct w; exact Hu.
Qed.

(** X17. While a target is set, the fitness stored in the rockets has no
    influence on a step: the statistics pass evaluates every rocket anew
    without reading its stored fitness, so the out-of-bounds factor 0.1 of
    one step is not compounded by the next, and breeding at the end of a
    generation sees freshly evaluated values.  The step of a world whose
    stored fitnesses were replaced at will is the step of the original
    world: same result or same exception, same generator state. *)
Theorem step_forgets_fitness (c : Config.t) (w : World.t) (tg : Target.t)
    (fit : Rocket.t -> R) (g : rng) :
  World.target w = Some tg ->
  World.step c (World.set_entities (refit fit (World.entities w)) w) g
  = World.step c w g.
Proof.
  intros Ht. unfold World.step, bind.
  rewrite (advance_same_but_fitness w _ tg Ht (refit_same fit (World.entities w))).
  reflexivity.
Qed.

(** The rocket of [one_rocket_world] with a stored fitness of 5. *)
Lemma step_forgets_fitness_witness :
  World.step config0
    (World.set_entities (refit (fun _ => 5%R) (World.entities one_rocket_world))
                        one_rocket_world) rng0
  = World.step config0 one_rocket_world rng0.
Proof.
  apply (step_forgets_fitness config0 one_rocket_world (Target.mk O (0, 0)%R 20)).
  reflexivity.
Defined.

(** *** The statistics pass *)

Lemma xle_refl a : xle a a.
Proof. destruct a; simpl; [lra | done]. Qed.

Lemma xle_trans a b c : xle a b -> xle b c -> xle a c.
Proof. destruct a, b, c; simpl; try done. lra. Qed.

Lemma stats_rocket_tally w tp a r :
  let d := Vector2D.safe_distance (Rocket.pos r) tp in
  let f := Rocket.fitness (Rocket.evaluate_fitness r tp) in
  let a1 := (World.stats_rocket w tp a r).1 in
  World.best_dist a1 = (if xltb d (World.best_dist a) then Finite d
                        else World.best_dist a)
  /\ World.best_fitness a1 = (if Rltb (World.best_fitness a) f then f
                              else World.best_fitness a).
Proof.
  simpl. unfold World.stats_rocket. simpl.
  pose proof (evaluate_fitness_keeps r tp) as Hk. cbv zeta in Hk.
  destruct Hk as (_ & -> & _). split; reflexivity.
Qed.

Lemma stats_loop_tally w tp es :
  forall a,
    let out := World.stats_loop w tp a es in
    let dist r := Vector2D.safe_distance (Rocket.pos r) tp in
    let fit r := Rocket.fitness (Rocket.evaluate_fitness r tp) in
    xle (World.best_dist out.1) (World.best_dist a)
    /\ (forall r, r ∈ World.rockets_of es ->
                  xle (World.best_dist out.1) (Finite (dist r)))
    /\ (World.best_dist out.1 = World.best_dist a
        \/ exists r, r ∈ World.rockets_of es
                     /\ World.best_dist out.1 = Finite (dist r))
    /\ (World.best_fitness a <= World.best_fitness out.1)%R
    /\ (forall r, r ∈ World.rockets_of es ->
                  (fit r <= World.best_fitness out.1)%R)
    /\ (World.best_fitness out.1 = World.best_fitness a
        \/ exists r, r ∈ World.rockets_of es
                     /\ World.best_fitness out.1 = fit r).
Proof.
  induction es as [|[t|r] es IH]; intros a; cbv zeta.
  - simpl. split; [apply xle_refl |]. split; [intros r Hr; inversion Hr |].
    split; [left; reflexivity |]. split; [lra |].
    split; [intros r Hr; inversion Hr | left; reflexivity].
  - cbn [World.stats_loop World.rockets_of]. specialize (IH a). cbv zeta in IH.
    destruct (World.stats_loop w tp a es) as [a' out]. exact IH.
  - cbn [World.stats_loop World.rockets_of].
    pose proof (stats_rocket_tally w tp a r) as Hs. cbv zeta in Hs.
    destruct (World.stats_rocket w tp a r) as [a1 r2]. simpl in Hs.
    destruct Hs as [Hd Hf].
    specialize (IH a1). cbv zeta in IH.
    destruct (World.stats_loop w tp a1 es) as [a2 out]. simpl in IH |- *.
    destruct IH as (I1 & I2 & I3 & I4 & I5 & I6).
    set (d := Vector2D.safe_distance (Rocket.pos r) tp) in *.
    set (f := Rocket.fitness (Rocket.evaluate_fitness r tp)) in *.
    assert (D1 : xle (World.best_dist a1) (World.best_dist a)
                 /\ xle (World.best_dist a1) (Finite d)
                 /\ (World.best_dist a1 = World.best_dist a
                     \/ World.best_dist a1 = Finite d)).
    { rewrite Hd. destruct (World.best_dist a) as [y|]; simpl.
      - destruct (Rltb d y) eqn:E; simpl.
        + apply Rltb_true in E. split; [lra |]. split; [lra | right; done].
        + apply Rltb_false in E. split; [lra |]. split; [lra | left; done].
      - split; [done |]. split; [lra | right; done]. }
    assert (F1 : (World.best_fitness a <= World.best_fitness a1)%R
                 /\ (f <= World.best_fitness a1)%R
                 /\ (World.best_fitness a1 = World.best_fitness a
                     \/ World.best_fitness a1 = f)).
    { rewrite Hf. destruct (Rltb (World.best_fitness a) f) eqn:E.
      - apply Rltb_true in E. split; [lra |]. split; [lra | right; done].
      - apply Rltb_false in E. split; [lra |]. split; [lra | left; done]. }
    destruct D1 as (D1 & D2 & D3). destruct F1 as (F1 & F2 & F3).
    split; [eapply xle_trans; eassumption |].
    split.
    { intros r' Hr'. apply elem_of_cons in Hr' as [-> | Hr'].
      - eapply xle_trans; eassumption.
      - apply I2, Hr'. }
    split.
    { destruct I3 as [I3 | (r' & Hr' & I3)].
      - rewrite I3. destruct D3 as [D3 | D3]; [left; exact D3 |].
        right. exists r. split; [apply list_elem_of_here | exact D3].
      - right. exists r'. split; [apply list_elem_of_further, Hr' | exact I3]. }
    split; [lra |].
    split.
    { intros r' Hr'. apply elem_of_cons in Hr' as [-> | Hr'].
      - fold f. lra.
      - apply I5, Hr'. }
    destruct I6 as [I6 | (r' & Hr' & I6)].
    + rewrite I6. destruct F3 as [F3 | F3]; [left; exact F3 |].
      right. exists r. split; [apply list_elem_of_here | exact F3].
    + right. exists r'. split; [apply list_elem_of_further, Hr' | exact I6].
Qed.

(** X18. What one statistics pass writes when a target is set and the world
    has rockets.  [best_distance_achieved] is the least distance from a
    rocket to the target at that moment, with the rocket that attains it:
    whatever was recorded before is overwritten, so it is the best of the
    current positions, not of the history.  [rockets_reached_current_gen]
    is the number of rockets carrying the reached-target flag after the
    pass.  [best_fitness_current_gen] is the greatest evaluated fitness,
    read before the out-of-bounds factor is applied, or 0.0 when every
    fitness is negative. *)
Theorem stats_pass_spec (w : World.t) (tg : Target.t) :
  World.target w = Some tg ->
  World.get_rockets w <> [] ->
  let s' := World.stats (World._calculate_rocket_stats w) in
  let dist r := Vector2D.safe_distance (Rocket.pos r) (Target.pos tg) in
  let fit r := Rocket.fitness (Rocket.evaluate_fitness r (Target.pos tg)) in
  (exists r, r ∈ World.get_rockets w
             /\ Stats.best_distance_achieved s' = Finite (dist r)
             /\ forall r', r' ∈ World.get_rockets w -> (dist r <= dist r')%R)
  /\ Stats.rockets_reached_current_gen s'
     = count_reached (World.get_rockets (World._calculate_rocket_stats w))
  /\ (0 <= Stats.best_fitness_current_gen s')%R
  /\ (forall r, r ∈ World.get_rockets w ->
                (fit r <= Stats.best_fitness_current_gen s')%R)
  /\ (Stats.best_fitness_current_gen s' = 0%R
      \/ exists r, r ∈ World.get_rockets w
                   /\ Stats.best_fitness_current_gen s' = fit r).
Proof.
  intros Ht Hne. cbv zeta.
  pose proof (stats_loop_tally w (Target.pos tg) (World.entities w)
                (World.mk_tally PInf 0 0%R)) as Hl.
  pose proof (stats_loop_spec w (Target.pos tg) (World.mk_tally PInf 0 0%R)
                (World.entities w)) as Hc.
  cbv zeta in Hl, Hc.
  unfold World._calculate_rocket_stats. rewrite Ht.
  fold (World.get_rockets w) in Hl.
  destruct (World.get_rockets w) as [|r0 rs] eqn:Er; [done |].
  destruct (World.stats_loop w (Target.pos tg) _ (World.entities w)) as [a es].
  simpl in Hl, Hc.
  destruct Hl as (_ & L2 & L3 & L4 & L5 & L6). destruct Hc as [_ Hc].
  assert (Hst : World.stats
                  (World.set_stats
                     (Stats.mk
                        (if 0 <? World.rockets_reached a
                         then Stats.total_rockets_reached_target (World.stats w)
                              + World.rockets_reached a
                         else Stats.total_rockets_reached_target (World.stats w))
                        (World.best_dist a) (World.rockets_reached a)
                        (World.best_fitness a)
                        (Stats.best_fitness_all_time (World.stats w))
                        (Stats.current_generation (World.stats w))
                        (Stats.generation_complete (World.stats w)))
                     (World.set_entities es w))
                = Stats.mk
                    (if 0 <? World.rockets_reached a
                     then Stats.total_rockets_reached_target (World.stats w)
                          + World.rockets_reached a
                     else Stats.total_rockets_reached_target (World.stats w))
                    (World.best_dist a) (World.rockets_reached a)
                    (World.best_fitness a)
                    (Stats.best_fitness_all_time (World.stats w))
                    (Stats.current_generation (World.stats w))
                    (Stats.generation_complete (World.stats w)))
    by reflexivity.
  rewrite Hst. cbn [Stats.best_distance_achieved Stats.rockets_reached_current_gen
                    Stats.best_fitness_current_gen].
  assert (Hrk : World.get_rockets
                  (World.set_stats
                     (Stats.mk
                        (if 0 <? World.rockets_reached a
                         then Stats.total_rockets_reached_target (World.stats w)
                              + World.rockets_reached a
                         else Stats.total_rockets_reached_target (World.stats w))
                        (World.best_dist a) (World.rockets_reached a)
                        (World.best_fitness a)
                        (Stats.best_fitness_all_time (World.stats w))
                        (Stats.current_generation (World.stats w))
                        (Stats.generation_complete (World.stats w)))
                     (World.set_entities es w))
                = World.rockets_of es) by reflexivity.
  rewrite Hrk.
  split.
  { destruct L3 as [L3 | (r & Hr & L3)].
    - exfalso. specialize (L2 r0 (list_elem_of_here _ _)).
      rewrite L3 in L2. exact L2.
    - exists r. split; [exact Hr |]. split; [exact L3 |].
      intros r' Hr'. specialize (L2 r' Hr'). rewrite L3 in L2. exact L2. }
  split; [rewrite Hc; lia |].
  split; [exact L4 |]. split; [exact L5 | exact L6].
Qed.

(** The pass on [one_rocket_world]: the rocket rests on the target. *)
Lemma stats_pass_spec_witness :
  exists r, r ∈ World.get_rockets one_rocket_world
            /\ Stats.best_distance_achieved
                 (World.stats (World._calculate_rocket_stats one_rocket_world))
               = Finite (Vector2D.safe_distance (Rocket.pos r) (0, 0)%R).
Proof.
  assert (Ht : World.target one_rocket_world = Some (Target.mk O (0, 0)%R 20))
    by reflexivity.
  assert (Hne : World.get_rockets one_rocket_world <> []) by discriminate.
  destruct (stats_pass_spec one_rocket_world _ Ht Hne) as ((r & H1 & H2 & _) & _).
  exists r. split; [exact H1 | exact H2].
Defined.

(** *** Counters along a run *)

Lemma step_cases c w g w' g' :
  World.step c w g = Ok (w', g') ->
  exists w1,
    World.advance w = Ok w1
    /\ ((World._should_end_generation w1 = false /\ w' = w1 /\ g' = g)
        \/ (World._should_end_generation w1 = true
            /\ exists w2 g2,
                 World._end_generation c w1 g = Ok (w2, g2)
                 /\ World._spawn_generation w2 g2 = Ok (w', g'))).
Proof.
  unfold World.step.
  intros (w1 & g1 & [Hadv <-]%lift_Ok & H)%bind_Ok.
  exists w1. split; [exact Hadv |].
  destruct (World._should_end_generation w1).
  - right. split; [reflexivity |].
    apply bind_Ok in H as (w2 & g2 & He & Hsp). eauto.
  - left. apply ret_Ok in H as [<- <-]. done.
Qed.

Lemma advance_stats_kept w w1 :
  World.advance w = Ok w1 ->
  Stats.best_fitness_all_time (World.stats w1)
  = Stats.best_fitness_all_time (World.stats w)
  /\ Stats.current_generation (World.stats w1)
     = Stats.current_generation (World.stats w)
  /\ Stats.generation_complete (World.stats w1)
     = Stats.generation_complete (World.stats w).
Proof.
  unfold World.advance.
  destruct (World.update_all (World.entities w)) as [es|e]; [| discriminate].
  intros [= <-]. unfold World._calculate_rocket_stats.
  destruct (World.target _) as [tg|]; [| destruct w; done].
  destruct (World.get_rockets _) as [|r rs]; [destruct w; done |].
  destruct (World.stats_loop _ _ _ _) as [a out]. destruct w; done.
Qed.

Lemma fold_best_ge (rs : list Rocket.t) :
  forall b,
    (b <= fold_left (fun b r => if Rltb b (Rocket.fitness r)
                                then Rocket.fitness r else b) rs b)%R.
Proof.
  induction rs as [|r rs IH]; intros b; simpl; [lra |].
  destruct (Rltb b (Rocket.fitness r)) eqn:E.
  - apply Rltb_true in E. specialize (IH (Rocket.fitness r)). lra.
  - apply IH.
Qed.

Lemma end_generation_stats c w g w' g' :
  World._end_generation c w g = Ok (w', g') ->
  (Stats.best_fitness_all_time (World.stats w)
   <= Stats.best_fitness_all_time (World.stats w'))%R
  /\ Stats.current_generation (World.stats w')
     = Stats.current_generation (World.stats w).
Proof.
  unfold World._end_generation.
  destruct (World.get_rockets w) as [|r rs].
  - intros [<- <-]%ret_Ok. split; [lra | reflexivity].
  - intros (p & g1 & Hp & [<- <-]%ret_Ok)%bind_Ok. simpl.
    split; [apply fold_best_ge | reflexivity].
Qed.

Lemma spawn_generation_stats w g w' g' :
  World._spawn_generation w g = Ok (w', g') ->
  Stats.best_fitness_all_time (World.stats w')
  = Stats.best_fitness_all_time (World.stats w)
  /\ Stats.current_generation (World.stats w') = World.current_generation w'
  /\ Stats.generation_complete (World.stats w') = false.
Proof.
  unfold World._spawn_generation.
  intros (rs & g1 & _ & [<- <-]%ret_Ok)%bind_Ok. simpl. done.
Qed.

Lemma step_counters c w g w' g' :
  World.step c w g = Ok (w', g') ->
  Stats.total_rockets_reached_target (World.stats w)
  <= Stats.total_rockets_reached_target (World.stats w')
  /\ (Stats.best_fitness_all_time (World.stats w)
      <= Stats.best_fitness_all_time (World.stats w'))%R
  /\ ((World.generation_step w' = World.generation_step w + 1
       /\ World.current_generation w' = World.current_generation w)
      \/ (World.generation_step w' = 0
          /\ World.current_generation w' = World.current_generation w + 1))
  /\ (Stats.generation_complete (World.stats w) = false ->
      Stats.generation_complete (World.stats w') = false)
  /\ (Stats.current_generation (World.stats w) = World.current_generation w ->
      Stats.current_generation (World.stats w') = World.current_generation w').
Proof.
  intros (w1 & Hadv & Hc)%step_cases.
  destruct (advance_Ok w w1 Hadv)
    as (_ & _ & _ & _ & _ & _ & _ & A8 & A9 & _ & A11).
  destruct (advance_stats_kept w w1 Hadv) as (B1 & B2 & B3).
  assert (Ht : Stats.total_rockets_reached_target (World.stats w)
               <= Stats.total_rockets_reached_target (World.stats w1)).
  { rewrite A11. destruct (World.target w); [| lia].
    pose proof (count_reached_nonneg (World.get_rockets w1)). lia. }
  destruct Hc as [(_ & -> & ->) | (_ & w2 & g2 & He & Hsp)].
  - split; [exact Ht |]. split; [rewrite B1; lra |].
    split; [left; done |]. split; congruence.
  - destruct (end_generation_Ok c w1 g w2 g2 He)
      as (_ & _ & _ & _ & _ & _ & E7 & E8 & E9 & _).
    destruct (end_generation_stats c w1 g w2 g2 He) as (F1 & F2).
    destruct (spawn_generation_Ok w2 g2 w' g' Hsp)
      as (_ & _ & _ & _ & _ & _ & _ & _ & S9 & S10 & S11).
    destruct (spawn_generation_stats w2 g2 w' g' Hsp) as (T1 & T2 & T3).
    split; [lia |]. split; [rewrite T1, <- B1; exact F1 |].
    split; [right; split; [exact S10 | lia] |]. split; intros _; done.
Qed.

Lemma exec_counters c cmds :
  forall w g w' g',
    exec c cmds w g = Ok (w', g') ->
    Stats.total_rockets_reached_target (World.stats w)
    <= Stats.total_rockets_reached_target (World.stats w')
    /\ (Stats.best_fitness_all_time (World.stats w)
        <= Stats.best_fitness_all_time (World.stats w'))%R
    /\ World.current_generation w <= World.current_generation w'
       <= World.current_generation w + count_steps cmds
    /\ (Stats.generation_complete (World.stats w) = false ->
        Stats.generation_complete (World.stats w') = false)
    /\ (Stats.current_generation (World.stats w) = World.current_generation w ->
        Stats.current_generation (World.stats w') = World.current_generation w').
Proof.
  induction cmds as [|[|x y radius] cmds IH]; intros w g w' g' He.
  - apply ret_Ok in He as [<- _]. unfold count_steps. simpl.
    split; [lia |]. split; [lra |]. split; [lia | done].
  - simpl in He. apply bind_Ok in He as (w1 & g1 & Hs & He).
    destruct (step_counters c w g w1 g1 Hs) as (S1 & S2 & S3 & S4 & S5).
    destruct (IH w1 g1 w' g' He) as (I1 & I2 & I3 & I4 & I5).
    assert (Hn : count_steps (Step :: cmds) = count_steps cmds + 1)
      by (unfold count_steps; simpl; lia).
    rewrite Hn.
    split; [lia |]. split; [lra |]. split; [lia |]. split; auto.
  - simpl in He.
    pose proof (set_target_keeps w x y radius) as Hk. cbv zeta in Hk.
    destruct Hk as (_ & _ & _ & _ & _ & K6 & K7 & _).
    destruct (IH _ g w' g' He) as (I1 & I2 & I3 & I4 & I5).
    rewrite K6, K7 in *.
    assert (Hn : count_steps (SetTarget x y radius :: cmds) = count_steps cmds)
      by reflexivity.
    rewrite Hn. done.
Qed.

Lemma empty_world_inv : world_inv empty_world.
Proof.
  unfold world_inv, empty_world. simpl.
  split; [lia |]. repeat split; constructor.
Qed.

(** X19. Along any run of [step()] and [set_target()] calls, from any
    world, the counter [total_rockets_reached_target] and the statistic
    [best_fitness_all_time] never decrease, and the generation number
    never decreases and grows by at most one per [step()]. *)
Theorem counters_monotone (c : Config.t) (cmds : list command)
    (w w' : World.t) (g g' : rng) :
  exec c cmds w g = Ok (w', g') ->
  Stats.total_rockets_reached_target (World.stats w)
  <= Stats.total_rockets_reached_target (World.stats w')
  /\ (Stats.best_fitness_all_time (World.stats w)
      <= Stats.best_fitness_all_time (World.stats w'))%R
  /\ World.current_generation w <= World.current_generation w'
     <= World.current_generation w + count_steps cmds.
Proof.
  intros He. destruct (exec_counters c cmds w g w' g' He) as (H1 & H2 & H3 & _).
  done.
Qed.

(** Two steps of the world without rockets, the target set in between. *)
Lemma counters_monotone_witness :
  exists w' g',
    exec config0 [Step; SetTarget 1 2 3; Step] empty_world rng0 = Ok (w', g')
    /\ World.current_generation empty_world <= World.current_generation w'
       <= World.current_generation empty_world + 2.
Proof.
  assert (H1 : 1 <= World.dna_length empty_world) by (simpl; lia).
  destruct (exec_total config0 [Step; SetTarget 1 2 3; Step] empty_world rng0
              empty_world_inv H1) as (w' & g' & He).
  exists w', g'. split; [exact He |].
  destruct (counters_monotone config0 _ _ _ _ _ He) as (_ & _ & H).
  exact H.
Defined.

(** X20. Between the calls of a run that starts with the constructor,
    [is_generation_complete()] is never true: the step that ends a
    generation sets the flag and spawns the next generation, which clears
    it, before it returns.  The generation number in the statistics agrees
    with the world's, which starts at 1 and is at most one more than the
    number of steps made. *)
Theorem never_complete (c : Config.t) (width height pop L : Z) (rate : R)
    (cmds : list command) (g g' : rng) (w : World.t) :
  simulate c width height pop L rate cmds g = Ok (w, g') ->
  World.is_generation_complete w = false
  /\ Stats.current_generation (World.get_stats w) = World.current_generation w
  /\ 1 <= World.current_generation w <= 1 + count_steps cmds.
Proof.
  unfold simulate. intros (w0 & g0 & Hi & He)%bind_Ok.
  unfold World.init in Hi. apply bind_Ok in Hi as (p & g1 & _ & Hsp).
  destruct (spawn_generation_stats _ _ _ _ Hsp) as (_ & T2 & T3).
  destruct (spawn_generation_Ok _ _ _ _ Hsp)
    as (_ & _ & _ & _ & _ & _ & _ & _ & S9 & _).
  simpl in S9.
  destruct (exec_counters c cmds w0 g0 w g' He) as (_ & _ & I3 & I4 & I5).
  unfold World.is_generation_complete, World.get_stats.
  split; [auto |]. split; [auto | lia].
Qed.

(** The run [demo_cmds]. *)
Lemma never_complete_witness :
  exists w g',
    simulate config0 300 200 2 5 0 demo_cmds rng0 = Ok (w, g')
    /\ World.is_generation_complete w = false.
Proof.
  assert (H5 : 1 <= 5) by lia.
  destruct (simulate_total config0 300 200 2 5 0 demo_cmds rng0 H5) as (w & g' & Hs).
  exists w, g'. split; [exact Hs |].
  destruct (never_complete config0 300 200 2 5 0 demo_cmds rng0 g' w Hs) as (H & _).
  exact H.
Defined.

(** *** The fitness that selection sees *)

Lemma updated_rockets tg rs rs1 :
  Forall2 (fun r r1 => exists ru, Rocket.update r = Ok ru
                                  /\ evaluated (Some tg) ru r1) rs rs1 ->
  exists rus,
    Forall2 (fun r ru => Rocket.update r = Ok ru) rs rus
    /\ map (fun r => Rocket.evaluate_fitness r (Target.pos tg)) rs1
       = map (fun r => Rocket.evaluate_fitness r (Target.pos tg)) rus.
Proof.
  induction 1 as [|r r1 rs rs1 (ru & Hu & f & ->) _ (rus & IH1 & IH2)].
  - exists []. split; [constructor | reflexivity].
  - exists (ru :: rus). split; [constructor; done |].
    simpl. rewrite evaluate_fitness_forgets, evaluate_fitness_twice, IH2.
    reflexivity.
Qed.

(** X21. The out-of-bounds factor never reaches selection.  When a step
    ends a generation while a target is set, the parents that
    [next_generation] chooses among are the rockets as [update] left them,
    each carrying the plain result of [evaluate_fitness] against the
    target position: the factor 0.1 that the statistics pass of the same
    step applied to rockets outside the world has been overwritten by
    [_end_generation]. *)
Theorem selection_ignores_penalty (c : Config.t) (w w' : World.t)
    (tg : Target.t) (g g' : rng) :
  World.target w = Some tg ->
  World.get_rockets w <> [] ->
  World.step c w g = Ok (w', g') ->
  World.current_generation w' = World.current_generation w + 1 ->
  exists rus g2,
    Forall2 (fun r ru => Rocket.update r = Ok ru) (World.get_rockets w) rus
    /\ Population.next_generation c (World.population w)
         (map (fun ru => Rocket.evaluate_fitness ru (Target.pos tg)) rus) g
       = Ok (World.population w', g2).
Proof.
  intros Ht Hne (w1 & Hadv & Hc)%step_cases Hgen.
  destruct (advance_Ok w w1 Hadv)
    as (A1 & A2 & _ & _ & _ & _ & _ & A8 & _ & A10 & _).
  destruct Hc as [(_ & -> & _) | (_ & w2 & g2 & He & Hsp)]; [lia |].
  destruct (spawn_generation_Ok w2 g2 w' g' Hsp) as (_ & _ & S3 & _).
  rewrite Ht in A10. destruct (updated_rockets tg _ _ A10) as (rus & R1 & R2).
  exists rus, g2. split; [exact R1 |].
  assert (Hne1 : World.get_rockets w1 <> []).
  { apply nonempty_length. rewrite <- (Forall2_length _ _ _ A10).
    apply nonempty_length, Hne. }
  unfold World._end_generation in He.
  destruct (World.get_rockets w1) as [|r0 rs] eqn:Er; [done |].
  rewrite A1, Ht in He.
  apply bind_Ok in He as (p & g3 & Hp & [<- <-]%ret_Ok).
  rewrite rockets_of_map_rockets in Hp. fold (World.get_rockets w1) in Hp.
  rewrite Er, R2, A2 in Hp. rewrite S3. exact Hp.
Qed.

(** A world of two rockets of one instruction each: the first step ends
    the generation. *)
Lemma selection_ignores_penalty_witness :
  exists w w' tg g g' rus g2,
    World.target w = Some tg
    /\ World.step config0 w g = Ok (w', g')
    /\ Forall2 (fun r ru => Rocket.update r = Ok ru) (World.get_rockets w) rus
    /\ Population.next_generation config0 (World.population w)
         (map (fun ru => Rocket.evaluate_fitness ru (Target.pos tg)) rus) g
       = Ok (World.population w', g2).
Proof.
  destruct (init_total config0 300 200 2 1 0 rng0) as (w0 & g0 & Hi).
  assert (H01 : 0 <= 1) by lia.
  destruct (init_run_inv config0 300 200 2 1 0 rng0 w0 g0 H01 Hi)
    as (Hrun0 & HL0 & Hsp0).
  pose proof (set_target_run_inv w0 100 150 20 Hrun0) as Hrun.
  pose proof (set_target_keeps w0 100 150 20) as Hk. cbv zeta in Hk.
  destruct Hk as (K1 & _ & K3 & K4 & _ & _ & _ & K8 & ident & Ktg).
  set (w := World.set_target w0 100 150 20) in *.
  assert (HL : World.dna_length w = 1) by congruence.
  assert (Hinv : world_inv w) by (destruct Hrun as (H & _); exact H).
  assert (H1 : 1 <= World.dna_length w) by lia.
  destruct (step_total config0 w g0 Hinv H1) as (w' & g' & Hs).
  assert (Hne : World.get_rockets w <> []).
  { apply nonempty_length. destruct Hrun as (_ & -> & _). rewrite K4, Hsp0.
    simpl. lia. }
  assert (Hgen : World.current_generation w' = World.current_generation w + 1).
  { destruct (step_counters config0 w g0 w' g' Hs)
      as (_ & _ & [(C1 & _) | (_ & C2)] & _); [| exact C2].
    destruct (step_inv config0 w g0 w' g' Hinv Hs) as (_ & HL').
    pose proof (step_run_inv config0 w g0 w' g' Hrun Hs) as (_ & _ & _ & G' & _).
    destruct Hrun as (_ & _ & _ & G & _). lia. }
  destruct (selection_ignores_penalty config0 w w' _ g0 g' Ktg Hne Hs Hgen)
    as (rus & g2 & R1 & R2).
  exists w, w', (Target.mk ident (100, 150)%R 20), g0, g', rus, g2.
  split; [exact Ktg |]. split; [exact Hs |]. split; [exact R1 | exact R2].
Defined.

(** *** Selection pressure *)

Lemma py_sum_app (l l' : list R) : py_sum (l ++ l') = (py_sum l + py_sum l')%R.
Proof.
  induction l as [|x l IH]; simpl.
  - rewrite py_sum_nil. lra.
  - rewrite !py_sum_cons, IH. lra.
Qed.

Lemma prefix_sum_last (nf : list R) :
  nf <> [] -> prefix_sum nf (py_len nf - 1) = py_sum nf.
Proof.
  intros Hne. unfold prefix_sum, py_len.
  replace (Z.to_nat (Z.of_nat (length nf) - 1 + 1)) with (length nf) by lia.
  rewrite firstn_all. reflexivity.
Qed.

Lemma prefix_sum_step (nf : list R) (j : Z) (x : R) :
  0 <= j -> nf !! Z.to_nat j = Some x ->
  prefix_sum nf j
  = ((if j =? 0 then 0 else prefix_sum nf (j - 1)) + x)%R.
Proof.
  intros Hj Hx. unfold prefix_sum.
  replace (Z.to_nat (j + 1)) with (S (Z.to_nat j)) by lia.
  rewrite (take_S_r _ _ _ Hx), py_sum_app, py_sum_cons, py_sum_nil.
  destruct (Z.eqb_spec j 0) as [-> | Hn].
  - change (Z.to_nat 0) with O. rewrite take_0, py_sum_nil. lra.
  - replace (Z.to_nat (j - 1 + 1)) with (Z.to_nat j) by lia. lra.
Qed.

Lemma fitness_extremes (rockets : list Rocket.t) :
  rockets <> [] ->
  exists lo hi,
    lo ∈ map Rocket.fitness rockets /\ hi ∈ map Rocket.fitness rockets
    /\ forall f, f ∈ map Rocket.fitness rockets -> (lo <= f <= hi)%R.
Proof.
  intros Hne. destruct (map Rocket.fitness rockets) as [|x xs] eqn:E.
  { destruct rockets; [done | discriminate]. }
  destruct (py_min_spec x xs) as [Hmin_in Hmin].
  destruct (py_max_spec x xs) as [Hmax_in Hmax].
  rewrite Forall_forall in Hmin, Hmax.
  exists (py_min x xs), (py_max x xs).
  split; [exact Hmin_in |]. split; [exact Hmax_in |].
  intros f Hf. split; [apply Hmin, Hf | apply Hmax, Hf].
Qed.

Lemma random_uniform_Ok a b g x g' :
  random_uniform a b g = Ok (x, g') ->
  exists u, random_random g = Ok (u, g') /\ x = (a + (b - a) * u)%R.
Proof.
  unfold random_uniform. intros (u & g1 & Hu & [<- <-]%ret_Ok)%bind_Ok. eauto.
Qed.

Lemma random_random_pos g u g' :
  0 < tape g (cursor g) < two53 ->
  random_random g = Ok (u, g') -> (0 < u)%R.
Proof.
  intros [H0 H1]. unfold random_random, next_raw. intros [= <- _].
  rewrite Z.mod_small by lia.
  apply Rmult_lt_0_compat; [apply IZR_lt; exact H0 |].
  apply Rinv_0_lt_compat, IZR_lt. reflexivity.
Qed.

(** X22. Selection pressure of the wheel (floats as reals).  Whenever
    [roulette_wheel_select] returns an index, it is the first index whose
    running sum of normalized fitnesses reaches the draw
    [pick = random.uniform(0, S)]: the fallback [len(rockets) - 1] after
    the loop is not what produced it.  When the fitnesses of the rockets
    are not all equal and the draw is not 0, the rocket at the index
    returned is not of least fitness: some rocket of the list has a
    strictly smaller fitness.  The draw is [S * u] for the value [u] of
    [random.random()], so it is 0 only when [u] is. *)
Theorem least_fit_not_selected (rockets : list Rocket.t) (g g' : rng) (i : Z) :
  Population.roulette_wheel_select rockets g = Ok (Some i, g') ->
  let nf := Population._get_normalized_fitnesses rockets in
  exists pick u r,
    random_random g = Ok (u, g')
    /\ pick = (py_sum nf * u)%R
    /\ random_uniform 0 (py_sum nf) g = Ok ((0 + (py_sum nf - 0) * u)%R, g')
    /\ first_reaching nf pick i
    /\ rockets !! Z.to_nat i = Some r
    /\ ((0 < u)%R -> (0 < pick)%R)
    /\ ((0 < pick)%R ->
        (exists a b, a ∈ rockets /\ b ∈ rockets
                     /\ (Rocket.fitness a < Rocket.fitness b)%R) ->
        exists r0, r0 ∈ rockets /\ (Rocket.fitness r0 < Rocket.fitness r)%R).
Proof.
  intros H nf.
  assert (Hne : rockets <> []).
  { intros ->. apply ret_Ok in H as [[=] _]. }
  assert (Hsel : Population.roulette_wheel_select rockets g
                 = Population.select_from (py_len rockets) nf g)
    by (destruct rockets; [done | reflexivity]).
  rewrite Hsel in H.
  assert (Hn : 1 <= py_len rockets)
    by (destruct rockets; [done | unfold py_len; simpl; lia]).
  pose proof (normalized_sum_ge_1 rockets Hne) as HS. fold nf in HS.
  assert (Hlen : py_len nf = py_len rockets)
    by (unfold py_len, nf; rewrite normalized_length; reflexivity).
  assert (Hnf : nf <> []).
  { intros E. rewrite E in Hlen. unfold py_len in Hlen, Hn. simpl in Hlen. lia. }
  destruct (select_from_spec (py_len rockets) nf g Hn) as [_ H1].
  destruct H1 as (u & g1 & Hu & Hrange & i1 & Hi & Hfirst);
    [apply Rgt_not_eq; lra |].
  rewrite H in Hi. injection Hi as <- <-.
  assert (Epick : (0 + (py_sum nf - 0) * u)%R = (py_sum nf * u)%R) by lra.
  rewrite Epick in Hfirst.
  set (pick := (py_sum nf * u)%R) in *.
  assert (Hpick : (0 <= pick < py_sum nf)%R) by (unfold pick; nra).
  assert (Hf : first_reaching nf pick i).
  { destruct Hfirst as [Hf | (Hnone & _)]; [exact Hf |].
    specialize (Hnone (py_len nf - 1)).
    rewrite (prefix_sum_last nf Hnf) in Hnone.
    assert (py_sum nf < pick)%R by (apply Hnone; lia). lra. }
  pose proof Hf as (Hi & Hreach & Hbefore).
  destruct (lookup_lt_is_Some_2 rockets (Z.to_nat i)) as (r & Hr);
    [unfold py_len in Hi, Hlen; lia |].
  exists pick, u, r.
  split; [exact Hu |]. split; [reflexivity |].
  split; [unfold random_uniform, bind; rewrite Hu; reflexivity |].
  split; [exact Hf |]. split; [exact Hr |].
  split; [intros Hpos; unfold pick; nra |].
  intros Hpos (a & b & Ha & Hb & Hab).
  destruct (fitness_extremes rockets Hne) as (lo & hi & Hlo & Hhi & Hall).
  destruct (normalized_minmax rockets) as [_ Hmm]. fold nf in Hmm.
  assert (Hfr : map Rocket.fitness rockets !! Z.to_nat i = Some (Rocket.fitness r))
    by (rewrite list_lookup_fmap, Hr; reflexivity).
  pose proof (Hmm lo hi Hlo Hhi Hall _ _ Hfr) as Hx.
  assert (Hlt : (lo < hi)%R).
  { pose proof (Hall _ (list_elem_of_fmap_2 Rocket.fitness _ _ Ha)).
    pose proof (Hall _ (list_elem_of_fmap_2 Rocket.fitness _ _ Hb)). lra. }
  assert (Rltb lo hi = true) as E by (apply Rltb_true; exact Hlt).
  rewrite E in Hx.
  rewrite (prefix_sum_step nf i _ (proj1 Hi) Hx) in Hreach.
  assert (Hxpos : (0 < (Rocket.fitness r - lo) / (hi - lo))%R).
  { destruct (Z.eqb_spec i 0) as [-> | Hnz]; [lra |].
    assert (prefix_sum nf (i - 1) < pick)%R by (apply Hbefore; lia). lra. }
  assert (Hgt : (lo < Rocket.fitness r)%R).
  { destruct (Rle_lt_dec (Rocket.fitness r) lo) as [Hle | Hgt]; [| exact Hgt].
    exfalso. unfold Rdiv in Hxpos.
    assert (0 < / (hi - lo))%R by (apply Rinv_0_lt_compat; lra).
    assert ((Rocket.fitness r - lo) * / (hi - lo) <= 0)%R; [| lra].
    rewrite <- (Rmult_0_l (/ (hi - lo))).
    apply Rmult_le_compat_r; lra. }
  apply list_elem_of_fmap in Hlo as (r0 & E0 & Hr0).
  exists r0. split; [exact Hr0 | rewrite <- E0; exact Hgt].
Qed.

(** Two rockets of fitness 1 and 3 and a generator whose draw is not 0:
    the rocket selected is strictly fitter than another one. *)
Lemma least_fit_not_selected_witness :
  exists i g' r r0,
    Population.roulette_wheel_select unequal_rockets rng1 = Ok (Some i, g')
    /\ unequal_rockets !! Z.to_nat i = Some r
    /\ r0 ∈ unequal_rockets
    /\ (Rocket.fitness r0 < Rocket.fitness r)%R.
Proof.
  destruct (roulette_total unequal_rockets rng1) as (o & g' & H).
  assert (Hne : unequal_rockets <> []) by (intros E; discriminate E).
  destruct (roulette_range _ rng1 o g' Hne H) as (i & -> & _).
  destruct (least_fit_not_selected _ rng1 g' i H)
    as (pick & u & r & Hu & _ & _ & _ & Hr & Hup & Himp).
  assert (Hraw : 0 < tape rng1 (cursor rng1) < two53) by (split; reflexivity).
  pose proof (random_random_pos rng1 u g' Hraw Hu) as Hu0.
  destruct (Himp (Hup Hu0)) as (r0 & Hr0 & Hlt).
  { exists (Rocket.set_fitness 1 (resting_rocket (0, 0)%R)),
           (Rocket.set_fitness 3 (resting_rocket (1, 0)%R)).
    split; [apply list_elem_of_here |].
    split; [apply list_elem_of_further, list_elem_of_here |].
    simpl. lra. }
  exists i, g', r, r0.
  split; [exact H |]. split; [exact Hr |]. split; [exact Hr0 | exact Hlt].
Defined.

(** *** [normalize_fitness_for_selection] *)

Lemma zip_set_fitness_fitnesses (l : list Rocket.t) :
  forall xs, length l = length xs ->
    map Rocket.fitness
        (zip_with (fun rocket nrm => Rocket.set_fitness nrm rocket) l xs) = xs.
Proof.
  induction l as [|r l IH]; intros [|x xs] Hlen; simpl in *; try done.
  rewrite IH by lia. reflexivity.
Qed.

Lemma zip_set_fitness_same (l : list Rocket.t) :
  zip_with (fun rocket nrm => Rocket.set_fitness nrm rocket) l
           (map Rocket.fitness l) = l.
Proof.
  induction l as [|r l IH]; simpl; [reflexivity |].
  rewrite set_fitness_same, IH. reflexivity.
Qed.

Lemma zip_set_fitness_Forall2 (P : R -> Prop) (l : list Rocket.t) :
  forall xs, length l = length xs -> Forall P xs ->
    Forall2 (fun r r' => exists x, r' = Rocket.set_fitness x r /\ P x) l
            (zip_with (fun rocket nrm => Rocket.set_fitness nrm rocket) l xs).
Proof.
  induction l as [|r l IH]; intros [|x xs] Hlen HP; simpl in *; try done.
  inversion HP; subst. constructor; [eauto | apply IH; [lia | done]].
Qed.

Lemma normalized_fitnesses_of_normalized rockets :
  map Rocket.fitness (Population.normalize_fitness_for_selection rockets)
  = Population._get_normalized_fitnesses rockets.
Proof.
  unfold Population.normalize_fitness_for_selection.
  apply zip_set_fitness_fitnesses. symmetry. apply normalized_length.
Qed.

Lemma normalized_shape rockets :
  rockets <> [] ->
  0%R ∈ Population._get_normalized_fitnesses rockets
  \/ Population._get_normalized_fitnesses rockets
     = replicate (length rockets) 1%R.
Proof.
  intros Hne. unfold Population._get_normalized_fitnesses.
  destruct (map Rocket.fitness rockets) as [|x xs] eqn:E.
  - destruct rockets; [done | discriminate].
  - destruct (py_min_spec x xs) as [Hin _].
    destruct (Rltb (py_min x xs) (py_max x xs)) eqn:L.
    + left. apply Rltb_true in L. apply list_elem_of_fmap.
      exists (py_min x xs). split; [| exact Hin].
      unfold Rdiv. rewrite Rminus_diag. lra.
    + right. rewrite <- E, length_map. reflexivity.
Qed.

Lemma normalized_lookup rockets i j ri rj x y :
  rockets !! i = Some ri -> rockets !! j = Some rj ->
  Population._get_normalized_fitnesses rockets !! i = Some x ->
  Population._get_normalized_fitnesses rockets !! j = Some y ->
  (Rocket.fitness ri <= Rocket.fitness rj)%R -> (x <= y)%R.
Proof.
  unfold Population._get_normalized_fitnesses. intros Hi Hj.
  set (mn := match map Rocket.fitness rockets with
             | [] => 0%R | a :: l => py_min a l end).
  set (mx := match map Rocket.fitness rockets with
             | [] => 1%R | a :: l => py_max a l end).
  destruct (Rltb mn mx) eqn:L.
  - apply Rltb_true in L.
    rewrite !list_lookup_fmap, Hi, Hj. simpl. intros [= <-] [= <-] Hle.
    unfold Rdiv. apply Rmult_le_compat_r; [| lra].
    apply Rlt_le, Rinv_0_lt_compat. lra.
  - intros Hx Hy _.
    apply lookup_replicate in Hx as [-> _]. apply lookup_replicate in Hy as [-> _].
    lra.
Qed.

Lemma normalized_fixed rockets rs' :
  map Rocket.fitness rs' = Population._get_normalized_fitnesses rockets ->
  Population._get_normalized_fitnesses rs'
  = Population._get_normalized_fitnesses rockets.
Proof.
  intros Hfs.
  destruct rockets as [|r0 rs0] eqn:Er.
  { unfold Population._get_normalized_fitnesses in *. simpl in *.
    destruct (Rltb 0 1); simpl in Hfs; rewrite Hfs; destruct (Rltb 0 1); reflexivity. }
  rewrite <- Er in *. assert (Hne : rockets <> []) by (rewrite Er; done).
  clear Er r0 rs0.
  pose proof (normalized_range rockets) as Hrange.
  pose proof (normalized_has_one rockets Hne) as Hone.
  pose proof (normalized_shape rockets Hne) as Hshape.
  unfold Population._get_normalized_fitnesses at 1. rewrite Hfs.
  set (fs := Population._get_normalized_fitnesses rockets) in *.
  destruct fs as [|x xs] eqn:Efs; [inversion Hone |].
  rewrite <- Efs in *.
  destruct (py_min_spec x xs) as [Hmin_in Hmin]. destruct (py_max_spec x xs) as [Hmax_in Hmax].
  rewrite <- Efs in Hmin_in, Hmin, Hmax_in, Hmax.
  rewrite Forall_forall in Hrange, Hmin, Hmax.
  assert (Emax : py_max x xs = 1%R).
  { pose proof (Hrange _ Hmax_in). pose proof (Hmax _ Hone). simpl in *. lra. }
  destruct Hshape as [Hzero | Hrep].
  - assert (Emin : py_min x xs = 0%R).
    { pose proof (Hrange _ Hmin_in). pose proof (Hmin _ Hzero). simpl in *. lra. }
    rewrite Emin, Emax.
    assert (Rltb 0 1 = true) as -> by (apply Rltb_true; lra).
    rewrite <- (map_id fs) at 2. apply map_ext. intros f. unfold Rdiv.
    rewrite Rminus_0_r, Rminus_0_r, Rinv_1. lra.
  - assert (Emin : py_min x xs = 1%R).
    { rewrite Hrep in Hmin_in. apply elem_of_replicate in Hmin_in as [H _]. exact H. }
    rewrite Emin, Emax.
    assert (Rltb 1 1 = false) as -> by (apply Rltb_false; lra).
    rewrite Hrep at 2. rewrite Hrep, length_replicate. reflexivity.
Qed.

(** X23. [normalize_fitness_for_selection] writes into every rocket a
    fitness between 0 and 1 and changes nothing else; it keeps the order
    of the fitnesses (a rocket no fitter than another before is no fitter
    after); a non-empty list gets a rocket of fitness 1; and normalizing
    a second time changes nothing. *)
Theorem normalize_fitness_spec (rockets : list Rocket.t) :
  let out := Population.normalize_fitness_for_selection rockets in
  Forall2 (fun r r' => exists x, r' = Rocket.set_fitness x r /\ (0 <= x <= 1)%R)
          rockets out
  /\ (forall i j ri rj ri' rj',
         rockets !! i = Some ri -> rockets !! j = Some rj ->
         out !! i = Some ri' -> out !! j = Some rj' ->
         (Rocket.fitness ri <= Rocket.fitness rj)%R ->
         (Rocket.fitness ri' <= Rocket.fitness rj')%R)
  /\ (rockets <> [] -> exists r', r' ∈ out /\ Rocket.fitness r' = 1%R)
  /\ Population.normalize_fitness_for_selection out = out.
Proof.
  cbv zeta.
  pose proof (normalized_fitnesses_of_normalized rockets) as Hfit.
  split; [| split; [| split]].
  - unfold Population.normalize_fitness_for_selection.
    apply zip_set_fitness_Forall2;
      [symmetry; apply normalized_length | apply normalized_range].
  - intros i j ri rj ri' rj' Hi Hj Hi' Hj' Hle.
    apply (normalized_lookup rockets i j ri rj); try done.
    + rewrite <- Hfit, list_lookup_fmap, Hi'. reflexivity.
    + rewrite <- Hfit, list_lookup_fmap, Hj'. reflexivity.
  - intros Hne. pose proof (normalized_has_one rockets Hne) as Hone.
    rewrite <- Hfit in Hone. apply list_elem_of_fmap in Hone as (r' & E & Hin).
    exists r'. split; [exact Hin | symmetry; exact E].
  - unfold Population.normalize_fitness_for_selection at 1.
    rewrite (normalized_fixed rockets _ Hfit), <- Hfit.
    apply zip_set_fitness_same.
Qed.

(** *** Where the rockets start *)

Lemma init_start_positions c width height pop L rate g w g' :
  World.init c width height pop L rate g = Ok (w, g') ->
  World.start_positions w
  = map (fun i : nat =>
           (IZR (Z.quot ((Z.of_nat i + 1) * width) (pop + 1)),
            IZR (height - 50)))
        (seq 0 (Z.to_nat pop)).
Proof.
  unfold World.init. intros (p & g1 & _ & Hsp)%bind_Ok.
  destruct (spawn_generation_Ok _ _ _ _ Hsp) as (_ & _ & _ & _ & S4 & _).
  rewrite S4. reflexivity.
Qed.

Lemma start_x_range (width pop : Z) (i : nat) :
  0 < width -> (i < Z.to_nat pop)%nat ->
  0 <= Z.quot ((Z.of_nat i + 1) * width) (pop + 1) < width.
Proof.
  intros Hw Hi.
  rewrite Z.quot_div_nonneg by nia.
  split; [apply Z.div_pos; nia |].
  apply Z.div_lt_upper_bound; nia.
Qed.

Lemma start_x_mono (width pop : Z) (i : nat) :
  0 < width -> (S i < Z.to_nat pop)%nat ->
  Z.quot ((Z.of_nat i + 1) * width) (pop + 1)
  <= Z.quot ((Z.of_nat (S i) + 1) * width) (pop + 1).
Proof.
  intros Hw Hi.
  rewrite !Z.quot_div_nonneg by nia.
  apply Z.div_le_mono; nia.
Qed.

(** X24. The constructor places the rockets on a row inside the width of
    the world.  For a positive width the start positions are
    [(x_i, height - 50)] with integers [0 <= x_i < width] that do not
    decrease with [i], and the rockets of the first generation stand on
    them, one per position and in the same order, at rest and with the
    step cursor at 0. *)
Theorem start_positions_spec (c : Config.t) (width height pop L : Z) (rate : R)
    (g g' : rng) (w : World.t) :
  0 <= L -> 0 < width ->
  World.init c width height pop L rate g = Ok (w, g') ->
  Forall2 (fun p r => Rocket.pos r = p /\ Rocket.vel r = zeros
                      /\ Rocket.current_step r = 0)
          (World.start_positions w) (World.get_rockets w)
  /\ Forall (fun p => exists x : Z,
                 p = (IZR x, IZR (height - 50)) /\ 0 <= x < width)
            (World.start_positions w)
  /\ forall (i : nat) p q,
       World.start_positions w !! i = Some p ->
       World.start_positions w !! S i = Some q ->
       (p.1 <= q.1)%R.
Proof.
  intros HL Hw Hi.
  pose proof (init_start_positions _ _ _ _ _ _ _ _ _ Hi) as Hsp.
  destruct (init_rockets c width height pop L rate g w g' HL Hi)
    as (_ & _ & _ & _ & _ & Hr).
  rewrite Hsp. split; [| split].
  - eapply Forall2_impl; [exact Hr |]. simpl.
    intros p r (d & _ & Hp & Hv & _ & _ & Hs & _). done.
  - apply Forall_map, Forall_forall. intros i Hin. simpl.
    apply elem_of_seq in Hin. eexists. split; [reflexivity |].
    apply start_x_range; [exact Hw | lia].
  - intros i p q Hp Hq.
    rewrite list_lookup_fmap in Hp, Hq.
    destruct (seq 0 (Z.to_nat pop) !! i) as [a|] eqn:Ea; [| discriminate].
    destruct (seq 0 (Z.to_nat pop) !! S i) as [b|] eqn:Eb; [| discriminate].
    apply lookup_seq in Ea as [-> _]. apply lookup_seq in Eb as [-> Hlt].
    simpl in Hp, Hq. injection Hp as <-. injection Hq as <-. simpl.
    apply IZR_le. apply (start_x_mono width pop i); [exact Hw | lia].
Qed.

(** Two rockets in a world 300 wide. *)
Lemma start_positions_spec_witness :
  exists w g',
    World.init config0 300 200 2 5 0 rng0 = Ok (w, g')
    /\ Forall (fun p => exists x : Z,
                   p = (IZR x, IZR (200 - 50)) /\ 0 <= x < 300)
              (World.start_positions w).
Proof.
  destruct (init_total config0 300 200 2 5 0 rng0) as (w & g' & Hi).
  assert (H5 : 0 <= 5) by lia. assert (H300 : 0 < 300) by lia.
  exists w, g'. split; [exact Hi |].
  destruct (start_positions_spec config0 300 200 2 5 0 rng0 g' w H5 H300 Hi)
    as (_ & H & _).
  exact H.
Defined.

(** *** When [update] raises *)

Lemma py_index_raises {A} (l : list A) (i : Z) :
  (exists e, py_index l i = Raise e)
  <-> ~ (- py_len l <= i < py_len l).
Proof.
  unfold py_index. cbv zeta.
  destruct (Z.leb_spec 0 i), (Z.ltb_spec i (py_len l)); simpl.
  - destruct (lookup_lt_is_Some_2 l (Z.to_nat i)) as (a & ->);
      [unfold py_len in *; lia |].
    split; [intros (e & [=]) | intros Hn; exfalso; apply Hn; unfold py_len in *; lia].
  - destruct (Z.leb_spec (- py_len l) i), (Z.ltb_spec i 0); simpl;
      try (split; [intros _; lia | eauto]).
    lia.
  - destruct (Z.leb_spec (- py_len l) i), (Z.ltb_spec i 0); simpl; try lia.
    + destruct (lookup_lt_is_Some_2 l (Z.to_nat (py_len l + i))) as (a & ->);
        [unfold py_len in *; lia |].
      split; [intros (e & [=]) | intros Hn; exfalso; apply Hn; lia].
    + split; [intros _; lia | eauto].
  - unfold py_len in *. lia.
Qed.

Lemma py_index_exn {A} (l : list A) (i : Z) e :
  py_index l i = Raise e -> e = IndexError.
Proof.
  unfold py_index. cbv zeta.
  destruct ((0 <=? i) && (i <? py_len l)).
  - destruct (l !! Z.to_nat i); [discriminate | intros [= <-]; reflexivity].
  - destruct ((- py_len l <=? i) && (i <? 0)).
    + destruct (l !! Z.to_nat (py_len l + i));
        [discriminate | intros [= <-]; reflexivity].
    + intros [= <-]. reflexivity.
Qed.

(** X25. [update] raises exactly when the rocket is active, has fuel left
    ([current_step < dna_length]) and the step cursor is not a valid index
    of the genome, as for a rocket whose genome was replaced by a shorter
    one; the exception is then [IndexError].  An inactive rocket or one
    without fuel never raises, whatever its genome. *)
Theorem update_raises_iff (r : Rocket.t) :
  ((exists e, Rocket.update r = Raise e)
   <-> Rocket.is_active r = true
       /\ Rocket.current_step r < Rocket.dna_length r
       /\ ~ (- py_len (Rocket.dna r) <= Rocket.current_step r
             < py_len (Rocket.dna r)))
  /\ forall e, Rocket.update r = Raise e -> e = IndexError.
Proof.
  unfold Rocket.update, Rocket._apply_thrust.
  destruct (Rocket.is_active r); simpl.
  - destruct (Z.ltb_spec (Rocket.current_step r) (Rocket.dna_length r)) as [Hlt | Hge].
    + pose proof (py_index_raises (Rocket.dna r) (Rocket.current_step r)) as Hi.
      pose proof (py_index_exn (Rocket.dna r) (Rocket.current_step r)) as He.
      destruct (py_index (Rocket.dna r) (Rocket.current_step r)) as [a|e0].
      * split; [| intros e [=]].
        split; [intros (e & [=]) |].
        intros (_ & _ & Hn). apply Hi in Hn as (e & [=]).
      * split; [| intros e [= <-]; apply He; reflexivity].
        split; [| eauto]. intros _. split; [reflexivity |]. split; [exact Hlt |].
        apply Hi. eauto.
    + split; [| intros e [=]].
      split; [intros (e & [=]) | intros (_ & H & _); lia].
  - split; [| intros e [=]].
    split; [intros (e & [=]) | intros ([=] & _)].
Qed.

(** *** Clones *)

Lemma Rocket_init_Ok start_pos L cfg g r g' :
  Rocket.init start_pos L cfg g = Ok (r, g') ->
  exists d, r = Rocket.fresh (default RocketConfig.default cfg) start_pos L d.
Proof.
  unfold Rocket.init. intros (d & g1 & _ & [<- _]%ret_Ok)%bind_Ok. eauto.
Qed.

Lemma clone_with_dna_total r new_dna g :
  exists clone g', Rocket.clone_with_dna r new_dna g = Ok (clone, g').
Proof.
  unfold Rocket.clone_with_dna, bind.
  destruct (Rocket_init_total (Rocket.pos r) (py_len new_dna)
              (Some (Rocket.config r)) g) as (r0 & g' & ->).
  unfold ret. eauto.
Qed.

(** X26. [clone_with_dna] never raises.  The clone stands where the
    original stands and has its configuration; its genome is the one
    given and its [dna_length] the length of that genome; velocity, step
    cursor, fitness, reached flag and trail are those of a new rocket.
    Hence any number of [update] calls on the clone returns normally, and
    after [n] of them the cursor is [min(n, len(new_dna))]. *)
Theorem clone_with_dna_spec (r : Rocket.t) (new_dna : list vec) (g : rng) :
  exists clone g',
    Rocket.clone_with_dna r new_dna g = Ok (clone, g')
    /\ clone = Rocket.fresh (Rocket.config r) (Rocket.pos r)
                            (py_len new_dna) new_dna
    /\ forall n, exists r',
         updates n clone = Ok r'
         /\ Rocket.current_step r' = Z.min (Z.of_nat n) (py_len new_dna)
         /\ Rocket.dna r' = new_dna.
Proof.
  destruct (clone_with_dna_total r new_dna g) as (clone & g' & H).
  exists clone, g'. split; [exact H |].
  unfold Rocket.clone_with_dna in H.
  apply bind_Ok in H as (r0 & g1 & H0 & [<- _]%ret_Ok).
  apply Rocket_init_Ok in H0 as (d & ->). simpl.
  split; [reflexivity |].
  intros n.
  set (cl := Rocket.set_dna new_dna _).
  assert (Hlen : 0 <= py_len new_dna) by (unfold py_len; lia).
  destruct (updates_total n cl) as (r' & Hu); [simpl; lia | reflexivity |].
  exists r'. split; [exact Hu |].
  destruct (updates_fields n cl r') as (F1 & _ & _ & F4); [simpl; lia | exact Hu |].
  simpl in F1, F4. split; [rewrite F4; lia | exact F1].
Qed.
